(** * Extraction-and-validation pipeline of the coaching-transcript service

    A shallow embedding of [app/services/text_utils.py],
    [app/models/metadata.py], [app/services/extractor.py],
    [app/services/qdrant_db.py] and the query endpoint of [app/main.py],
    with the properties of the transcript cleaner, the record schema, the
    response parser and the extraction orchestrator that the specification
    states about them (Part II) and further properties of the same code,
    of the vector store and of the endpoint (Part III).

    Conventions.  A Python [str] is a sequence of Unicode code points and
    is modelled as [list N]; a Python [int] is a [Z].  The library calls
    the source makes ([str.strip], [str.rfind], [re.sub], [re.search],
    [json.loads], pydantic validation, tenacity's [retry], [range], list
    slices) are modelled by functions that follow the documented behaviour
    of those libraries.  What lies outside the process (the language
    model, YouTube, the embedder, the Qdrant server) answers through
    parameters of the functions that call it.

    Limits of the model.  A float is carried as the literal that denotes
    it; the one float the code computes, [max_chars * 0.8], is modelled by
    the integer test it amounts to together with the condition under which
    the product raises [OverflowError].  The interpreter's resource limits
    (recursion depth, the digit limit of [int]) are not modelled: the
    properties that depend on [json.loads] are stated for texts the decoder
    has accepted, or for texts that cannot reach those limits.  The waits
    between retries are not modelled; exceptions are the instances of
    [Exception].  The Unicode tables behind the
    digit and word classes of [re] are parameters of the cleaner.  The
    URL parser of [extract_video_id], the CSV handling of the ingestion
    endpoint and the user interface are not embedded. *)

From Stdlib Require Import String Ascii.
From Stdlib Require Import List ZArith NArith Lia Bool.
From Stdlib Require Decimal DecimalFacts DecimalPos DecimalN DecimalZ.
Import ListNotations.

Set Implicit Arguments.
#[local] Set Warnings "-register-all".

(* ===================================================================== *)
(** * Part I: definitions                                                  *)
(* ===================================================================== *)

(** ** Python strings *)

Abbreviation pystr := (list N).

(** Literals are written as Rocq strings (ASCII only). *)
Definition str (s : string) : pystr :=
  map N_of_ascii (list_ascii_of_string s).

(** JSON literals are full of double quotes; [jstr] writes them with
    apostrophes and turns every apostrophe into a double quote. *)
Definition jstr (s : string) : pystr :=
  map (fun c => if N.eqb c 39 then 34%N else c) (str s).

Fixpoint pystr_eqb (a b : pystr) : bool :=
  match a, b with
  | [], [] => true
  | x :: a', y :: b' => N.eqb x y && pystr_eqb a' b'
  | _, _ => false
  end.

Definition py_len (s : pystr) : Z := Z.of_nat (length s).

(** [s[:stop]] for any integer [stop]: a negative bound counts from the
    end, and bounds are clamped to the string. *)
Definition py_slice_to (s : pystr) (stop : Z) : pystr :=
  if (stop <? 0)%Z
  then firstn (Z.to_nat (py_len s + stop)) s
  else firstn (Z.to_nat stop) s.

(** [s.rfind(c)] for a one-character needle: the highest index holding
    [c], or [-1].  [rfind_from i c s] numbers the characters of [s] from
    [i]. *)
Fixpoint rfind_from (i : Z) (c : N) (s : pystr) : Z :=
  match s with
  | [] => (-1)%Z
  | x :: r =>
      let j := rfind_from (i + 1) c r in
      if (0 <=? j)%Z then j
      else if N.eqb x c then i else (-1)%Z
  end.

Definition py_rfind (s : pystr) (c : N) : Z := rfind_from 0 c s.

(** [str.isspace] on one code point (CPython's [_PyUnicode_IsWhitespace]). *)
Definition py_isspace (c : N) : bool :=
  ((9 <=? c) && (c <=? 13) || (28 <=? c) && (c <=? 32)
   || (c =? 133) || (c =? 160) || (c =? 5760)
   || (8192 <=? c) && (c <=? 8202)
   || (c =? 8232) || (c =? 8233) || (c =? 8239) || (c =? 8287)
   || (c =? 12288))%N.

Fixpoint py_lstrip (s : pystr) : pystr :=
  match s with
  | [] => []
  | c :: r => if py_isspace c then py_lstrip r else s
  end.

Definition py_rstrip (s : pystr) : pystr := rev (py_lstrip (rev s)).

Definition py_strip (s : pystr) : pystr := py_lstrip (py_rstrip s).

(** [needle in hay] on strings. *)
Definition contains (hay needle : pystr) : Prop :=
  exists pre post, hay = pre ++ needle ++ post.

Definition ends_with (s : pystr) (c : N) : Prop :=
  exists pre, s = pre ++ [c].

Definition dot : N := 46.
Definition space : N := 32.

(** ** text_utils.py *)

(** The product [max_chars * 0.8] first converts the integer to a double.
    The conversion rounds to nearest and raises [OverflowError] when the
    result would lie beyond the largest double, that is from
    [2^1024 - 2^970] on, for either sign. *)
Definition float_of_int_overflows (n : Z) : bool :=
  (2 ^ 1024 - 2 ^ 970 <=? Z.abs n)%Z.

(** [last_period > max_chars * 0.8], once the product exists.  Python
    compares the integer with the double exactly.  The double nearest to
    0.8 exceeds 4/5 by [0.8 * 2^-54], so for [|max_chars| < 2^50] (any
    length a string can have) the rounded product lies on the same side of
    every integer as [4 * max_chars / 5], and equals it when that is an
    integer; for a negative [max_chars] the product is at most [-0.8] and
    [last_period] at least [-1].  So the test is
    [5 * last_period > 4 * max_chars]. *)
Definition past_four_fifths (last_period max_chars : Z) : bool :=
  (4 * max_chars <? 5 * last_period)%Z.

(** [truncate_transcript] raises [OverflowError] instead of returning when
    the text is over the budget, so that the product is computed, and the
    budget does not convert to a double.  A Python string is shorter than
    [2^63], so this is the case of [max_chars <= -(2^1024 - 2^970)]. *)
Definition truncate_transcript_raises (text : pystr) (max_chars : Z) : bool :=
  negb (py_len text <=? max_chars)%Z && float_of_int_overflows max_chars.

(** The string [truncate_transcript] returns when it does not raise. *)
Definition truncate_transcript (text : pystr) (max_chars : Z) : pystr :=
  if (py_len text <=? max_chars)%Z then text
  else
    let truncated := py_slice_to text max_chars in
    let last_period := py_rfind truncated dot in
    let truncated :=
      if past_four_fifths last_period max_chars
      then py_slice_to truncated (last_period + 1)
      else truncated in
    py_strip truncated.

(** ** models/metadata.py *)

Record DiagnosticLayer := mkDiagnosticLayer {
  related_inner_issues : pystr;
  reality_commitment_check : pystr;
  hidden_benefit : pystr;
  energy_node : pystr
}.

Record Pillars := mkPillars {
  intervention_narrative : pystr;
  intervention_action : pystr;
  intervention_shift : pystr
}.

Record Atmosphere := mkAtmosphere {
  tone : pystr;
  pacing : pystr
}.

Record EnergyNode := mkEnergyNode {
  video_id : pystr;
  video_url : pystr;
  main_question : pystr;
  category : pystr;
  diagnostic_layer : DiagnosticLayer;
  pillars : Pillars;
  atmosphere : Atmosphere;
  overflow : list pystr
}.

(** [EnergyNode.embed_text]: the six fields joined by single spaces. *)
Definition embed_text (self : EnergyNode) : pystr :=
  let dl := diagnostic_layer self in
  main_question self ++ [space] ++
  category self ++ [space] ++
  related_inner_issues dl ++ [space] ++
  reality_commitment_check dl ++ [space] ++
  hidden_benefit dl ++ [space] ++
  energy_node dl.

(** ** Python exceptions and results *)

(** The [Exception] classes the pipeline can meet.  [JSONDecodeError] and
    pydantic's [ValidationError] are subclasses of [ValueError];
    [OverflowError] is what the conversion of too large an integer to a
    float raises; [TransportError] stands for any other [Exception] the
    model client can raise (connection, timeout, HTTP status).
    Interpreter-exit signals that derive only from [BaseException] are
    outside the model. *)
Inductive exn : Type :=
| ValueError
| JSONDecodeError
| ValidationError
| KeyError
| TypeError
| AttributeError
| OverflowError
| TransportError.

(** [isinstance(e, ValueError)]. *)
Definition is_ValueError (e : exn) : bool :=
  match e with
  | ValueError | JSONDecodeError | ValidationError => true
  | _ => false
  end.

Inductive result (A : Type) : Type :=
| Ok (a : A)
| Raise (e : exn).
Arguments Ok {A} a.
Arguments Raise {A} e.

Definition bind {A B} (r : result A) (k : A -> result B) : result B :=
  match r with
  | Ok a => k a
  | Raise e => Raise e
  end.

Declare Scope py_scope.
Delimit Scope py_scope with py.
Notation "x <- r ;; k" := (bind r (fun x => k))
  (at level 61, r at next level, right associativity) : py_scope.

(** ** JSON values as [json.loads] builds them *)

(** A float is kept as the literal that denotes it: binary64 rounding,
    [float()] and [repr()] are not modelled.  [FNum neg ip frac exp] is the
    literal with sign [neg], integer digits [ip], fraction digits [frac]
    and exponent [exp]; the lexer only builds it with a fraction or an
    exponent. *)
Inductive float_lit : Type :=
| FNum (neg : bool) (ip : Decimal.uint) (frac : option Decimal.uint)
       (exp : option Decimal.int)
| FNaN
| FInfinity
| FNegInfinity.

(** [None], [bool], [int], [float], [str], [list] and [dict] with string
    keys.  A dict is its items in insertion order, keys distinct. *)
Unset Elimination Schemes.
Inductive json : Type :=
| JNull
| JBool (b : bool)
| JInt (z : Z)
| JFloat (f : float_lit)
| JStr (s : pystr)
| JArr (items : list json)
| JObj (members : list (pystr * json)).
Set Elimination Schemes.

Abbreviation pydict := (list (pystr * json)).

(** [d.get(k)]. *)
Fixpoint dict_get (d : pydict) (k : pystr) : option json :=
  match d with
  | [] => None
  | (k', v) :: d' => if pystr_eqb k k' then Some v else dict_get d' k
  end.

(** [d[k] = v]: an existing key keeps its position and takes the new
    value, a new key goes last. *)
Fixpoint dict_set (d : pydict) (k : pystr) (v : json) : pydict :=
  match d with
  | [] => [(k, v)]
  | (k', v') :: d' =>
      if pystr_eqb k k' then (k', v) :: d' else (k', v') :: dict_set d' k v
  end.

Definition dict_of_pairs (pairs : list (pystr * json)) : pydict :=
  fold_left (fun d kv => dict_set d (fst kv) (snd kv)) pairs [].

(** ** json.loads (CPython's C scanner, strict mode) *)

Definition is_json_ws (c : N) : bool :=
  ((c =? 32) || (c =? 9) || (c =? 10) || (c =? 13))%N.

Fixpoint skip_ws (s : pystr) : pystr :=
  match s with
  | [] => []
  | c :: r => if is_json_ws c then skip_ws r else s
  end.

Definition is_digit (c : N) : bool := ((48 <=? c) && (c <=? 57))%N.

Definition cons_digit (c : N) (u : Decimal.uint) : Decimal.uint :=
  match (c - 48)%N with
  | 0 => Decimal.D0 u | 1 => Decimal.D1 u | 2 => Decimal.D2 u
  | 3 => Decimal.D3 u | 4 => Decimal.D4 u | 5 => Decimal.D5 u
  | 6 => Decimal.D6 u | 7 => Decimal.D7 u | 8 => Decimal.D8 u
  | _ => Decimal.D9 u
  end%N.

(** The longest run of decimal digits at the head of [s]. *)
Fixpoint span_digits (s : pystr) : Decimal.uint * pystr :=
  match s with
  | [] => (Decimal.Nil, [])
  | c :: r =>
      if is_digit c
      then let (u, r') := span_digits r in (cons_digit c u, r')
      else (Decimal.Nil, s)
  end.

Definition is_nil (u : Decimal.uint) : bool :=
  match u with Decimal.Nil => true | _ => false end.

(** [_match_number_unicode], piece by piece: an optional minus sign; a
    single zero, or a non-zero digit and any digits; optionally a point and
    one digit or more; optionally [e] or [E], an optional sign and one
    digit or more.  Each piece takes the longest match and gives back the
    rest of the text. *)
Definition lex_sign (s : pystr) : bool * pystr :=
  match s with
  | c :: r => if (c =? 45)%N then (true, r) else (false, s)
  | [] => (false, s)
  end.

Definition lex_int_part (s : pystr) : option (Decimal.uint * pystr) :=
  match s with
  | [] => None
  | c :: r =>
      if is_digit c then
        Some (if (c =? 48)%N then (Decimal.D0 Decimal.Nil, r) else span_digits s)
      else None
  end.

Definition lex_frac (s : pystr) : option Decimal.uint * pystr :=
  match s with
  | d :: r =>
      if (d =? 46)%N then
        let (u, r') := span_digits r in
        if is_nil u then (None, s) else (Some u, r')
      else (None, s)
  | [] => (None, s)
  end.

Definition lex_exp_sign (s : pystr) : bool * pystr :=
  match s with
  | sg :: t =>
      if (sg =? 45)%N then (true, t)
      else if (sg =? 43)%N then (false, t)
      else (false, s)
  | [] => (false, s)
  end.

Definition lex_exp (s : pystr) : option Decimal.int * pystr :=
  match s with
  | e :: r =>
      if ((e =? 101) || (e =? 69))%N then
        let (eneg, r') := lex_exp_sign r in
        let (u, r'') := span_digits r' in
        if is_nil u then (None, s)
        else (Some (if eneg then Decimal.Neg u else Decimal.Pos u), r'')
      else (None, s)
  | [] => (None, s)
  end.

(** A literal with neither fraction nor exponent is an [int], any other a
    [float]. *)
Definition match_number (s : pystr) : option (json * pystr) :=
  let (neg, s1) := lex_sign s in
  match lex_int_part s1 with
  | None => None
  | Some (ip, s2) =>
      let (frac, s3) := lex_frac s2 in
      let (exp, s4) := lex_exp s3 in
      match frac, exp with
      | None, None =>
          Some (JInt (Z.of_int (if neg then Decimal.Neg ip else Decimal.Pos ip)), s4)
      | _, _ => Some (JFloat (FNum neg ip frac exp), s4)
      end
  end.

Definition hex_val (c : N) : option N :=
  if is_digit c then Some (c - 48)%N
  else if ((97 <=? c) && (c <=? 102))%N then Some (c - 87)%N
  else if ((65 <=? c) && (c <=? 70))%N then Some (c - 55)%N
  else None.

Definition hex4 (a b c d : N) : option N :=
  match hex_val a, hex_val b, hex_val c, hex_val d with
  | Some x, Some y, Some z, Some w => Some (((x * 16 + y) * 16 + z) * 16 + w)%N
  | _, _, _, _ => None
  end.

Definition is_high_surrogate (u : N) : bool := ((55296 <=? u) && (u <=? 56319))%N.
Definition is_low_surrogate (u : N) : bool := ((56320 <=? u) && (u <=? 57343))%N.
Definition join_surrogates (hi lo : N) : N :=
  (65536 + N.lor (N.shiftl (hi - 55296) 10) (lo - 56320))%N.

(** The character a one-letter escape stands for: the quote, the
    backslash and the slash stand for themselves, [b f n r t] for
    backspace, form feed, line feed, carriage return and tab. *)
Definition simple_escape (e : N) : option N :=
  if (e =? 34)%N then Some 34%N
  else if (e =? 92)%N then Some 92%N
  else if (e =? 47)%N then Some 47%N
  else if (e =? 98)%N then Some 8%N
  else if (e =? 102)%N then Some 12%N
  else if (e =? 110)%N then Some 10%N
  else if (e =? 114)%N then Some 13%N
  else if (e =? 116)%N then Some 9%N
  else None.

Definition push (c : N) (res : option (pystr * pystr)) : option (pystr * pystr) :=
  match res with
  | Some (chars, rest) => Some (c :: chars, rest)
  | None => None
  end.

(** [scanstring]: the string body after the opening quote, up to the
    closing quote.  Raw control characters are refused (strict mode); an
    escaped high surrogate directly followed by an escaped low surrogate is
    one character. *)
Fixpoint scanstring (s : pystr) : option (pystr * pystr) :=
  match s with
  | [] => None
  | c :: r =>
      if (c =? 34)%N then Some ([], r)
      else if (c =? 92)%N then
        match r with
        | [] => None
        | e :: r1 =>
            if (e =? 117)%N then
              match r1 with
              | h1 :: h2 :: h3 :: h4 :: r2 =>
                  match hex4 h1 h2 h3 h4 with
                  | None => None
                  | Some u =>
                      if is_high_surrogate u then
                        match r2 with
                        | b :: v :: k1 :: k2 :: k3 :: k4 :: r3 =>
                            if ((b =? 92) && (v =? 117))%N then
                              match hex4 k1 k2 k3 k4 with
                              | None => None
                              | Some u2 =>
                                  if is_low_surrogate u2
                                  then push (join_surrogates u u2) (scanstring r3)
                                  else push u (scanstring r2)
                              end
                            else push u (scanstring r2)
                        | _ => push u (scanstring r2)
                        end
                      else push u (scanstring r2)
                  end
              | _ => None
              end
            else
              match simple_escape e with
              | Some ch => push ch (scanstring r1)
              | None => None
              end
        end
      else if (c <=? 31)%N then None
      else push c (scanstring r)
  end.

Fixpoint strip_prefix (p s : pystr) : option pystr :=
  match p, s with
  | [], _ => Some s
  | x :: p', y :: s' => if (x =? y)%N then strip_prefix p' s' else None
  | _ :: _, [] => None
  end.

(** The named constants of [scan_once]. *)
Definition match_constant (s : pystr) : option (json * pystr) :=
  match strip_prefix (str "null") s with Some r => Some (JNull, r) | None =>
  match strip_prefix (str "true") s with Some r => Some (JBool true, r) | None =>
  match strip_prefix (str "false") s with Some r => Some (JBool false, r) | None =>
  match strip_prefix (str "NaN") s with Some r => Some (JFloat FNaN, r) | None =>
  match strip_prefix (str "Infinity") s with Some r => Some (JFloat FInfinity, r) | None =>
  match strip_prefix (str "-Infinity") s with Some r => Some (JFloat FNegInfinity, r) | None =>
  None end end end end end end.

(** [scan_once] with its two loops: [array_items] reads the elements of a
    non-empty array up to and including the closing bracket,
    [object_members] the members of a non-empty object up to and including
    the closing brace.  Every call spends one unit of [fuel]; the length of
    the text is always enough (see [json_loads]). *)
Fixpoint scan_once (fuel : nat) (s : pystr) {struct fuel} : option (json * pystr) :=
  match fuel with
  | O => None
  | S fuel' =>
      match s with
      | [] => None
      | c :: r =>
          if (c =? 34)%N then
            match scanstring r with
            | Some (chars, r') => Some (JStr chars, r')
            | None => None
            end
          else if (c =? 123)%N then
            match skip_ws r with
            | c' :: r' =>
                if (c' =? 125)%N then Some (JObj [], r')
                else
                  match object_members fuel' (c' :: r') with
                  | Some (pairs, r'') => Some (JObj (dict_of_pairs pairs), r'')
                  | None => None
                  end
            | [] => None
            end
          else if (c =? 91)%N then
            match skip_ws r with
            | c' :: r' =>
                if (c' =? 93)%N then Some (JArr [], r')
                else
                  match array_items fuel' (c' :: r') with
                  | Some (items, r'') => Some (JArr items, r'')
                  | None => None
                  end
            | [] => None
            end
          else
            match match_constant s with
            | Some res => Some res
            | None => match_number s
            end
      end
  end

with array_items (fuel : nat) (s : pystr) {struct fuel} : option (list json * pystr) :=
  match fuel with
  | O => None
  | S fuel' =>
      match scan_once fuel' s with
      | None => None
      | Some (v, r) =>
          match skip_ws r with
          | c :: r' =>
              if (c =? 93)%N then Some ([v], r')
              else if (c =? 44)%N then
                match array_items fuel' (skip_ws r') with
                | Some (vs, r'') => Some (v :: vs, r'')
                | None => None
                end
              else None
          | [] => None
          end
      end
  end

with object_members (fuel : nat) (s : pystr) {struct fuel}
  : option (list (pystr * json) * pystr) :=
  match fuel with
  | O => None
  | S fuel' =>
      match s with
      | c :: r =>
          if (c =? 34)%N then
            match scanstring r with
            | None => None
            | Some (k, r1) =>
                match skip_ws r1 with
                | c1 :: r2 =>
                    if (c1 =? 58)%N then
                      match scan_once fuel' (skip_ws r2) with
                      | None => None
                      | Some (v, r3) =>
                          match skip_ws r3 with
                          | c3 :: r4 =>
                              if (c3 =? 125)%N then Some ([(k, v)], r4)
                              else if (c3 =? 44)%N then
                                match object_members fuel' (skip_ws r4) with
                                | Some (kvs, r5) => Some ((k, v) :: kvs, r5)
                                | None => None
                                end
                              else None
                          | [] => None
                          end
                      end
                    else None
                | [] => None
                end
            end
          else None
      | [] => None
      end
  end.

(** [json.loads(s)]: one value between optional whitespace, nothing after
    it; [None] stands for [JSONDecodeError].

    The decoder of the interpreter has two more ways to fail, which are
    not [JSONDecodeError] and which this function does not have: it raises
    [RecursionError] when arrays and objects are nested deeper than the
    interpreter's recursion limit allows, and [int] raises a plain
    [ValueError] for an integer literal with more digits than the
    interpreter's limit (4300 by default; the limit cannot be set below
    640).  The properties of the parser are therefore stated for texts
    the decoder has itself accepted, or for texts without an opening
    bracket or brace and with at most [int_digits_threshold] digits. *)
Definition json_loads (s : pystr) : option json :=
  match scan_once (S (length s)) (skip_ws s) with
  | Some (v, r) => match skip_ws r with [] => Some v | _ :: _ => None end
  | None => None
  end.

(** [sys.int_info.str_digits_check_threshold]: a literal of at most this
    many digits is converted whatever the configured limit is. *)
Definition int_digits_threshold : nat := 640.

(** The number of ASCII digits in a text. *)
Definition digit_count (s : pystr) : nat := length (filter is_digit s).

(** ** Re-serialization: json.dumps(value, ensure_ascii=False)

    Default separators; non-ASCII characters are written raw; a float is
    written as its literal. *)

Fixpoint chars_of_uint (u : Decimal.uint) : pystr :=
  match u with
  | Decimal.Nil => []
  | Decimal.D0 u' => 48%N :: chars_of_uint u'
  | Decimal.D1 u' => 49%N :: chars_of_uint u'
  | Decimal.D2 u' => 50%N :: chars_of_uint u'
  | Decimal.D3 u' => 51%N :: chars_of_uint u'
  | Decimal.D4 u' => 52%N :: chars_of_uint u'
  | Decimal.D5 u' => 53%N :: chars_of_uint u'
  | Decimal.D6 u' => 54%N :: chars_of_uint u'
  | Decimal.D7 u' => 55%N :: chars_of_uint u'
  | Decimal.D8 u' => 56%N :: chars_of_uint u'
  | Decimal.D9 u' => 57%N :: chars_of_uint u'
  end.

Definition chars_of_int (i : Decimal.int) : pystr :=
  match i with
  | Decimal.Pos u => chars_of_uint u
  | Decimal.Neg u => 45%N :: chars_of_uint u
  end.

Definition float_chars (f : float_lit) : pystr :=
  match f with
  | FNum neg ip frac exp =>
      (if neg then [45%N] else []) ++ chars_of_uint ip
      ++ match frac with Some u => 46%N :: chars_of_uint u | None => [] end
      ++ match exp with Some e => 101%N :: chars_of_int e | None => [] end
  | FNaN => str "NaN"
  | FInfinity => str "Infinity"
  | FNegInfinity => str "-Infinity"
  end.

Definition hex_digit (n : N) : N := (if n <? 10 then 48 + n else 87 + n)%N.

(** [py_encode_basestring]: quote and backslash are escaped, control
    characters are written as their short escape or as [\u00XX]. *)
Definition escape_char (c : N) : pystr :=
  (if c =? 34 then [92; 34]
   else if c =? 92 then [92; 92]
   else if c =? 10 then [92; 110]
   else if c =? 13 then [92; 114]
   else if c =? 9 then [92; 116]
   else if c =? 8 then [92; 98]
   else if c =? 12 then [92; 102]
   else if c <? 32 then [92; 117; 48; 48; hex_digit (c / 16); hex_digit (c mod 16)]
   else [c])%N.

Definition encode_basestring (s : pystr) : pystr :=
  34%N :: flat_map escape_char s ++ [34%N].

Fixpoint join_comma (parts : list pystr) : pystr :=
  match parts with
  | [] => []
  | [p] => p
  | p :: ps => p ++ [44%N; 32%N] ++ join_comma ps
  end.

Fixpoint json_dumps (v : json) : pystr :=
  match v with
  | JNull => str "null"
  | JBool true => str "true"
  | JBool false => str "false"
  | JInt z => chars_of_int (Z.to_int z)
  | JFloat f => float_chars f
  | JStr s => encode_basestring s
  | JArr items => [91%N] ++ join_comma (map json_dumps items) ++ [93%N]
  | JObj members =>
      [123%N]
      ++ join_comma
           (map (fun kv => encode_basestring (fst kv) ++ [58%N; 32%N]
                           ++ json_dumps (snd kv)) members)
      ++ [125%N]
  end.

(** ** extractor.py: the response parser *)

Definition fence : pystr := [96%N; 96%N; 96%N].
Definition fence_json : pystr := fence ++ str "json".

Definition starts_with (p s : pystr) : bool :=
  match strip_prefix p s with Some _ => true | None => false end.

(** The [re.sub] call that deletes the markdown fences: every run of three
    backticks, together with the tag [json] when it follows directly, is
    replaced by the empty string, leftmost first and without overlap.
    [skip] counts the characters of the current match still to delete. *)
Fixpoint strip_fences (skip : nat) (s : pystr) : pystr :=
  match s with
  | [] => []
  | c :: r =>
      match skip with
      | S k => strip_fences k r
      | O =>
          if starts_with fence_json s then strip_fences 6 r
          else if starts_with fence s then strip_fences 2 r
          else c :: strip_fences 0 r
      end
  end.

Definition re_sub_fence (text : pystr) : pystr := strip_fences 0 text.

(** The suffix of [s] that starts at the first [c]. *)
Fixpoint from_first (c : N) (s : pystr) : option pystr :=
  match s with
  | [] => None
  | x :: r => if (x =? c)%N then Some s else from_first c r
  end.

(** The [re.search] call for an opening bracket, anything (newlines
    included, greedy) and a closing bracket: the match runs from the first
    opening bracket to the last closing bracket after it. *)
Definition re_search_array (text : pystr) : option pystr :=
  match from_first 91 text with
  | Some (b :: after) =>
      let j := py_rfind after 93 in
      if (0 <=? j)%Z then Some (b :: py_slice_to after (j + 1)) else None
  | _ => None
  end.

Definition _extract_json_array (text : pystr) : result (list json) :=
  let text := py_strip (re_sub_fence text) in
  (* try: direct parse; a JSONDecodeError or a non-list falls through *)
  match json_loads text with
  | Some (JArr parsed) => Ok parsed
  | _ =>
      match re_search_array text with
      | Some group0 =>
          match json_loads group0 with
          | Some (JArr parsed) => Ok parsed
          | _ => Raise ValueError
          end
      | None => Raise ValueError
      end
  end.

(** ** extractor.py: per-item validation *)

(** [obj.get(key, default)]: only a dict has [get]. *)
Definition py_get (obj : json) (key : pystr) (default : json) : result json :=
  match obj with
  | JObj d => Ok (match dict_get d key with Some v => v | None => default end)
  | _ => Raise AttributeError
  end.

(** [obj[key]] with a string key. *)
Definition py_getitem (obj : json) (key : pystr) : result json :=
  match obj with
  | JObj d => match dict_get d key with Some v => Ok v | None => Raise KeyError end
  | _ => Raise TypeError
  end.

(** pydantic (v2, lax mode) on a [str] field: only a [str] passes. *)
Definition validate_str (v : json) : result pystr :=
  match v with
  | JStr s => Ok s
  | _ => Raise ValidationError
  end.

Fixpoint validate_str_items (items : list json) : result (list pystr) :=
  match items with
  | [] => Ok []
  | v :: vs =>
      (s <- validate_str v ;; ss <- validate_str_items vs ;; Ok (s :: ss))%py
  end.

(** pydantic on a [List[str]] field. *)
Definition validate_str_list (v : json) : result (list pystr) :=
  match v with
  | JArr items => validate_str_items items
  | _ => Raise ValidationError
  end.

(** A model built from an unpacked mapping (the double-star call): the
    argument must be a mapping; its items become the keyword arguments. *)
Definition kwargs_of (obj : json) : result pydict :=
  match obj with
  | JObj d => Ok d
  | _ => Raise TypeError
  end.

(** A required [str] field taken from keyword arguments; unknown keywords
    are ignored. *)
Definition required_str (kwargs : pydict) (name : pystr) : result pystr :=
  match dict_get kwargs name with
  | Some v => validate_str v
  | None => Raise ValidationError
  end.

Definition new_Pillars (kwargs : pydict) : result Pillars :=
  (n <- required_str kwargs (str "intervention_narrative") ;;
   a <- required_str kwargs (str "intervention_action") ;;
   s <- required_str kwargs (str "intervention_shift") ;;
   Ok (mkPillars n a s))%py.

Definition new_Atmosphere (kwargs : pydict) : result Atmosphere :=
  (t <- required_str kwargs (str "tone") ;;
   p <- required_str kwargs (str "pacing") ;;
   Ok (mkAtmosphere t p))%py.

(** The body of the [try] block of [_validate_nodes] for one item. *)
Definition build_node (item : json) (video_id video_url : pystr)
  : result EnergyNode :=
  (dl_raw <- py_get item (str "diagnostic_layer") (JObj []) ;;
   rii_raw <- py_get dl_raw (str "related_inner_issues") (JStr []) ;;
   rcc_raw <- py_get dl_raw (str "reality_commitment_check") (JStr []) ;;
   hb_raw <- py_get dl_raw (str "hidden_benefit") (JStr []) ;;
   en_raw <- py_get dl_raw (str "energy_node") (JStr []) ;;
   rii <- validate_str rii_raw ;;
   rcc <- validate_str rcc_raw ;;
   hb <- validate_str hb_raw ;;
   en <- validate_str en_raw ;;
   let diagnostic_layer := mkDiagnosticLayer rii rcc hb en in
   mq_raw <- py_getitem item (str "main_question") ;;
   cat_raw <- py_getitem item (str "category") ;;
   pillars_raw <- py_getitem item (str "pillars") ;;
   pillars_kw <- kwargs_of pillars_raw ;;
   pillars <- new_Pillars pillars_kw ;;
   atmosphere_raw <- py_getitem item (str "atmosphere") ;;
   atmosphere_kw <- kwargs_of atmosphere_raw ;;
   atmosphere <- new_Atmosphere atmosphere_kw ;;
   overflow_raw <- py_get item (str "overflow") (JArr []) ;;
   mq <- validate_str mq_raw ;;
   cat <- validate_str cat_raw ;;
   overflow <- validate_str_list overflow_raw ;;
   Ok (mkEnergyNode video_id video_url mq cat diagnostic_layer
                    pillars atmosphere overflow))%py.

(** The loop of [_validate_nodes]: a node that builds is appended, an item
    that raises is logged and skipped. *)
Definition _validate_nodes (raw_list : list json) (video_id video_url : pystr)
  : list EnergyNode :=
  fold_left
    (fun nodes item =>
       match build_node item video_id video_url with
       | Ok node => nodes ++ [node]
       | Raise _ => nodes
       end)
    raw_list [].

(** ** extractor.py: the model call, its retry and the orchestrator *)

(** What one call of the model client yields: a text, a message whose
    content is not a text, or an exception. *)
Inductive llm_reply : Type :=
| Content (raw : pystr)
| NonTextContent
| LlmRaises (e : exn).

(** The client as the orchestrator sees it: the reply to the [n]-th
    invocation (counted from 0) of the process, given the user prompt. *)
Definition llm_client := nat -> pystr -> llm_reply.

Definition USER_PROMPT_TEMPLATE (transcript : pystr) : pystr :=
  str "TRANSCRIPT:" ++ [10%N] ++ transcript ++ [10%N; 10%N]
  ++ str "Return the JSON array now:" ++ [10%N].

(** The undecorated body of [_call_llm_and_parse]: one invocation of the
    client, then the parser.  The state is the number of invocations made
    so far. *)
Definition call_llm_and_parse_once (llm : llm_client) (transcript : pystr)
    (calls : nat) : result (list json) * nat :=
  match llm calls (USER_PROMPT_TEMPLATE transcript) with
  | LlmRaises e => (Raise e, S calls)
  | NonTextContent => (Raise TypeError, S calls)
  | Content raw => (_extract_json_array raw, S calls)
  end.

(** tenacity's [retry] with [retry_if_exception_type(ValueError)] and
    [reraise=True]: [remaining] is the number of attempts the stop rule
    still allows after the current one.  The waits between attempts are
    not modelled. *)
Fixpoint retry_loop {A} (remaining : nat) (fn : nat -> result A * nat)
    (calls : nat) : result A * nat :=
  let (r, calls') := fn calls in
  match r with
  | Ok a => (Ok a, calls')
  | Raise e =>
      if is_ValueError e then
        match remaining with
        | O => (Raise e, calls')
        | S k => retry_loop k fn calls'
        end
      else (Raise e, calls')
  end.

Definition stop_after_attempt : nat := 3.

Definition _call_llm_and_parse (llm : llm_client) (transcript : pystr)
    (calls : nat) : result (list json) * nat :=
  retry_loop (stop_after_attempt - 1) (call_llm_and_parse_once llm transcript) calls.

Definition extract_energy_nodes (llm : llm_client)
    (transcript video_id video_url : pystr) (max_chars : Z) (calls : nat)
  : result (list EnergyNode) * nat :=
  (* the truncation stands before the try block: what it raises escapes *)
  if truncate_transcript_raises transcript max_chars
  then (Raise OverflowError, calls)
  else
    let truncated := truncate_transcript transcript max_chars in
    match _call_llm_and_parse llm truncated calls with
    | (Raise exc, calls') => (Ok [], calls')
    | (Ok raw_list, calls') =>
        (Ok (_validate_nodes raw_list video_id video_url), calls')
    end.

(** ** The values [json.loads] returns *)

(** A float literal as the lexer builds it: integer digits without a
    superfluous leading zero, a fraction or an exponent present, neither of
    them empty. *)
Definition float_wf (f : float_lit) : Prop :=
  match f with
  | FNum neg ip frac exp =>
      Decimal.unorm ip = ip
      /\ frac <> Some Decimal.Nil
      /\ exp <> Some (Decimal.Pos Decimal.Nil)
      /\ exp <> Some (Decimal.Neg Decimal.Nil)
      /\ (frac <> None \/ exp <> None)
  | FNaN | FInfinity | FNegInfinity => True
  end.

(** A value as the decoder builds it: well-formed float literals, and the
    keys of every dict distinct. *)
Inductive wf : json -> Prop :=
| wf_null : wf JNull
| wf_bool b : wf (JBool b)
| wf_int z : wf (JInt z)
| wf_float f : float_wf f -> wf (JFloat f)
| wf_str s : wf (JStr s)
| wf_arr items : Forall wf items -> wf (JArr items)
| wf_obj members :
    NoDup (map fst members) ->
    Forall (fun kv => wf (snd kv)) members ->
    wf (JObj members).

(** The number of decoder calls a value costs. *)
Fixpoint jsize (v : json) : nat :=
  match v with
  | JArr items => S (list_sum (map (fun x => S (jsize x)) items))
  | JObj members => S (list_sum (map (fun kv => S (jsize (snd kv))) members))
  | _ => 1
  end.

(** What may follow a value inside a serialized document: nothing, a comma,
    a closing bracket or a closing brace. *)
Definition value_end (rest : pystr) : Prop :=
  match rest with
  | [] => True
  | c :: _ => c = 44%N \/ c = 93%N \/ c = 125%N
  end.

(** The head of [rest] is not a digit. *)
Definition no_digit_head (rest : pystr) : Prop :=
  match rest with
  | [] => True
  | c :: _ => is_digit c = false
  end.

(** A character a serialized value can start with: not whitespace, not a
    closing bracket or brace. *)
Definition value_start (c : N) : Prop :=
  is_json_ws c = false /\ c <> 93%N /\ c <> 125%N.

(** A number literal starts with a digit, or a minus sign and a digit. *)
Definition number_start (s : pystr) : Prop :=
  match s with
  | c :: r =>
      is_digit c = true
      \/ (c = 45%N /\ match r with d :: _ => is_digit d = true | [] => False end)
  | [] => False
  end.

(** The decoder calls the elements of an array, or the members of an
    object, cost. *)
Definition items_size (items : list json) : nat :=
  list_sum (map (fun x => S (jsize x)) items).

Definition members_size (members : list (pystr * json)) : nat :=
  list_sum (map (fun kv => S (jsize (snd kv))) members).

(** One member of a serialized object. *)
Definition member_text (kv : pystr * json) : pystr :=
  encode_basestring (fst kv) ++ [58%N; 32%N] ++ json_dumps (snd kv).

(** ** Vocabulary of the orchestrator's properties *)

(** What the [n]-th invocation makes of one attempt: the parsed array or
    the exception the attempt ends with. *)
Definition attempt_outcome (llm : llm_client) (transcript : pystr) (n : nat)
  : result (list json) :=
  fst (call_llm_and_parse_once llm transcript n).

(** The attempt ends with an exception the retry rule retries. *)
Definition parse_failure (llm : llm_client) (transcript : pystr) (n : nat) : Prop :=
  exists e, attempt_outcome llm transcript n = Raise e /\ is_ValueError e = true.


(** What one item contributes to the result of [_validate_nodes]. *)
Definition nodes_of_item (video_id video_url : pystr) (item : json)
  : list EnergyNode :=
  match build_node item video_id video_url with
  | Ok node => [node]
  | Raise _ => []
  end.


(** ** Sample model answers *)

Definition sample_video_id : pystr := str "test123".
Definition sample_video_url : pystr := str "https://youtube.com/watch?v=test123".

Definition good_item_text : pystr :=
  jstr "{'main_question': 'How do I rest?', 'category': 'Burnout', 'diagnostic_layer': {'related_inner_issues': 'over-caring', 'reality_commitment_check': 'Do you want to feel restful?', 'hidden_benefit': 'avoiding decisions', 'energy_node': 'depleted_energy'}, 'pillars': {'intervention_narrative': 'Rest is the foundation.', 'intervention_action': 'Schedule one rest period.', 'intervention_shift': 'I am productive because I rest.'}, 'atmosphere': {'tone': 'warm', 'pacing': 'slow'}, 'overflow': ['Rest is not a reward.']}".

Definition good_node : EnergyNode :=
  mkEnergyNode sample_video_id sample_video_url
    (str "How do I rest?") (str "Burnout")
    (mkDiagnosticLayer (str "over-caring") (str "Do you want to feel restful?")
       (str "avoiding decisions") (str "depleted_energy"))
    (mkPillars (str "Rest is the foundation.") (str "Schedule one rest period.")
       (str "I am productive because I rest."))
    (mkAtmosphere (str "warm") (str "slow"))
    [str "Rest is not a reward."].

(** The item of [good_item_text] as [json.loads] returns it. *)
Definition good_item : json :=
  JObj [(str "main_question", JStr (str "How do I rest?"));
        (str "category", JStr (str "Burnout"));
        (str "diagnostic_layer",
         JObj [(str "related_inner_issues", JStr (str "over-caring"));
               (str "reality_commitment_check",
                JStr (str "Do you want to feel restful?"));
               (str "hidden_benefit", JStr (str "avoiding decisions"));
               (str "energy_node", JStr (str "depleted_energy"))]);
        (str "pillars",
         JObj [(str "intervention_narrative", JStr (str "Rest is the foundation."));
               (str "intervention_action", JStr (str "Schedule one rest period."));
               (str "intervention_shift", JStr (str "I am productive because I rest."))]);
        (str "atmosphere",
         JObj [(str "tone", JStr (str "warm")); (str "pacing", JStr (str "slow"))]);
        (str "overflow", JArr [JStr (str "Rest is not a reward.")])].



(** An item without the [diagnostic_layer] object, complete otherwise. *)
Definition no_diagnostic_item_text : pystr :=
  jstr "{'main_question': 'How do I rest?', 'category': 'Burnout', 'pillars': {'intervention_narrative': 'Rest is the foundation.', 'intervention_action': 'Schedule one rest period.', 'intervention_shift': 'I am productive because I rest.'}, 'atmosphere': {'tone': 'warm', 'pacing': 'slow'}}".

(** The same item as [json.loads] returns it. *)
Definition no_diagnostic_item : json :=
  JObj [(str "main_question", JStr (str "How do I rest?"));
        (str "category", JStr (str "Burnout"));
        (str "pillars",
         JObj [(str "intervention_narrative", JStr (str "Rest is the foundation."));
               (str "intervention_action", JStr (str "Schedule one rest period."));
               (str "intervention_shift", JStr (str "I am productive because I rest."))]);
        (str "atmosphere",
         JObj [(str "tone", JStr (str "warm")); (str "pacing", JStr (str "slow"))])].

Definition undiagnosed_node : EnergyNode :=
  mkEnergyNode sample_video_id sample_video_url
    (str "How do I rest?") (str "Burnout")
    (mkDiagnosticLayer [] [] [] [])
    (mkPillars (str "Rest is the foundation.") (str "Schedule one rest period.")
       (str "I am productive because I rest."))
    (mkAtmosphere (str "warm") (str "slow"))
    [].

(** A client that answers every invocation with the same text. *)
Definition constant_llm (answer : pystr) : llm_client :=
  fun _ _ => Content answer.



(** ** models/metadata.py: the stored payload *)

(** [EnergyNode.to_payload], that is [model_dump()]: the record as nested
    dicts, keys in field order. *)
Definition to_payload (self : EnergyNode) : json :=
  let dl := diagnostic_layer self in
  let p := pillars self in
  let a := atmosphere self in
  JObj [(str "video_id", JStr (video_id self));
        (str "video_url", JStr (video_url self));
        (str "main_question", JStr (main_question self));
        (str "category", JStr (category self));
        (str "diagnostic_layer",
         JObj [(str "related_inner_issues", JStr (related_inner_issues dl));
               (str "reality_commitment_check", JStr (reality_commitment_check dl));
               (str "hidden_benefit", JStr (hidden_benefit dl));
               (str "energy_node", JStr (energy_node dl))]);
        (str "pillars",
         JObj [(str "intervention_narrative", JStr (intervention_narrative p));
               (str "intervention_action", JStr (intervention_action p));
               (str "intervention_shift", JStr (intervention_shift p))]);
        (str "atmosphere",
         JObj [(str "tone", JStr (tone a)); (str "pacing", JStr (pacing a))]);
        (str "overflow", JArr (map JStr (overflow self)))].

(** ** Vocabulary of the further properties *)

(** A string that [strip] leaves alone: it neither starts nor ends with
    whitespace. *)
Definition stripped (s : pystr) : Prop :=
  (forall c r, s = c :: r -> py_isspace c = false)
  /\ (forall pre c, s = pre ++ [c] -> py_isspace c = false).

(** Every character of the string is whitespace for [str.isspace]. *)
Definition all_space (s : pystr) : Prop := Forall (fun c => py_isspace c = true) s.

(** [needle in hay], computed. *)
Fixpoint has_infix (needle hay : pystr) : bool :=
  match hay with
  | [] => starts_with needle []
  | _ :: r => starts_with needle hay || has_infix needle r
  end.

(** What a diagnostic field of an accepted node can be: the string the
    item gives for it, or the empty string when the item has no
    [diagnostic_layer] or the layer lacks the field. *)
Definition diagnostic_from (d : pydict) (name field : pystr) : Prop :=
  match dict_get d (str "diagnostic_layer") with
  | None => field = []
  | Some layer =>
      exists dd, layer = JObj dd
                 /\ match dict_get dd name with
                    | Some v => v = JStr field
                    | None => field = []
                    end
  end.

(** ** text_utils.py: the transcript cleaner

    [clean_transcript] is a chain of [re.sub] calls.  The patterns are
    kept as regular expressions, and [re_match] is the backtracking
    matcher of Python's [re] on the constructs they use: alternatives are
    tried left to right, a greedy repeat tries the longest run first and
    gives characters back one by one, a lazy repeat tries the shortest run
    first.  A match is the number of characters it consumes. *)

Inductive regex : Type :=
| Empty
| Chars (p : N -> bool)      (* one character of a class *)
| Seq (r1 r2 : regex)
| Alt (r1 r2 : regex)
| Opt (r : regex)            (* greedy optional group *)
| Star (p : N -> bool)       (* greedy star of a class *)
| LazyStar (p : N -> bool)   (* lazy star of a class *)
| Upto (n : nat) (p : N -> bool)   (* a class repeated 0 to n times, greedy *)
| LineStart                  (* the caret under MULTILINE *)
| WordBoundary.

(** The continuation of a match: the character before the position, the
    text from the position on, the number of characters consumed so far. *)
Abbreviation re_cont := (option N -> pystr -> nat -> option nat).

Definition accept : re_cont := fun _ _ n => Some n.

Fixpoint star_greedy (p : N -> bool) (k : re_cont)
    (prev : option N) (s : pystr) (n : nat) : option nat :=
  match s with
  | c :: t =>
      if p c then
        match star_greedy p k (Some c) t (S n) with
        | Some x => Some x
        | None => k prev s n
        end
      else k prev s n
  | [] => k prev s n
  end.

Fixpoint star_lazy (p : N -> bool) (k : re_cont)
    (prev : option N) (s : pystr) (n : nat) : option nat :=
  match k prev s n with
  | Some x => Some x
  | None =>
      match s with
      | c :: t => if p c then star_lazy p k (Some c) t (S n) else None
      | [] => None
      end
  end.

Fixpoint upto_greedy (m : nat) (p : N -> bool) (k : re_cont)
    (prev : option N) (s : pystr) (n : nat) : option nat :=
  match m with
  | O => k prev s n
  | S m' =>
      match s with
      | c :: t =>
          if p c then
            match upto_greedy m' p k (Some c) t (S n) with
            | Some x => Some x
            | None => k prev s n
            end
          else k prev s n
      | [] => k prev s n
      end
  end.

Section Re.

(** The interpreter's Unicode tables: [re_digit] is the class of decimal
    digits (backslash d), [re_word] the class of word characters
    (backslash w: alphanumerics and the underscore). *)
Variable re_digit : N -> bool.
Variable re_word : N -> bool.

Definition word_before (prev : option N) : bool :=
  match prev with Some c => re_word c | None => false end.

Definition word_after (s : pystr) : bool :=
  match s with c :: _ => re_word c | [] => false end.

Fixpoint re_match (r : regex) (prev : option N) (s : pystr) (n : nat)
    (k : re_cont) : option nat :=
  match r with
  | Empty => k prev s n
  | Chars p =>
      match s with
      | c :: t => if p c then k (Some c) t (S n) else None
      | [] => None
      end
  | Seq r1 r2 =>
      re_match r1 prev s n (fun prev' s' n' => re_match r2 prev' s' n' k)
  | Alt r1 r2 =>
      match re_match r1 prev s n k with
      | Some x => Some x
      | None => re_match r2 prev s n k
      end
  | Opt r1 =>
      match re_match r1 prev s n k with
      | Some x => Some x
      | None => k prev s n
      end
  | Star p => star_greedy p k prev s n
  | LazyStar p => star_lazy p k prev s n
  | Upto m p => upto_greedy m p k prev s n
  | LineStart =>
      match prev with
      | None => k prev s n
      | Some c => if (c =? 10)%N then k prev s n else None
      end
  | WordBoundary =>
      if xorb (word_before prev) (word_after s) then k prev s n else None
  end.

(** [re.sub(pattern, repl, s)] for a replacement without escapes: the text
    is scanned from the left, the first match found at a position is
    replaced and the scan goes on behind it.  [skip] counts the characters
    of the current match still to pass over, [prev] is the character
    before the position.  An empty match is replaced and the character
    behind it copied; no pattern of the cleaner has an empty match. *)
Fixpoint re_sub_from (r : regex) (repl : pystr) (skip : nat)
    (prev : option N) (s : pystr) : pystr :=
  match s with
  | [] =>
      match skip with
      | S _ => []
      | O => match re_match r prev [] 0 accept with
             | Some _ => repl
             | None => []
             end
      end
  | c :: t =>
      match skip with
      | S k => re_sub_from r repl k (Some c) t
      | O =>
          match re_match r prev s 0 accept with
          | Some (S m) => repl ++ re_sub_from r repl m (Some c) t
          | Some O => repl ++ c :: re_sub_from r repl 0 (Some c) t
          | None => c :: re_sub_from r repl 0 (Some c) t
          end
      end
  end.

Definition re_sub (r : regex) (repl : pystr) (s : pystr) : pystr :=
  re_sub_from r repl 0 None s.

(** *** The patterns *)

Definition chr (c : N) : regex := Chars (N.eqb c).

(** One or more characters of a class, greedy. *)
Definition plus (p : N -> bool) : regex := Seq (Chars p) (Star p).

Definition in_range (lo hi c : N) : bool := ((lo <=? c) && (c <=? hi))%N.

(** Any character but the newline: the dot without DOTALL. *)
Definition dot_char (c : N) : bool := negb (c =? 10)%N.

(** A bracket, as little as possible of anything on the line, a closing
    bracket. *)
Definition bracketed : regex :=
  Seq (chr 91) (Seq (LazyStar dot_char) (chr 93)).

Definition ascii_letter (c : N) : bool := in_range 65 90 c || in_range 97 122 c.

(** Letters, digits, the space and the underscore, all ASCII. *)
Definition label_char (c : N) : bool :=
  ascii_letter c || in_range 48 57 c || (c =? 32)%N || (c =? 95)%N.

(** At the start of a line: a letter, up to 30 label characters, a colon
    and any whitespace after it. *)
Definition speaker_label : regex :=
  Seq LineStart
    (Seq (Chars ascii_letter)
       (Seq (Upto 30 label_char) (Seq (chr 58) (Star py_isspace)))).

Definition two_digits : regex := Seq (Chars re_digit) (Chars re_digit).

(** Between word boundaries: one or two digits, a colon, two digits and,
    optionally, a colon and two more digits. *)
Definition timestamp : regex :=
  Seq WordBoundary
    (Seq (Seq (Chars re_digit) (Upto 1 re_digit))
       (Seq (chr 58)
          (Seq two_digits
             (Seq (Opt (Seq (chr 58) two_digits)) WordBoundary)))).

(** What a lowercase ASCII letter of a pattern matches under IGNORECASE:
    itself, its capital and, for i, k and s, the characters Unicode folds
    to them (dotted capital I and dotless i, the Kelvin sign, the long
    s). *)
Definition ichar (c : N) : N -> bool :=
  fun x => ((x =? c) || (x =? c - 32)
            || ((c =? 105) && ((x =? 304) || (x =? 305)))
            || ((c =? 107) && (x =? 8490))
            || ((c =? 115) && (x =? 383)))%N.

(** A word of lowercase letters under IGNORECASE. *)
Fixpoint iword_of (w : pystr) : regex :=
  match w with
  | [] => Empty
  | [c] => Chars (ichar c)
  | c :: t => Seq (Chars (ichar c)) (iword_of t)
  end.

Definition iword (w : string) : regex := iword_of (str w).

(** The parts of a phrase, with one or more whitespace characters between
    them. *)
Fixpoint phrase (parts : list regex) : regex :=
  match parts with
  | [] => Empty
  | [r] => r
  | r :: rest => Seq r (Seq (plus py_isspace) (phrase rest))
  end.

Definition filler_patterns : list regex :=
  [ phrase [iword "subscribe"; iword "to"; iword "my"; iword "channel"];
    phrase [iword "like"; iword "and"; iword "subscribe"];
    phrase [iword "hit"; iword "the"; iword "notification"; iword "bell"];
    phrase [iword "follow"; iword "me"; iword "on";
            Alt (iword "instagram")
              (Alt (iword "twitter") (Alt (iword "facebook") (iword "tiktok")))];
    phrase [iword "check"; iword "out"; iword "my";
            Alt (iword "website") (phrase [iword "link"; iword "in"; iword "bio"])];
    phrase [iword "use"; iword "code"; plus re_word; iword "for";
            Seq (plus re_digit) (Opt (chr 37)); iword "off"];
    phrase [iword "sponsored"; iword "by"];
    phrase [iword "this"; iword "video"; iword "is"; iword "brought";
            iword "to"; iword "you"; iword "by"] ].

Definition clean_transcript (raw : pystr) : pystr :=
  let text := raw in
  let text := re_sub bracketed [32%N] text in
  let text := re_sub speaker_label [] text in
  let text := re_sub timestamp [32%N] text in
  let text := fold_left (fun text pattern => re_sub pattern [32%N] text)
                filler_patterns text in
  py_strip (re_sub (plus py_isspace) [32%N] text).

End Re.


(** *** Vocabulary of the cleaner's properties *)

(** [derived s out]: [out] is [s] with characters deleted and plain spaces
    inserted, the order of what is kept unchanged. *)
Inductive derived : pystr -> pystr -> Prop :=
| derived_nil : derived [] []
| derived_keep c s out : derived s out -> derived (c :: s) (c :: out)
| derived_drop c s out : derived s out -> derived (c :: s) out
| derived_space s out : derived s out -> derived s (32%N :: out).

(** Whitespace is normalised: none at either end, no whitespace character
    other than the plain space, no two spaces in a row. *)
Definition single_spaced (s : pystr) : Prop :=
  stripped s
  /\ (forall c, In c s -> py_isspace c = true -> c = 32%N)
  /\ ~ contains s [32%N; 32%N].

(** No opening bracket is followed, anywhere later, by a closing one. *)
Definition no_bracket_pair (s : pystr) : Prop :=
  forall a b, s = a ++ 91%N :: b -> ~ In 93%N b.

(** The least number of characters a match of the pattern consumes. *)
Fixpoint min_len (r : regex) : nat :=
  match r with
  | Chars _ => 1
  | Seq r1 r2 => min_len r1 + min_len r2
  | Alt r1 r2 => Nat.min (min_len r1) (min_len r2)
  | Empty | Opt _ | Star _ | LazyStar _ | Upto _ _ | LineStart | WordBoundary => 0
  end.

(** A continuation that consumes at least [m0] characters and no more
    than the text holds. *)
Definition bounded (k : re_cont) (m0 : nat) : Prop :=
  forall prev s n x, k prev s n = Some x -> (n + m0 <= x <= n + length s)%nat.

(** The Unicode tables cut down to ASCII, for the examples. *)
Definition ascii_digit (c : N) : bool := in_range 48 57 c.

Definition ascii_word (c : N) : bool :=
  ascii_letter c || in_range 48 57 c || (c =? 95)%N.

(** The length of the run of whitespace a text starts with. *)
Fixpoint space_run (s : pystr) : nat :=
  match s with
  | c :: t => if py_isspace c then S (space_run t) else 0
  | [] => 0
  end.

(** ** qdrant_db.py: the vector store

    The embedder, the identifier generator and the Qdrant server lie
    outside the program.  An environment gives their answers from the calls
    made so far; the state the functions thread is that list of calls.
    [get_client] and [get_embedder] hand out the process-wide objects;
    building them is not modelled. *)

(** [lst[start:stop]] for any two integers: negative bounds count from the
    end, and bounds are clamped to the list. *)
Definition slice_bound (len x : Z) : Z :=
  if (x <? 0)%Z then Z.max 0 (len + x) else Z.min x len.

Definition py_slice {A} (l : list A) (start stop : Z) : list A :=
  let len := Z.of_nat (length l) in
  let lo := Z.to_nat (slice_bound len start) in
  let hi := Z.to_nat (slice_bound len stop) in
  firstn (hi - lo) (skipn lo l).

(** [list(range(start, stop, step))]; a zero step is a [ValueError]. *)
Definition py_range (start stop step : Z) : result (list Z) :=
  if (step =? 0)%Z then Raise ValueError
  else
    let count :=
      (if 0 <? step then (stop - start + step - 1) / step
       else (start - stop - step - 1) / (- step))%Z in
    Ok (map (fun k => (start + Z.of_nat k * step)%Z) (seq 0 (Z.to_nat count))).

Module qdrant_db.

(** The node's own [embed_text] method, which the module's function of the
    same name would hide. *)
#[local] Abbreviation node_embed_text := embed_text.

Section VectorStore.

(** A vector: the list of floats the embedder returns. *)
Variable vector : Type.

Record PointStruct := mkPointStruct {
  point_id : pystr;
  point_vector : vector;
  point_payload : json
}.

Record ScoredPoint := mkScoredPoint {
  hit_payload : option pydict;
  hit_score : float_lit
}.

Inductive call : Type :=
| CallEmbed (text : pystr)
| CallUuid4
| CallGetCollections
| CallCreateCollection (collection_name : pystr) (vector_size : Z)
| CallUpsert (collection_name : pystr) (points : list PointStruct)
| CallSearch (collection_name : pystr) (query_vector : vector) (limit : Z)
             (score_threshold : option float_lit).

(** The answers of the outside world, given the calls made before. *)
Record environment := mkEnvironment {
  embed_reply : list call -> pystr -> result vector;
  uuid4_reply : list call -> pystr;
  get_collections_reply : list call -> result (list pystr);
  create_collection_reply : list call -> pystr -> Z -> result unit;
  upsert_reply : list call -> pystr -> list PointStruct -> result unit;
  search_reply : list call -> pystr -> vector -> Z -> option float_lit
                 -> result (list ScoredPoint)
}.

(** A computation that makes calls and may raise. *)
Definition io (A : Type) : Type := list call -> result A * list call.

Definition io_ret {A} (a : A) : io A := fun log => (Ok a, log).

Definition io_lift {A} (r : result A) : io A := fun log => (r, log).

Definition io_bind {A B} (m : io A) (k : A -> io B) : io B :=
  fun log =>
    match m log with
    | (Ok a, log') => k a log'
    | (Raise e, log') => (Raise e, log')
    end.

Notation "x <~ m ;; k" := (io_bind m (fun x => k))
  (at level 61, m at next level, right associativity).

Variable env : environment.

(** [embed_text]: one call of the embedder on the text. *)
Definition embed_text (text : pystr) : io vector :=
  fun log => (embed_reply env log text, log ++ [CallEmbed text]).

Definition uuid4 : io pystr :=
  fun log => (Ok (uuid4_reply env log), log ++ [CallUuid4]).

Definition get_collections : io (list pystr) :=
  fun log => (get_collections_reply env log, log ++ [CallGetCollections]).

Definition create_collection (collection_name : pystr) (vector_size : Z) : io unit :=
  fun log => (create_collection_reply env log collection_name vector_size,
              log ++ [CallCreateCollection collection_name vector_size]).

Definition client_upsert (collection_name : pystr) (points : list PointStruct)
  : io unit :=
  fun log => (upsert_reply env log collection_name points,
              log ++ [CallUpsert collection_name points]).

Definition client_search (collection_name : pystr) (query_vector : vector)
    (limit : Z) (score_threshold : option float_lit) : io (list ScoredPoint) :=
  fun log => (search_reply env log collection_name query_vector limit score_threshold,
              log ++ [CallSearch collection_name query_vector limit score_threshold]).

Definition VECTOR_SIZE : Z := 384.

Definition ensure_collection (collection_name : pystr) (vector_size : Z) : io unit :=
  existing <~ get_collections ;;
  if existsb (pystr_eqb collection_name) existing
  then io_ret tt
  else create_collection collection_name vector_size.

(** The first loop of [upsert_nodes]: one embedding and one fresh
    identifier per node, in the order of the nodes. *)
Fixpoint build_points (nodes : list EnergyNode) : io (list PointStruct) :=
  match nodes with
  | [] => io_ret []
  | node :: rest =>
      vector <~ embed_text (node_embed_text node) ;;
      let payload := to_payload node in
      id <~ uuid4 ;;
      points <~ build_points rest ;;
      io_ret (mkPointStruct id vector payload :: points)
  end.

(** The second loop of [upsert_nodes], over the indices of the range. *)
Fixpoint upsert_batches (collection_name : pystr) (batch_size : Z)
    (points : list PointStruct) (indices : list Z) (total_upserted : Z) : io Z :=
  match indices with
  | [] => io_ret total_upserted
  | i :: rest =>
      let batch := py_slice points i (i + batch_size) in
      _ <~ client_upsert collection_name batch ;;
      upsert_batches collection_name batch_size points rest
        (total_upserted + Z.of_nat (length batch))
  end.

Definition upsert_nodes (nodes : list EnergyNode) (collection_name : pystr)
    (batch_size : Z) : io Z :=
  match nodes with
  | [] => io_ret 0%Z
  | _ :: _ =>
      _ <~ ensure_collection collection_name VECTOR_SIZE ;;
      points <~ build_points nodes ;;
      indices <~ io_lift (py_range 0 (Z.of_nat (length points)) batch_size) ;;
      upsert_batches collection_name batch_size points indices 0
  end.

(** Python's comparison of a float with zero is left to the caller of the
    model: [is_positive] decides [score_threshold > 0]. *)
Variable is_positive : float_lit -> bool.

(** The record built for one hit: the hit's payload, or a new dict when
    the payload is [None] or empty, with the score stored under [_score]. *)
Definition record_of_hit (hit : ScoredPoint) : pydict :=
  let record := match hit_payload hit with
                | Some (kv :: d) => kv :: d
                | Some [] | None => []
                end in
  dict_set record (str "_score") (JFloat (hit_score hit)).

Definition search_nodes (query : pystr) (k : Z) (collection_name : pystr)
    (score_threshold : float_lit) : io (list pydict) :=
  query_vector <~ embed_text query ;;
  results <~ client_search collection_name query_vector k
               (if is_positive score_threshold then Some score_threshold else None) ;;
  io_ret (map record_of_hit results).

End VectorStore.
End qdrant_db.

(** The calls of a log that upsert points, as the batches they carry. *)
Definition upserted_batches {vector} (log : list (qdrant_db.call vector))
  : list (list (qdrant_db.PointStruct vector)) :=
  flat_map (fun c => match c with
                     | qdrant_db.CallUpsert _ points => [points]
                     | _ => []
                     end) log.

(** An environment in which no call raises. *)
Definition reliable {vector} (env : qdrant_db.environment vector) : Prop :=
  (forall log text, exists v, qdrant_db.embed_reply env log text = Ok v)
  /\ (forall log, exists names, qdrant_db.get_collections_reply env log = Ok names)
  /\ (forall log name size, qdrant_db.create_collection_reply env log name size = Ok tt)
  /\ (forall log name points, qdrant_db.upsert_reply env log name points = Ok tt).

(** What a search record owes to its hit: the hit's score under [_score],
    and under every other key what the hit's payload holds there. *)
Definition carries_hit (hit : qdrant_db.ScoredPoint) (record : pydict) : Prop :=
  dict_get record (str "_score") = Some (JFloat (qdrant_db.hit_score hit))
  /\ forall key, key <> str "_score" ->
       dict_get record key
       = match qdrant_db.hit_payload hit with
         | Some payload => dict_get payload key
         | None => None
         end.

(** ** main.py: the query endpoint *)

Record QueryRequest := mkQueryRequest {
  request_query : pystr;
  request_k : Z;
  request_score_threshold : float_lit
}.

(** What the endpoint answers: the response model, or an [HTTPException]
    with its status code. *)
Inductive http_result : Type :=
| QueryResponse (results : list pydict) (count : Z)
| HTTPException (status_code : Z).

(** [QDRANT_COLLECTION] is the collection name the process read from its
    configuration. *)
Definition query {vector} (env : qdrant_db.environment vector)
    (is_positive : float_lit -> bool) (QDRANT_COLLECTION : pystr)
    (request : QueryRequest) (log : list (qdrant_db.call vector))
  : http_result * list (qdrant_db.call vector) :=
  match py_strip (request_query request) with
  | [] => (HTTPException 400, log)
  | _ :: _ =>
      match qdrant_db.search_nodes env is_positive (request_query request)
              (request_k request) QDRANT_COLLECTION
              (request_score_threshold request) log with
      | (Ok results, log') =>
          (QueryResponse results (Z.of_nat (length results)), log')
      | (Raise exc, log') => (HTTPException 503, log')
      end
  end.

(** An environment for the examples: every call succeeds, the store knows
    no collection and finds no hit; vectors are left empty. *)
Definition quiet_environment : qdrant_db.environment unit :=
  qdrant_db.mkEnvironment
    (fun _ _ => Ok tt)
    (fun log => str "point-" ++ repeat 49%N (length log))
    (fun _ => Ok [])
    (fun _ _ _ => Ok tt)
    (fun _ _ _ => Ok tt)
    (fun _ _ _ _ _ => Ok []).

(* ===================================================================== *)
(** * Part II: properties                                                  *)
(* ===================================================================== *)

(** ** Strings *)

Lemma py_len_nonneg s : (0 <= py_len s)%Z.
Proof. unfold py_len. lia. Qed.

Lemma py_slice_to_length s stop :
  (0 <= stop)%Z -> length (py_slice_to s stop) = Nat.min (Z.to_nat stop) (length s).
Proof.
  intros H. unfold py_slice_to.
  destruct (Z.ltb_spec stop 0); [lia|]. apply length_firstn.
Qed.

Lemma py_lstrip_length s : (length (py_lstrip s) <= length s)%nat.
Proof.
  induction s as [|c r IH]; simpl; [lia|].
  destruct (py_isspace c); simpl; lia.
Qed.

Lemma py_strip_length s : (length (py_strip s) <= length s)%nat.
Proof.
  unfold py_strip, py_rstrip.
  etransitivity; [apply py_lstrip_length|].
  rewrite length_rev.
  etransitivity; [apply py_lstrip_length|].
  rewrite length_rev. lia.
Qed.

Lemma py_lstrip_suffix s : exists pre, s = pre ++ py_lstrip s.
Proof.
  induction s as [|c r [pre IH]]; simpl.
  - exists []. reflexivity.
  - destruct (py_isspace c).
    + exists (c :: pre). simpl. now rewrite <- IH.
    + exists []. reflexivity.
Qed.

Lemma py_lstrip_keeps_last s c :
  py_isspace c = false -> ends_with (py_lstrip (s ++ [c])) c.
Proof.
  intros Hc. induction s as [|x r IH]; simpl.
  - rewrite Hc. exists []. reflexivity.
  - destruct (py_isspace x); [exact IH|].
    exists (x :: r). reflexivity.
Qed.

Lemma py_strip_keeps_last s c :
  py_isspace c = false -> ends_with (py_strip (s ++ [c])) c.
Proof.
  intros Hc. unfold py_strip, py_rstrip.
  rewrite rev_app_distr. simpl. rewrite Hc.
  simpl. rewrite rev_involutive.
  now apply py_lstrip_keeps_last.
Qed.

Lemma ends_with_last s c d : ends_with s c -> last s d = c.
Proof. intros [pre ->]. apply last_last. Qed.

Lemma firstn_snoc (l : pystr) n x :
  nth_error l n = Some x -> firstn (S n) l = firstn n l ++ [x].
Proof.
  revert l. induction n as [|n IH]; intros [|y l] H; simpl in *; try discriminate.
  - now inversion H.
  - f_equal. now apply IH.
Qed.

Lemma nth_error_firstn_lt (l : pystr) n k :
  (k < n)%nat -> nth_error (firstn n l) k = nth_error l k.
Proof.
  revert l k. induction n as [|n IH]; intros l k H; [lia|].
  destruct l as [|y l]; [reflexivity|].
  destruct k as [|k]; [reflexivity|]. simpl. apply IH. lia.
Qed.

(** What [rfind] returns: [-1], or an index inside the string. *)
Lemma rfind_from_range i c s :
  (0 <= i)%Z ->
  rfind_from i c s = (-1)%Z \/
  (i <= rfind_from i c s < i + py_len s)%Z.
Proof.
  revert i. induction s as [|x r IH]; intros i Hi; simpl; [now left|].
  specialize (IH (i + 1)%Z ltac:(lia)).
  unfold py_len in *. simpl length. rewrite Nat2Z.inj_succ.
  destruct (Z.leb_spec 0 (rfind_from (i + 1) c r)).
  - right. lia.
  - destruct (N.eqb x c); [right; lia | now left].
Qed.

(** The index returned holds the needle. *)
Lemma rfind_from_hit i c s :
  (0 <= i)%Z -> (0 <= rfind_from i c s)%Z ->
  nth_error s (Z.to_nat (rfind_from i c s - i)) = Some c.
Proof.
  revert i. induction s as [|x r IH]; intros i Hi; simpl; [lia|].
  destruct (Z.leb_spec 0 (rfind_from (i + 1) c r)) as [Hj|Hj].
  - intros _. pose proof (rfind_from_range c r (i := i + 1) ltac:(lia)) as [E|E]; [lia|].
    replace (Z.to_nat (rfind_from (i + 1) c r - i))
      with (S (Z.to_nat (rfind_from (i + 1) c r - (i + 1)))) by lia.
    simpl. apply IH; lia.
  - destruct (N.eqb_spec x c) as [->|]; [|lia].
    intros _. now rewrite Z.sub_diag.
Qed.

(** No occurrence of the needle lies to the right of the index returned. *)
Lemma rfind_from_last i c s k :
  (0 <= i)%Z -> nth_error s k = Some c ->
  (i + Z.of_nat k <= rfind_from i c s)%Z.
Proof.
  revert i k. induction s as [|x r IH]; intros i k Hi H; [now destruct k|].
  simpl. destruct k as [|k]; simpl in H.
  - inversion H; subst x. rewrite N.eqb_refl.
    pose proof (rfind_from_range c r (i := i + 1) ltac:(lia)).
    destruct (Z.leb_spec 0 (rfind_from (i + 1) c r)); lia.
  - specialize (IH (i + 1)%Z k ltac:(lia) H).
    destruct (Z.leb_spec 0 (rfind_from (i + 1) c r)); lia.
Qed.

(** ** TranscriptCleaner: truncation *)

(** C7. For every text and every [max_chars] with [len(text) <= max_chars],
    [truncate_transcript] returns the text unchanged. *)
Theorem truncate_transcript_identity text max_chars :
  (py_len text <= max_chars)%Z ->
  truncate_transcript text max_chars = text.
Proof.
  intros H. unfold truncate_transcript.
  now apply Z.leb_le in H; rewrite H.
Qed.

Lemma truncate_transcript_identity_witness :
  (py_len (str "Rest is not a reward.") <= 12000)%Z /\
  truncate_transcript (str "Rest is not a reward.") 12000
  = str "Rest is not a reward.".
Proof.
  assert (H : (py_len (str "Rest is not a reward.") <= 12000)%Z)
    by (vm_compute; discriminate).
  split; [exact H | exact (truncate_transcript_identity _ H)].
Defined.

(** C8 as the specification words it fails: a period sitting exactly at
    80% of the window (index 8 of a 10-character window) is at or after
    80%, yet the code requires the index to be strictly greater, keeps
    the hard cut, and the result ends with [b]. *)
Lemma truncate_period_at_four_fifths_kept_hard_cut :
  let text := str "aaaaaaaa.bcd" in
  (py_len text > 10)%Z /\
  nth_error text 8 = Some dot /\
  (4 * 10 <= 5 * 8)%Z /\
  truncate_transcript text 10 = str "aaaaaaaa.b" /\
  ~ ends_with (truncate_transcript text 10) dot.
Proof.
  cbv zeta. repeat split; try reflexivity; try (vm_compute; congruence).
  intros H. apply (ends_with_last 0%N) in H. vm_compute in H. discriminate.
Qed.

(** C8 (amended). For every text longer than [max_chars] in which a period
    occurs inside the first [max_chars] characters at an index strictly
    greater than 80% of [max_chars], the string returned by
    [truncate_transcript] ends with a period. *)
Theorem truncate_transcript_ends_with_period text max_chars p :
  (py_len text > max_chars)%Z ->
  (p < Z.to_nat max_chars)%nat ->
  nth_error text p = Some dot ->
  (4 * max_chars < 5 * Z.of_nat p)%Z ->
  ends_with (truncate_transcript text max_chars) dot.
Proof.
  intros Hlen Hp Hdot H80. unfold truncate_transcript.
  destruct (Z.leb_spec (py_len text) max_chars); [lia|].
  assert (Hmax : (0 <= max_chars)%Z) by lia.
  set (truncated := py_slice_to text max_chars).
  assert (Htr : truncated = firstn (Z.to_nat max_chars) text).
  { unfold truncated, py_slice_to. destruct (Z.ltb_spec max_chars 0); [lia|reflexivity]. }
  assert (Hin : nth_error truncated p = Some dot)
    by (rewrite Htr, nth_error_firstn_lt; assumption).
  pose proof (@rfind_from_last 0 dot truncated p ltac:(lia) Hin) as Hge.
  fold (py_rfind truncated dot) in Hge.
  set (last_period := py_rfind truncated dot) in *.
  assert (Hpast : past_four_fifths last_period max_chars = true)
    by (unfold past_four_fifths; apply Z.ltb_lt; lia).
  rewrite Hpast.
  assert (Hhit : nth_error truncated (Z.to_nat last_period) = Some dot).
  { pose proof (@rfind_from_hit 0 dot truncated ltac:(lia)) as Hh.
    fold (py_rfind truncated dot) in Hh. fold last_period in Hh.
    rewrite Z.sub_0_r in Hh. apply Hh. lia. }
  unfold py_slice_to at 1.
  destruct (Z.ltb_spec (last_period + 1) 0); [lia|].
  replace (Z.to_nat (last_period + 1)) with (S (Z.to_nat last_period)) by lia.
  rewrite (firstn_snoc _ _ Hhit).
  now apply py_strip_keeps_last.
Qed.

Lemma truncate_transcript_ends_with_period_witness :
  ends_with (truncate_transcript (str "aaaaaaaaa. bcd") 11) dot.
Proof.
  apply (@truncate_transcript_ends_with_period (str "aaaaaaaaa. bcd") 11 9).
  - vm_compute. reflexivity.
  - vm_compute. lia.
  - reflexivity.
  - lia.
Defined.

(** C10. For every text and every [max_chars >= 0], the string returned by
    [truncate_transcript] is no longer than [max_chars] and no longer than
    the text, on the early return, the hard cut, the sentence-boundary cut
    and after the final strip alike. *)
Theorem truncate_transcript_within_budget text max_chars :
  (0 <= max_chars)%Z ->
  (py_len (truncate_transcript text max_chars) <= max_chars)%Z /\
  (py_len (truncate_transcript text max_chars) <= py_len text)%Z.
Proof.
  intros Hmax. unfold truncate_transcript.
  destruct (Z.leb_spec (py_len text) max_chars) as [Hle|Hgt]; [lia|].
  set (truncated := py_slice_to text max_chars).
  assert (Hcut : length truncated = Z.to_nat max_chars).
  { unfold truncated. rewrite py_slice_to_length by assumption.
    unfold py_len in Hgt. lia. }
  assert (Hres : forall t, (length t <= length truncated)%nat ->
                           (py_len (py_strip t) <= max_chars)%Z).
  { intros t Ht. pose proof (py_strip_length t). unfold py_len. lia. }
  assert (Hfin : (py_len (py_strip
             (if past_four_fifths (py_rfind truncated dot) max_chars
              then py_slice_to truncated (py_rfind truncated dot + 1)
              else truncated)) <= max_chars)%Z).
  { apply Hres. destruct (past_four_fifths _ _); [|lia].
    unfold py_slice_to.
    destruct (Z.ltb_spec (py_rfind truncated dot + 1) 0);
      rewrite length_firstn; lia. }
  split; [exact Hfin | lia].
Qed.

Lemma truncate_transcript_within_budget_witness :
  (py_len (truncate_transcript (str "One. Two. Three. Four.") 12) <= 12)%Z /\
  (py_len (truncate_transcript (str "One. Two. Three. Four.") 12)
   <= py_len (str "One. Two. Three. Four."))%Z.
Proof.
  apply (@truncate_transcript_within_budget (str "One. Two. Three. Four.") 12).
  lia.
Defined.

(** ** RecordSchema: the embedding-input string *)

(** C9. For every record, [embed_text] is the concatenation, with single
    spaces, of [main_question], [category] and the four diagnostic fields,
    and so contains [main_question], [category] and
    [diagnostic_layer.energy_node] verbatim. *)
Theorem embed_text_contains_fields (node : EnergyNode) :
  embed_text node
  = main_question node ++ str " " ++ category node ++ str " "
    ++ related_inner_issues (diagnostic_layer node) ++ str " "
    ++ reality_commitment_check (diagnostic_layer node) ++ str " "
    ++ hidden_benefit (diagnostic_layer node) ++ str " "
    ++ energy_node (diagnostic_layer node)
  /\ contains (embed_text node) (main_question node)
  /\ contains (embed_text node) (category node)
  /\ contains (embed_text node) (related_inner_issues (diagnostic_layer node))
  /\ contains (embed_text node) (reality_commitment_check (diagnostic_layer node))
  /\ contains (embed_text node) (hidden_benefit (diagnostic_layer node))
  /\ contains (embed_text node) (energy_node (diagnostic_layer node)).
Proof.
  destruct node as [vid vurl mq cat [rii rcc hb en] pil atm ovf].
  unfold embed_text, contains; cbn [main_question category diagnostic_layer
    related_inner_issues reality_commitment_check hidden_benefit energy_node].
  split; [reflexivity|].
  repeat split.
  - exists [], ([space] ++ cat ++ [space] ++ rii ++ [space] ++ rcc ++ [space]
                 ++ hb ++ [space] ++ en). reflexivity.
  - exists (mq ++ [space]), ([space] ++ rii ++ [space] ++ rcc ++ [space]
                              ++ hb ++ [space] ++ en).
    now rewrite <- !app_assoc.
  - exists (mq ++ [space] ++ cat ++ [space]),
           ([space] ++ rcc ++ [space] ++ hb ++ [space] ++ en).
    now rewrite <- !app_assoc.
  - exists (mq ++ [space] ++ cat ++ [space] ++ rii ++ [space]),
           ([space] ++ hb ++ [space] ++ en).
    now rewrite <- !app_assoc.
  - exists (mq ++ [space] ++ cat ++ [space] ++ rii ++ [space] ++ rcc ++ [space]),
           ([space] ++ en).
    now rewrite <- !app_assoc.
  - exists (mq ++ [space] ++ cat ++ [space] ++ rii ++ [space] ++ rcc ++ [space]
               ++ hb ++ [space]), [].
    now rewrite app_nil_r, <- !app_assoc.
Qed.

(** ** Characters, prefixes and digits *)

Lemma pystr_eqb_eq a b : pystr_eqb a b = true <-> a = b.
Proof.
  revert b. induction a as [|x a IH]; intros [|y b]; simpl; split;
    try congruence; try reflexivity.
  - intros H. apply andb_prop in H as [Hx Ha].
    apply N.eqb_eq in Hx. apply IH in Ha. congruence.
  - intros H. inversion H; subst. rewrite N.eqb_refl. simpl. now apply IH.
Qed.

Lemma pystr_eqb_refl a : pystr_eqb a a = true.
Proof. now apply pystr_eqb_eq. Qed.

Lemma pystr_eqb_neq a b : a <> b -> pystr_eqb a b = false.
Proof.
  intros H. destruct (pystr_eqb a b) eqn:E; [|reflexivity].
  now apply pystr_eqb_eq in E.
Qed.

Lemma strip_prefix_app p s : strip_prefix p (p ++ s) = Some s.
Proof.
  induction p as [|x p IH]; simpl; [reflexivity|].
  now rewrite N.eqb_refl.
Qed.

Lemma strip_prefix_some p s t : strip_prefix p s = Some t -> s = p ++ t.
Proof.
  revert s. induction p as [|x p IH]; intros s H; simpl in *.
  - congruence.
  - destruct s as [|y s]; [discriminate|].
    destruct (N.eqb_spec x y) as [->|]; [|discriminate].
    simpl. f_equal. now apply IH.
Qed.

Lemma is_digit_cases c :
  is_digit c = true ->
  c = 48%N \/ c = 49%N \/ c = 50%N \/ c = 51%N \/ c = 52%N \/
  c = 53%N \/ c = 54%N \/ c = 55%N \/ c = 56%N \/ c = 57%N.
Proof.
  unfold is_digit. intros H. apply andb_prop in H as [H1 H2].
  apply N.leb_le in H1, H2. lia.
Qed.

Lemma span_digits_no_digit rest :
  no_digit_head rest -> span_digits rest = (Decimal.Nil, rest).
Proof. destruct rest as [|c r]; simpl; [reflexivity|]. now intros ->. Qed.

Lemma span_digits_chars u rest :
  no_digit_head rest -> span_digits (chars_of_uint u ++ rest) = (u, rest).
Proof.
  intros H. induction u; simpl chars_of_uint;
    [now apply span_digits_no_digit | ..];
    rewrite <- app_comm_cons; simpl; rewrite IHu; reflexivity.
Qed.

Lemma value_end_no_digit rest : value_end rest -> no_digit_head rest.
Proof.
  destruct rest as [|c r]; simpl; [trivial|].
  intros [->|[->| ->]]; reflexivity.
Qed.

Lemma value_end_skip_ws rest : value_end rest -> skip_ws rest = rest.
Proof.
  destruct rest as [|c r]; simpl; [trivial|].
  intros [->|[->| ->]]; reflexivity.
Qed.

Lemma is_nil_false u : u <> Decimal.Nil -> is_nil u = false.
Proof. now destruct u. Qed.

(** ** Numbers: what is printed is read back *)

Lemma chars_of_uint_head u :
  u <> Decimal.Nil ->
  exists c t, chars_of_uint u = c :: t /\ is_digit c = true.
Proof. destruct u; [congruence | ..]; intros _; simpl; eauto. Qed.

Lemma unorm_fixed_D0 u :
  Decimal.unorm (Decimal.D0 u) = Decimal.D0 u -> u = Decimal.Nil.
Proof.
  intros H. rewrite DecimalFacts.unorm_D0 in H.
  unfold Decimal.unorm in H.
  destruct (Decimal.nzhead u) eqn:E; try (inversion H; congruence).
  exfalso. exact (DecimalFacts.nzhead_nonzero _ _ E).
Qed.

Lemma unorm_to_uint p :
  Decimal.unorm (Pos.to_uint p) = Pos.to_uint p.
Proof.
  pose proof (DecimalPos.Unsigned.to_of (Pos.to_uint p)) as H.
  rewrite DecimalPos.Unsigned.of_to in H. simpl in H. now symmetry.
Qed.

Lemma lex_int_part_chars ip rest :
  Decimal.unorm ip = ip -> no_digit_head rest ->
  lex_int_part (chars_of_uint ip ++ rest) = Some (ip, rest).
Proof.
  intros Hn Hr. destruct ip; [discriminate | | ..].
  - apply unorm_fixed_D0 in Hn. subst. reflexivity.
  - simpl. now rewrite span_digits_chars.
  - simpl. now rewrite span_digits_chars.
  - simpl. now rewrite span_digits_chars.
  - simpl. now rewrite span_digits_chars.
  - simpl. now rewrite span_digits_chars.
  - simpl. now rewrite span_digits_chars.
  - simpl. now rewrite span_digits_chars.
  - simpl. now rewrite span_digits_chars.
  - simpl. now rewrite span_digits_chars.
Qed.

Lemma lex_sign_digit c r :
  is_digit c = true -> lex_sign (c :: r) = (false, c :: r).
Proof.
  intros H. apply is_digit_cases in H.
  repeat (destruct H as [H|H]; [subst; reflexivity|]). subst. reflexivity.
Qed.

Lemma lex_frac_end rest : value_end rest -> lex_frac rest = (None, rest).
Proof.
  destruct rest as [|c r]; simpl; [trivial|].
  intros [->|[->| ->]]; reflexivity.
Qed.

Lemma lex_exp_end rest : value_end rest -> lex_exp rest = (None, rest).
Proof.
  destruct rest as [|c r]; simpl; [trivial|].
  intros [->|[->| ->]]; reflexivity.
Qed.

Lemma lex_frac_chars u rest :
  u <> Decimal.Nil -> no_digit_head rest ->
  lex_frac (46%N :: chars_of_uint u ++ rest) = (Some u, rest).
Proof.
  intros Hu Hr. unfold lex_frac. simpl N.eqb. cbv iota.
  rewrite span_digits_chars by assumption.
  now rewrite is_nil_false.
Qed.

Lemma lex_frac_exp_mark rest : lex_frac (101%N :: rest) = (None, 101%N :: rest).
Proof. reflexivity. Qed.

Lemma lex_exp_sign_digit c r :
  is_digit c = true -> lex_exp_sign (c :: r) = (false, c :: r).
Proof.
  intros H. apply is_digit_cases in H.
  repeat (destruct H as [H|H]; [subst; reflexivity|]). subst. reflexivity.
Qed.

Lemma lex_exp_chars e rest :
  e <> Decimal.Pos Decimal.Nil -> e <> Decimal.Neg Decimal.Nil ->
  no_digit_head rest ->
  lex_exp (101%N :: chars_of_int e ++ rest) = (Some e, rest).
Proof.
  intros Hp Hn Hr. unfold lex_exp. simpl orb. cbv iota.
  destruct e as [u|u]; simpl chars_of_int.
  - assert (Hu : u <> Decimal.Nil) by congruence.
    destruct (chars_of_uint_head Hu) as (c & t & Hc & Hd).
    rewrite Hc at 1. rewrite <- app_comm_cons, lex_exp_sign_digit by assumption.
    change (c :: t ++ rest) with ((c :: t) ++ rest). rewrite <- Hc.
    rewrite span_digits_chars by assumption. now rewrite is_nil_false.
  - assert (Hu : u <> Decimal.Nil) by congruence.
    rewrite <- app_comm_cons.
    change (lex_exp_sign (45%N :: chars_of_uint u ++ rest))
      with (true, chars_of_uint u ++ rest). cbv iota beta.
    rewrite span_digits_chars by assumption. now rewrite is_nil_false.
Qed.

Lemma match_number_int z rest :
  value_end rest ->
  match_number (chars_of_int (Z.to_int z) ++ rest) = Some (JInt z, rest).
Proof.
  intros Hr.
  assert (Hnd := value_end_no_digit _ Hr).
  assert (Hgen : forall (neg : bool) u,
             Decimal.unorm u = u ->
             match_number ((if neg then [45%N] else []) ++ chars_of_uint u ++ rest)
             = Some (JInt (Z.of_int (if neg then Decimal.Neg u else Decimal.Pos u)), rest)).
  { intros neg u Hu. unfold match_number.
    assert (Hs : lex_sign ((if neg then [45%N] else []) ++ chars_of_uint u ++ rest)
                 = (neg, chars_of_uint u ++ rest)).
    { destruct neg; [reflexivity|]. simpl app.
      assert (Hne : u <> Decimal.Nil)
        by (intros ->; discriminate).
      destruct (chars_of_uint_head Hne) as (c & t & Hc & Hd).
      rewrite Hc, <- app_comm_cons. now apply lex_sign_digit. }
    rewrite Hs, lex_int_part_chars by assumption.
    now rewrite lex_frac_end, lex_exp_end by assumption. }
  destruct z as [|p|p]; simpl Z.to_int; simpl chars_of_int.
  - exact (Hgen false (Decimal.D0 Decimal.Nil) eq_refl).
  - etransitivity; [exact (Hgen false _ (unorm_to_uint p))|].
    do 3 f_equal. exact (DecimalZ.of_to (Zpos p)).
  - etransitivity; [exact (Hgen true _ (unorm_to_uint p))|].
    do 3 f_equal. exact (DecimalZ.of_to (Zneg p)).
Qed.

Lemma match_number_float neg ip frac exp rest :
  float_wf (FNum neg ip frac exp) -> value_end rest ->
  match_number (float_chars (FNum neg ip frac exp) ++ rest)
  = Some (JFloat (FNum neg ip frac exp), rest).
Proof.
  intros (Hip & Hf & Hep & Hen & Hsome) Hr.
  assert (Hnd := value_end_no_digit _ Hr).
  assert (Hne : ip <> Decimal.Nil) by (intros ->; discriminate).
  unfold match_number, float_chars. rewrite <- !app_assoc.
  assert (Hs : forall tl, lex_sign ((if neg then [45%N] else []) ++ chars_of_uint ip ++ tl)
                 = (neg, chars_of_uint ip ++ tl)).
  { intros tl. destruct neg; [reflexivity|]. simpl app.
    destruct (chars_of_uint_head Hne) as (c & t & Hc & Hd).
    rewrite Hc, <- app_comm_cons. now apply lex_sign_digit. }
  rewrite Hs.
  destruct frac as [fu|], exp as [e|]; simpl app.
  - rewrite lex_int_part_chars by (assumption || reflexivity).
    rewrite lex_frac_chars by (congruence || reflexivity).
    now rewrite lex_exp_chars by (congruence || assumption).
  - rewrite lex_int_part_chars by (assumption || reflexivity).
    rewrite lex_frac_chars by (congruence || assumption).
    now rewrite lex_exp_end.
  - rewrite lex_int_part_chars by (assumption || reflexivity).
    rewrite lex_frac_exp_mark.
    now rewrite lex_exp_chars by (congruence || assumption).
  - destruct Hsome; congruence.
Qed.

(** ** Strings: what is escaped is read back *)

Lemma control_char_cases c :
  (c <? 32)%N = true ->
  In c [0; 1; 2; 3; 4; 5; 6; 7; 8; 9; 10; 11; 12; 13; 14; 15; 16; 17; 18; 19;
        20; 21; 22; 23; 24; 25; 26; 27; 28; 29; 30; 31]%N.
Proof.
  intros H. apply N.ltb_lt in H.
  assert (E : c = N.of_nat (N.to_nat c)) by now rewrite N2Nat.id.
  assert (L : (N.to_nat c < 32)%nat) by lia.
  rewrite E. clear E H. revert L. generalize (N.to_nat c). intros n L.
  do 32 (destruct n as [|n]; [simpl; tauto|]). lia.
Qed.

Lemma scanstring_escape c rest :
  scanstring (escape_char c ++ rest) = push c (scanstring rest).
Proof.
  unfold escape_char.
  destruct (N.eqb_spec c 34) as [->|H34]; [reflexivity|].
  destruct (N.eqb_spec c 92) as [->|H92]; [reflexivity|].
  destruct (N.eqb_spec c 10) as [->|H10]; [reflexivity|].
  destruct (N.eqb_spec c 13) as [->|H13]; [reflexivity|].
  destruct (N.eqb_spec c 9) as [->|H9]; [reflexivity|].
  destruct (N.eqb_spec c 8) as [->|H8]; [reflexivity|].
  destruct (N.eqb_spec c 12) as [->|H12]; [reflexivity|].
  destruct (c <? 32)%N eqn:Hctl.
  - apply control_char_cases in Hctl. simpl in Hctl.
    repeat (destruct Hctl as [<-|Hctl]; [reflexivity || congruence|]).
    contradiction.
  - simpl app. cbn [scanstring].
    apply N.eqb_neq in H34, H92. rewrite H34, H92.
    apply N.ltb_ge in Hctl.
    assert (Hle : (c <=? 31)%N = false) by (apply N.leb_gt; lia).
    now rewrite Hle.
Qed.

Lemma scanstring_body s rest :
  scanstring (flat_map escape_char s ++ 34%N :: rest) = Some (s, rest).
Proof.
  induction s as [|c s IH]; simpl flat_map.
  - reflexivity.
  - rewrite <- app_assoc, scanstring_escape, IH. reflexivity.
Qed.

#[local] Arguments encode_basestring : simpl never.

Lemma encode_basestring_app s rest :
  encode_basestring s ++ rest = 34%N :: flat_map escape_char s ++ 34%N :: rest.
Proof.
  unfold encode_basestring. simpl. now rewrite <- app_assoc.
Qed.

(** ** Dicts *)

Lemma dict_set_fresh d k v :
  ~ In k (map fst d) -> dict_set d k v = d ++ [(k, v)].
Proof.
  induction d as [|[k' v'] d IH]; simpl; intros H; [reflexivity|].
  rewrite pystr_eqb_neq by (intros ->; tauto).
  f_equal. apply IH. tauto.
Qed.

Lemma dict_set_keys_present d k v :
  In k (map fst d) -> map fst (dict_set d k v) = map fst d.
Proof.
  induction d as [|[k' v'] d IH]; simpl; intros H; [contradiction|].
  destruct (pystr_eqb k k') eqn:E; [reflexivity|].
  simpl. f_equal. apply IH. destruct H as [->|H]; [|assumption].
  now rewrite pystr_eqb_refl in E.
Qed.

Lemma dict_set_NoDup d k v :
  NoDup (map fst d) -> NoDup (map fst (dict_set d k v)).
Proof.
  intros H.
  destruct (in_dec (list_eq_dec N.eq_dec) k (map fst d)) as [Hin|Hout].
  - now rewrite dict_set_keys_present.
  - rewrite dict_set_fresh, map_app by assumption. simpl.
    apply NoDup_app; [assumption | repeat constructor; auto | ].
    intros x Hx [<-|[]]. contradiction.
Qed.

Lemma dict_set_Forall (P : json -> Prop) d k v :
  Forall (fun kv => P (snd kv)) d -> P v ->
  Forall (fun kv => P (snd kv)) (dict_set d k v).
Proof.
  induction d as [|[k' v'] d IH]; simpl; intros H Hv.
  - repeat constructor. assumption.
  - inversion H; subst. destruct (pystr_eqb k k'); constructor; auto.
Qed.

Lemma dict_of_pairs_invariant (P : json -> Prop) pairs :
  Forall (fun kv => P (snd kv)) pairs ->
  NoDup (map fst (dict_of_pairs pairs))
  /\ Forall (fun kv => P (snd kv)) (dict_of_pairs pairs).
Proof.
  unfold dict_of_pairs.
  assert (G : forall acc,
             NoDup (map fst acc) -> Forall (fun kv => P (snd kv)) acc ->
             Forall (fun kv => P (snd kv)) pairs ->
             NoDup (map fst (fold_left (fun d kv => dict_set d (fst kv) (snd kv)) pairs acc))
             /\ Forall (fun kv => P (snd kv))
                  (fold_left (fun d kv => dict_set d (fst kv) (snd kv)) pairs acc)).
  { induction pairs as [|[k v] pairs IH]; intros acc Hn Ha Hp; simpl.
    - now split.
    - inversion Hp; subst. apply IH; [| |assumption].
      + now apply dict_set_NoDup.
      + now apply dict_set_Forall. }
  intros H. apply G; [constructor | constructor | assumption].
Qed.

Lemma dict_of_pairs_distinct pairs :
  NoDup (map fst pairs) -> dict_of_pairs pairs = pairs.
Proof.
  unfold dict_of_pairs.
  assert (G : forall acc,
             NoDup (map fst (acc ++ pairs)) ->
             fold_left (fun d kv => dict_set d (fst kv) (snd kv)) pairs acc
             = acc ++ pairs).
  { induction pairs as [|[k v] pairs IH]; intros acc H; simpl.
    - now rewrite app_nil_r.
    - rewrite dict_set_fresh.
      + rewrite IH; rewrite <- app_assoc; [reflexivity | exact H].
      + rewrite map_app in H. simpl in H.
        apply NoDup_remove_2 in H. intros Hin. apply H.
        apply in_or_app. now left. }
  intros H. now apply (G []).
Qed.

(** ** Values: where a serialized value starts *)

Lemma digit_value_start c : is_digit c = true -> value_start c.
Proof.
  intros H. apply is_digit_cases in H. unfold value_start.
  repeat (destruct H as [H|H]; [subst; repeat split; discriminate|]).
  subst; repeat split; discriminate.
Qed.

Lemma number_start_value_start c r : number_start (c :: r) -> value_start c.
Proof.
  intros [H|[-> _]]; [now apply digit_value_start|].
  repeat split; discriminate.
Qed.

Lemma number_start_signed (neg : bool) u rest :
  u <> Decimal.Nil ->
  number_start ((if neg then [45%N] else []) ++ chars_of_uint u ++ rest).
Proof.
  intros Hu. destruct (chars_of_uint_head Hu) as (c & t & Hc & Hd).
  rewrite Hc. destruct neg; simpl; auto.
Qed.

Lemma number_start_int z rest : number_start (chars_of_int (Z.to_int z) ++ rest).
Proof.
  destruct z as [|p|p]; simpl Z.to_int; simpl chars_of_int.
  - left. reflexivity.
  - apply (number_start_signed false). apply DecimalPos.Unsigned.to_uint_nonnil.
  - apply (number_start_signed true). apply DecimalPos.Unsigned.to_uint_nonnil.
Qed.

Lemma number_start_float neg ip frac exp rest :
  float_wf (FNum neg ip frac exp) ->
  number_start (float_chars (FNum neg ip frac exp) ++ rest).
Proof.
  intros (Hip & _). unfold float_chars. rewrite <- !app_assoc.
  apply number_start_signed. intros ->. discriminate.
Qed.

Lemma scan_once_number fuel s :
  number_start s -> scan_once (S fuel) s = match_number s.
Proof.
  destruct s as [|c r]; [contradiction|].
  intros [H|[-> H]].
  - apply is_digit_cases in H.
    repeat (destruct H as [H|H]; [subst; reflexivity|]). subst; reflexivity.
  - destruct r as [|d r]; [contradiction|].
    apply is_digit_cases in H.
    repeat (destruct H as [H|H]; [subst; reflexivity|]). subst; reflexivity.
Qed.

Lemma json_dumps_head v :
  wf v -> exists c t, json_dumps v = c :: t /\ value_start c.
Proof.
  intros H. destruct H as [ |b|z|f Hf|s|items _|members _ _].
  - do 2 eexists. split; [reflexivity | repeat split; discriminate].
  - destruct b; do 2 eexists; (split; [reflexivity | repeat split; discriminate]).
  - pose proof (number_start_int z []) as Hs. rewrite app_nil_r in Hs.
    simpl json_dumps. destruct (chars_of_int (Z.to_int z)) as [|c t]; [contradiction|].
    exists c, t. split; [reflexivity | now apply number_start_value_start with t].
  - destruct f as [neg ip frac exp| | |];
      try (do 2 eexists; split; [reflexivity | repeat split; discriminate]).
    pose proof (number_start_float [] Hf) as Hs. rewrite app_nil_r in Hs.
    change (json_dumps (JFloat (FNum neg ip frac exp)))
      with (float_chars (FNum neg ip frac exp)).
    destruct (float_chars (FNum neg ip frac exp)) as [|c t]; [contradiction|].
    exists c, t. split; [reflexivity | now apply number_start_value_start with t].
  - do 2 eexists. split; [reflexivity | repeat split; discriminate].
  - do 2 eexists. split; [reflexivity | repeat split; discriminate].
  - do 2 eexists. split; [reflexivity | repeat split; discriminate].
Qed.

Lemma skip_ws_value_start c t : value_start c -> skip_ws (c :: t) = c :: t.
Proof. intros (H & _). simpl. now rewrite H. Qed.

(** ** Values: what is serialized is read back *)

Lemma json_dumps_arr items rest :
  json_dumps (JArr items) ++ rest
  = 91%N :: join_comma (map json_dumps items) ++ 93%N :: rest.
Proof. simpl. now rewrite <- app_assoc. Qed.

Lemma json_dumps_obj members rest :
  json_dumps (JObj members) ++ rest
  = 123%N :: join_comma (map member_text members) ++ 125%N :: rest.
Proof. simpl. now rewrite <- app_assoc. Qed.

Lemma join_comma_cons p q ps tl :
  join_comma (p :: q :: ps) ++ tl
  = p ++ 44%N :: 32%N :: join_comma (q :: ps) ++ tl.
Proof. cbn [join_comma]. now rewrite <- !app_assoc. Qed.

Lemma join_comma_head c t ps tl :
  join_comma ((c :: t) :: ps) ++ tl
  = c :: (match ps with [] => t | _ :: _ => t ++ 44%N :: 32%N :: join_comma ps end) ++ tl.
Proof.
  destruct ps as [|q ps]; [reflexivity|].
  rewrite join_comma_cons. simpl. now rewrite <- app_assoc.
Qed.

Lemma items_text_head v vs tl :
  wf v ->
  exists c t, join_comma (map json_dumps (v :: vs)) ++ tl = c :: t /\ value_start c.
Proof.
  intros H. destruct (json_dumps_head H) as (c & t & E & Hc).
  simpl map. rewrite E, join_comma_head. eauto.
Qed.

Lemma members_text_head kv kvs tl :
  exists t, join_comma (map member_text (kv :: kvs)) ++ tl = 34%N :: t.
Proof.
  simpl map. unfold member_text at 1, encode_basestring.
  rewrite <- app_comm_cons, join_comma_head. eauto.
Qed.

Lemma scan_once_string fuel s rest :
  scan_once (S fuel) (encode_basestring s ++ rest) = Some (JStr s, rest).
Proof.
  rewrite encode_basestring_app. cbn [scan_once]. simpl N.eqb. cbv iota.
  now rewrite scanstring_body.
Qed.

Lemma scan_once_open_array fuel c t :
  value_start c ->
  scan_once (S fuel) (91%N :: c :: t)
  = match array_items fuel (c :: t) with
    | Some (items, r) => Some (JArr items, r)
    | None => None
    end.
Proof.
  intros (Hws & H93 & _). cbn [scan_once]. simpl N.eqb. cbv iota.
  cbn [skip_ws]. rewrite Hws.
  apply N.eqb_neq in H93. now rewrite H93.
Qed.

Lemma scan_once_open_object fuel c t :
  value_start c ->
  scan_once (S fuel) (123%N :: c :: t)
  = match object_members fuel (c :: t) with
    | Some (pairs, r) => Some (JObj (dict_of_pairs pairs), r)
    | None => None
    end.
Proof.
  intros (Hws & _ & H125). cbn [scan_once]. simpl N.eqb. cbv iota.
  cbn [skip_ws]. rewrite Hws.
  apply N.eqb_neq in H125. now rewrite H125.
Qed.

Lemma array_items_step fuel s :
  array_items (S fuel) s
  = match scan_once fuel s with
    | None => None
    | Some (v, r) =>
        match skip_ws r with
        | c :: r' =>
            if (c =? 93)%N then Some ([v], r')
            else if (c =? 44)%N then
              match array_items fuel (skip_ws r') with
              | Some (vs, r'') => Some (v :: vs, r'')
              | None => None
              end
            else None
        | [] => None
        end
    end.
Proof. reflexivity. Qed.

Lemma object_members_step fuel k tl :
  object_members (S fuel) (encode_basestring k ++ 58%N :: 32%N :: tl)
  = match scan_once fuel (skip_ws tl) with
    | None => None
    | Some (v, r3) =>
        match skip_ws r3 with
        | c3 :: r4 =>
            if (c3 =? 125)%N then Some ([(k, v)], r4)
            else if (c3 =? 44)%N then
              match object_members fuel (skip_ws r4) with
              | Some (kvs, r5) => Some ((k, v) :: kvs, r5)
              | None => None
              end
            else None
        | [] => None
        end
    end.
Proof.
  rewrite encode_basestring_app. cbn [object_members]. simpl N.eqb. cbv iota.
  rewrite scanstring_body. reflexivity.
Qed.

Lemma array_items_last fuel s v rest :
  scan_once fuel s = Some (v, 93%N :: rest) ->
  array_items (S fuel) s = Some ([v], rest).
Proof. intros H. rewrite array_items_step, H. reflexivity. Qed.

Lemma array_items_more fuel s v c t :
  scan_once fuel s = Some (v, 44%N :: 32%N :: c :: t) ->
  value_start c ->
  array_items (S fuel) s
  = match array_items fuel (c :: t) with
    | Some (vs, r) => Some (v :: vs, r)
    | None => None
    end.
Proof.
  intros H (Hws & _). rewrite array_items_step, H.
  change (skip_ws (44%N :: 32%N :: c :: t)) with (44%N :: 32%N :: c :: t).
  change ((44 =? 93)%N) with false. change ((44 =? 44)%N) with true. cbv iota.
  change (skip_ws (32%N :: c :: t)) with (skip_ws (c :: t)).
  cbn [skip_ws]. now rewrite Hws.
Qed.

Lemma object_members_last fuel k c t v rest :
  value_start c ->
  scan_once fuel (c :: t) = Some (v, 125%N :: rest) ->
  object_members (S fuel) (encode_basestring k ++ 58%N :: 32%N :: c :: t)
  = Some ([(k, v)], rest).
Proof.
  intros (Hws & _) H. rewrite object_members_step.
  cbn [skip_ws]. rewrite Hws, H. reflexivity.
Qed.

Lemma object_members_more fuel k c t v c' t' :
  value_start c ->
  scan_once fuel (c :: t) = Some (v, 44%N :: 32%N :: c' :: t') ->
  value_start c' ->
  object_members (S fuel) (encode_basestring k ++ 58%N :: 32%N :: c :: t)
  = match object_members fuel (c' :: t') with
    | Some (kvs, r) => Some ((k, v) :: kvs, r)
    | None => None
    end.
Proof.
  intros (Hws & _) H (Hws' & _). rewrite object_members_step.
  cbn [skip_ws]. rewrite Hws, H.
  change (skip_ws (44%N :: 32%N :: c' :: t')) with (44%N :: 32%N :: c' :: t').
  change ((44 =? 125)%N) with false. change ((44 =? 44)%N) with true. cbv iota.
  change (skip_ws (32%N :: c' :: t')) with (skip_ws (c' :: t')).
  cbn [skip_ws]. now rewrite Hws'.
Qed.

Lemma member_text_app k v tl :
  member_text (k, v) ++ tl
  = encode_basestring k ++ 58%N :: 32%N :: json_dumps v ++ tl.
Proof. unfold member_text. cbn [fst snd]. now rewrite <- !app_assoc. Qed.

Lemma jsize_pos v : (1 <= jsize v)%nat.
Proof. destruct v; simpl; lia. Qed.

Lemma scan_roundtrip fuel :
  (forall v rest,
      wf v -> (jsize v <= fuel)%nat -> value_end rest ->
      scan_once fuel (json_dumps v ++ rest) = Some (v, rest))
  /\ (forall v vs rest,
      Forall wf (v :: vs) -> (items_size (v :: vs) <= fuel)%nat ->
      array_items fuel (join_comma (map json_dumps (v :: vs)) ++ 93%N :: rest)
      = Some (v :: vs, rest))
  /\ (forall kv kvs rest,
      Forall (fun kv => wf (snd kv)) (kv :: kvs) ->
      (members_size (kv :: kvs) <= fuel)%nat ->
      object_members fuel (join_comma (map member_text (kv :: kvs)) ++ 125%N :: rest)
      = Some (kv :: kvs, rest)).
Proof.
  induction fuel as [|fuel (IHv & IHa & IHo)].
  { repeat split.
    - intros v rest _ H. pose proof (jsize_pos v). lia.
    - intros v vs rest _ H. unfold items_size in H. simpl in H. lia.
    - intros kv kvs rest _ H. unfold members_size in H. simpl in H. lia. }
  repeat split.
  - (* scan_once *)
    intros v rest Hwf Hsize Hend.
    destruct Hwf as [ |b|z|f Hf|s|items Hitems|members Hkeys Hmembers].
    + reflexivity.
    + destruct b; reflexivity.
    + simpl json_dumps.
      rewrite scan_once_number by apply number_start_int.
      now apply match_number_int.
    + destruct f as [neg ip frac exp| | |]; try reflexivity.
      change (json_dumps (JFloat (FNum neg ip frac exp)))
        with (float_chars (FNum neg ip frac exp)).
      rewrite scan_once_number by now apply number_start_float.
      now apply match_number_float.
    + apply scan_once_string.
    + rewrite json_dumps_arr. destruct items as [|v vs]; [reflexivity|].
      destruct (items_text_head vs (93%N :: rest) (Forall_inv Hitems))
        as (c & t & E & Hc).
      rewrite E, scan_once_open_array, <- E by assumption.
      rewrite IHa; [reflexivity | assumption |].
      simpl in Hsize. unfold items_size. simpl. lia.
    + rewrite json_dumps_obj. destruct members as [|kv kvs]; [reflexivity|].
      destruct (members_text_head kv kvs (125%N :: rest)) as (t & E).
      rewrite E, scan_once_open_object, <- E
        by (repeat split; discriminate).
      rewrite IHo; [ | assumption | ].
      * now rewrite dict_of_pairs_distinct.
      * simpl in Hsize. unfold members_size. simpl. lia.
  - (* array_items *)
    intros v vs rest Hwf Hsize.
    inversion Hwf as [|? ? Hv Hvs]; subst.
    unfold items_size in Hsize. simpl in Hsize.
    destruct vs as [|w ws].
    + simpl map. cbn [join_comma].
      apply array_items_last.
      apply IHv; [assumption | lia | simpl; auto].
    + destruct (items_text_head ws (93%N :: rest) (Forall_inv Hvs))
        as (c & t & E & Hc).
      change (map json_dumps (v :: w :: ws))
        with (json_dumps v :: json_dumps w :: map json_dumps ws).
      rewrite join_comma_cons.
      change (json_dumps w :: map json_dumps ws) with (map json_dumps (w :: ws)).
      rewrite E.
      rewrite (@array_items_more fuel _ v c t); [ | | assumption].
      * rewrite <- E. rewrite IHa; [reflexivity | assumption |].
        unfold items_size. lia.
      * apply IHv; [assumption | lia | simpl; auto].
  - (* object_members *)
    intros [k v] kvs rest Hwf Hsize.
    inversion Hwf as [|? ? Hv Hvs]; subst. simpl in Hv.
    unfold members_size in Hsize. simpl in Hsize.
    destruct (json_dumps_head Hv) as (c & t & Ev & Hc).
    destruct kvs as [|kv' kvs'].
    + simpl map. cbn [join_comma].
      rewrite member_text_app, Ev, <- app_comm_cons.
      apply object_members_last; [assumption|].
      rewrite app_comm_cons, <- Ev.
      apply IHv; [assumption | lia | simpl; auto].
    + destruct (members_text_head kv' kvs' (125%N :: rest)) as (t' & E).
      change (map member_text ((k, v) :: kv' :: kvs'))
        with (member_text (k, v) :: member_text kv' :: map member_text kvs').
      rewrite join_comma_cons.
      change (member_text kv' :: map member_text kvs')
        with (map member_text (kv' :: kvs')).
      rewrite E, member_text_app, Ev, <- app_comm_cons.
      rewrite (@object_members_more fuel k c (t ++ 44%N :: 32%N :: 34%N :: t') v 34%N t');
        [ | assumption | | repeat split; discriminate].
      * rewrite <- E. rewrite IHo; [reflexivity | assumption |].
        unfold members_size. lia.
      * rewrite app_comm_cons, <- Ev.
        apply IHv; [assumption | lia | simpl; auto].
Qed.

(** ** Induction on values, and the fuel a serialized value needs *)

Lemma json_induction (P : json -> Prop) :
  P JNull ->
  (forall b, P (JBool b)) ->
  (forall z, P (JInt z)) ->
  (forall f, P (JFloat f)) ->
  (forall s, P (JStr s)) ->
  (forall items, Forall P items -> P (JArr items)) ->
  (forall members, Forall (fun kv => P (snd kv)) members -> P (JObj members)) ->
  forall v, P v.
Proof.
  intros Hnull Hbool Hint Hfloat Hstr Harr Hobj.
  fix IH 1. intros [ |b|z|f|s|items|members];
    [exact Hnull | apply Hbool | apply Hint | apply Hfloat | apply Hstr | | ].
  - apply Harr. induction items as [|x xs IHxs]; constructor;
      [apply IH | exact IHxs].
  - apply Hobj. induction members as [|[k x] xs IHxs]; constructor;
      [apply IH | exact IHxs].
Qed.

Lemma join_comma_length (A : Type) (text : A -> pystr) (cost : A -> nat) l :
  Forall (fun x => (cost x <= length (text x))%nat) l ->
  (list_sum (map (fun x => S (cost x)) l)
   <= 1 + length (join_comma (map text l)))%nat.
Proof.
  induction l as [|x [|y l] IH]; intros H.
  - simpl. lia.
  - inversion H; subst. simpl. lia.
  - inversion H as [|? ? Hx Hl]; subst. specialize (IH Hl).
    change (map text (x :: y :: l)) with (text x :: text y :: map text l).
    change (join_comma (text x :: text y :: map text l))
      with (text x ++ [44%N; 32%N] ++ join_comma (map text (y :: l))).
    rewrite !length_app.
    change (list_sum (map (fun x0 => S (cost x0)) (x :: y :: l)))
      with (S (cost x) + list_sum (map (fun x0 => S (cost x0)) (y :: l)))%nat.
    cbn [length]. lia.
Qed.

Lemma jsize_le_length v : wf v -> (jsize v <= length (json_dumps v))%nat.
Proof.
  induction v as [ |b|z|f|s|items IH|members IH] using json_induction;
    intros Hwf.
  - simpl. lia.
  - destruct b; simpl; lia.
  - pose proof (number_start_int z []) as H. rewrite app_nil_r in H.
    simpl. destruct (chars_of_int (Z.to_int z)); [contradiction | simpl; lia].
  - change (jsize (JFloat f)) with 1%nat.
    destruct (json_dumps_head Hwf) as (c & t & -> & _). simpl. lia.
  - simpl. unfold encode_basestring. simpl. lia.
  - inversion Hwf as [ | | | | |? Hitems| ]; subst.
    assert (Hall : Forall (fun x => (jsize x <= length (json_dumps x))%nat) items).
    { rewrite Forall_forall in *. auto. }
    pose proof (join_comma_length json_dumps jsize Hall) as H.
    cbn [jsize json_dumps]. rewrite !length_app. simpl length. lia.
  - inversion Hwf as [ | | | | | |? _ Hmembers]; subst.
    assert (Hall : Forall (fun kv => (jsize (snd kv) <= length (member_text kv))%nat)
                     members).
    { rewrite Forall_forall in *. intros kv Hin.
      specialize (IH kv Hin (Hmembers kv Hin)).
      unfold member_text. rewrite !length_app. lia. }
    pose proof (join_comma_length member_text (fun kv => jsize (snd kv)) Hall) as H.
    cbv beta in H. cbn [jsize json_dumps]. fold member_text.
    rewrite !length_app. simpl length.
    lia.
Qed.

(** [json.loads] reads back what [json.dumps] wrote. *)
Lemma json_loads_dumps v : wf v -> json_loads (json_dumps v) = Some v.
Proof.
  intros Hwf. unfold json_loads.
  destruct (json_dumps_head Hwf) as (c & t & E & Hc).
  rewrite E at 2. rewrite skip_ws_value_start, <- E by assumption.
  pose proof (jsize_le_length Hwf) as Hsize.
  destruct (scan_roundtrip (S (length (json_dumps v)))) as (Hscan & _).
  rewrite <- (app_nil_r (json_dumps v)) at 2.
  rewrite Hscan; [reflexivity | assumption | lia | exact I].
Qed.

(** ** The decoder only builds well-formed values *)

Ltac break_match H :=
  match type of H with
  | context [match ?x with _ => _ end] => destruct x eqn:?; try discriminate
  end.

Lemma lex_int_part_norm s ip r :
  lex_int_part s = Some (ip, r) -> Decimal.unorm ip = ip.
Proof.
  destruct s as [|c s]; [discriminate|]. unfold lex_int_part.
  destruct (is_digit c) eqn:Hd; [|discriminate].
  apply is_digit_cases in Hd.
  repeat (destruct Hd as [Hd|Hd];
          [subst c; simpl; destruct (span_digits s); intros H; inversion H; reflexivity|]).
  subst c; simpl; destruct (span_digits s); intros H; inversion H; reflexivity.
Qed.

Lemma lex_frac_nonnil s u r : lex_frac s = (Some u, r) -> u <> Decimal.Nil.
Proof.
  unfold lex_frac. intros H. repeat break_match H.
  inversion H; subst. intros ->. discriminate.
Qed.

Lemma lex_exp_nonnil s e r :
  lex_exp s = (Some e, r) ->
  e <> Decimal.Pos Decimal.Nil /\ e <> Decimal.Neg Decimal.Nil.
Proof.
  unfold lex_exp. intros H.
  destruct s as [|c s]; [discriminate|].
  destruct ((c =? 101) || (c =? 69))%N; [|discriminate].
  destruct (lex_exp_sign s) as [eneg r'].
  destruct (span_digits r') as [u r''].
  destruct (is_nil u) eqn:Hu; [discriminate|].
  inversion H; subst.
  destruct eneg; split; intros E; inversion E; subst; discriminate.
Qed.

Lemma match_number_wf s v r : match_number s = Some (v, r) -> wf v.
Proof.
  unfold match_number. destruct (lex_sign s) as [neg s1].
  destruct (lex_int_part s1) as [[ip s2]|] eqn:Hip; [|discriminate].
  destruct (lex_frac s2) as [frac s3] eqn:Hfrac.
  destruct (lex_exp s3) as [exp s4] eqn:Hexp.
  apply lex_int_part_norm in Hip.
  destruct frac as [fu|], exp as [e|]; intros H; inversion H; subst;
    try constructor; unfold float_wf.
  - apply lex_frac_nonnil in Hfrac. apply lex_exp_nonnil in Hexp as [? ?].
    repeat split; try congruence. left. discriminate.
  - apply lex_frac_nonnil in Hfrac.
    repeat split; try congruence. left. discriminate.
  - apply lex_exp_nonnil in Hexp as [? ?].
    repeat split; try congruence. right. discriminate.
Qed.

Lemma match_constant_wf s v r : match_constant s = Some (v, r) -> wf v.
Proof.
  unfold match_constant. intros H.
  repeat break_match H; inversion H; subst; repeat constructor.
Qed.

Lemma scan_wf fuel :
  (forall s v r, scan_once fuel s = Some (v, r) -> wf v)
  /\ (forall s items r, array_items fuel s = Some (items, r) -> Forall wf items)
  /\ (forall s pairs r,
        object_members fuel s = Some (pairs, r) ->
        Forall (fun kv => wf (snd kv)) pairs).
Proof.
  induction fuel as [|fuel (IHv & IHa & IHo)];
    [repeat split; intros; discriminate|].
  repeat split.
  - intros s v r H. cbn [scan_once] in H.
    destruct s as [|c s]; [discriminate|].
    destruct (c =? 34)%N.
    { destruct (scanstring s) as [[chars r']|]; inversion H; constructor. }
    destruct (c =? 123)%N.
    { destruct (skip_ws s) as [|c' r']; [discriminate|].
      destruct (c' =? 125)%N.
      - inversion H; subst. constructor; constructor.
      - destruct (object_members fuel (c' :: r')) as [[pairs r'']|] eqn:E;
          inversion H; subst.
        apply IHo in E.
        destruct (dict_of_pairs_invariant wf E). now constructor. }
    destruct (c =? 91)%N.
    { destruct (skip_ws s) as [|c' r']; [discriminate|].
      destruct (c' =? 93)%N.
      - inversion H; subst. constructor; constructor.
      - destruct (array_items fuel (c' :: r')) as [[items r'']|] eqn:E;
          inversion H; subst.
        apply IHa in E. now constructor. }
    destruct (match_constant (c :: s)) as [[v' r']|] eqn:E.
    + inversion H; subst. eapply match_constant_wf; eassumption.
    + eapply match_number_wf; eassumption.
  - intros s items r H. rewrite array_items_step in H.
    destruct (scan_once fuel s) as [[v r1]|] eqn:Ev; [|discriminate].
    apply IHv in Ev.
    destruct (skip_ws r1) as [|c r']; [discriminate|].
    destruct (c =? 93)%N; [inversion H; subst; repeat constructor; assumption|].
    destruct (c =? 44)%N; [|discriminate].
    destruct (array_items fuel (skip_ws r')) as [[vs r'']|] eqn:Evs;
      inversion H; subst.
    apply IHa in Evs. now constructor.
  - intros s pairs r H. cbn [object_members] in H.
    destruct s as [|c s]; [discriminate|].
    destruct (c =? 34)%N; [|discriminate].
    destruct (scanstring s) as [[k r1]|]; [|discriminate].
    destruct (skip_ws r1) as [|c1 r2]; [discriminate|].
    destruct (c1 =? 58)%N; [|discriminate].
    destruct (scan_once fuel (skip_ws r2)) as [[v r3]|] eqn:Ev; [|discriminate].
    apply IHv in Ev.
    destruct (skip_ws r3) as [|c3 r4]; [discriminate|].
    destruct (c3 =? 125)%N; [inversion H; subst; repeat constructor; assumption|].
    destruct (c3 =? 44)%N; [|discriminate].
    destruct (object_members fuel (skip_ws r4)) as [[kvs r5]|] eqn:Ekvs;
      inversion H; subst.
    apply IHo in Ekvs. now constructor.
Qed.

Lemma json_loads_wf s v : json_loads s = Some v -> wf v.
Proof.
  unfold json_loads.
  destruct (scan_once (S (length s)) (skip_ws s)) as [[v' r]|] eqn:E;
    [|discriminate].
  destruct (skip_ws r); [|discriminate].
  intros H; inversion H; subst.
  destruct (scan_wf (S (length s))) as (Hv & _). eapply Hv; eassumption.
Qed.

(** ** ResponseParser *)

Lemma contains_cons hay needle c :
  contains hay needle -> contains (c :: hay) needle.
Proof. intros (pre & post & ->). now exists (c :: pre), post. Qed.

Lemma starts_with_contains p s : starts_with p s = true -> contains s p.
Proof.
  unfold starts_with. destruct (strip_prefix p s) as [t|] eqn:E; [|discriminate].
  intros _. apply strip_prefix_some in E. now exists [], t.
Qed.

(** A text without a fence goes through the fence stripper unchanged. *)
Lemma re_sub_fence_no_fence text :
  ~ contains text fence -> re_sub_fence text = text.
Proof.
  unfold re_sub_fence. induction text as [|c r IH]; intros H; [reflexivity|].
  cbn [strip_fences].
  destruct (starts_with fence_json (c :: r)) eqn:Ej.
  { exfalso. apply H. apply starts_with_contains in Ej.
    destruct Ej as (pre & post & E). unfold fence_json in E.
    exists pre, (str "json" ++ post). rewrite E. now rewrite <- !app_assoc. }
  destruct (starts_with fence (c :: r)) eqn:Ef.
  { exfalso. apply H. now apply starts_with_contains. }
  f_equal. apply IH. intros Hr. apply H. now apply contains_cons.
Qed.

(** A text between brackets has nothing to strip at either end. *)
Lemma py_strip_bracketed body :
  py_strip (91%N :: body ++ [93%N]) = 91%N :: body ++ [93%N].
Proof.
  unfold py_strip, py_rstrip.
  change (91%N :: body ++ [93%N]) with ((91%N :: body) ++ [93%N]).
  rewrite rev_app_distr.
  change (py_lstrip (rev [93%N] ++ rev (91%N :: body)))
    with (rev [93%N] ++ rev (91%N :: body)).
  rewrite <- rev_app_distr, rev_involutive. reflexivity.
Qed.

Lemma extract_json_array_wf text parsed :
  _extract_json_array text = Ok parsed -> wf (JArr parsed).
Proof.
  unfold _extract_json_array.
  set (t := py_strip (re_sub_fence text)).
  destruct (json_loads t) as [v|] eqn:E.
  - destruct v; try (destruct (re_search_array t) as [g|]; [|discriminate];
                     destruct (json_loads g) as [[]|] eqn:Eg; try discriminate;
                     intros H; inversion H; subst;
                     exact (json_loads_wf _ Eg)).
    intros H; inversion H; subst. exact (json_loads_wf _ E).
  - destruct (re_search_array t) as [g|]; [|discriminate].
    destruct (json_loads g) as [[]|] eqn:Eg; try discriminate.
    intros H; inversion H; subst. exact (json_loads_wf _ Eg).
Qed.

(** C5. The parser recovers the one-element array from the bare text, from
    the fenced text and from the text wrapped in prose, and raises its
    [ValueError] (the specification's [ParseError]) on a text without an
    array. *)
Theorem extract_json_array_examples :
  _extract_json_array (jstr "[{'a':1}]") = Ok [JObj [(str "a", JInt 1)]]
  /\ _extract_json_array
       (fence ++ str "json" ++ [10%N] ++ jstr "[{'a':1}]" ++ [10%N] ++ fence)
     = Ok [JObj [(str "a", JInt 1)]]
  /\ _extract_json_array (jstr "Here is the result: [{'a':1}] Hope this helps!")
     = Ok [JObj [(str "a", JInt 1)]]
  /\ _extract_json_array (str "no array here") = Raise ValueError.
Proof. repeat split; vm_compute; reflexivity. Qed.

(** C6 as the specification words it fails: a recovered string may hold
    three backticks (written with escapes in the model's answer); its
    re-serialization holds them raw, and the fence stripper deletes them
    before the text is parsed again. *)
Lemma extract_json_array_reparse_loses_backticks :
  let text := jstr "['\u0060\u0060\u0060']" in
  let A := [JStr fence] in
  _extract_json_array text = Ok A
  /\ json_dumps (JArr A) = [91; 34; 96; 96; 96; 34; 93]%N
  /\ _extract_json_array (json_dumps (JArr A)) = Ok [JStr []]
  /\ _extract_json_array (json_dumps (JArr A)) <> Ok A.
Proof.
  cbv zeta. repeat split; try (vm_compute; reflexivity).
  vm_compute. discriminate.
Qed.

(** C6 (amended). For every text on which the parser succeeds with array
    [A], if the re-serialization of [A] holds no run of three backticks,
    parsing that re-serialization succeeds and yields [A]. *)
Theorem extract_json_array_reparse text A :
  _extract_json_array text = Ok A ->
  ~ contains (json_dumps (JArr A)) fence ->
  _extract_json_array (json_dumps (JArr A)) = Ok A.
Proof.
  intros Hparsed Hfence.
  apply extract_json_array_wf in Hparsed.
  unfold _extract_json_array.
  rewrite re_sub_fence_no_fence by assumption.
  assert (E : py_strip (json_dumps (JArr A)) = json_dumps (JArr A)).
  { cbn [json_dumps]. apply (py_strip_bracketed (join_comma (map json_dumps A))). }
  rewrite E, json_loads_dumps by assumption. reflexivity.
Qed.

Lemma extract_json_array_reparse_witness :
  _extract_json_array
    (json_dumps (JArr [JObj [(str "a", JInt 1); (str "b", JArr [JStr (str "x"); JNull])]]))
  = Ok [JObj [(str "a", JInt 1); (str "b", JArr [JStr (str "x"); JNull])]].
Proof.
  apply (@extract_json_array_reparse
           (jstr "Sure: [{'a': 1, 'b': ['x', null]}]")).
  - vm_compute. reflexivity.
  - intros (pre & post & E). vm_compute in E.
    repeat (destruct pre as [|? pre]; [discriminate E|];
            injection E as _ E).
    destruct pre; discriminate E.
Defined.

(** ** ExtractionOrchestrator: per-item validation *)

Lemma bind_ok (A B : Type) (r : result A) (k : A -> result B) x :
  bind r k = Ok x -> exists a, r = Ok a /\ k a = Ok x.
Proof. destruct r as [a|e]; simpl; [eauto | discriminate]. Qed.

Lemma py_get_ok obj key default v :
  py_get obj key default = Ok v ->
  exists d, obj = JObj d
            /\ v = match dict_get d key with Some x => x | None => default end.
Proof. destruct obj; simpl; try discriminate. intros H; inversion H; eauto. Qed.

Lemma py_getitem_ok obj key v :
  py_getitem obj key = Ok v -> exists d, obj = JObj d /\ dict_get d key = Some v.
Proof.
  destruct obj; simpl; try discriminate.
  destruct (dict_get members key) eqn:E; [|discriminate].
  intros H; inversion H; subst; eauto.
Qed.

Lemma validate_str_ok v s : validate_str v = Ok s -> v = JStr s.
Proof. destruct v; simpl; try discriminate. intros H; now inversion H. Qed.

Lemma validate_str_items_ok items l :
  validate_str_items items = Ok l -> items = map JStr l.
Proof.
  revert l. induction items as [|v vs IH]; simpl; intros l H.
  - now inversion H.
  - apply bind_ok in H as (s & Hs & H). apply bind_ok in H as (ss & Hss & H).
    inversion H; subst. apply validate_str_ok in Hs. subst.
    simpl. f_equal. now apply IH.
Qed.

Lemma validate_str_items_map l : validate_str_items (map JStr l) = Ok l.
Proof. induction l as [|s l IH]; simpl; [reflexivity | now rewrite IH]. Qed.

Lemma validate_str_list_ok v l : validate_str_list v = Ok l -> v = JArr (map JStr l).
Proof.
  destruct v; simpl; try discriminate.
  intros H. apply validate_str_items_ok in H. now subst.
Qed.

Lemma required_str_ok kwargs name s :
  required_str kwargs name = Ok s -> dict_get kwargs name = Some (JStr s).
Proof.
  unfold required_str. destruct (dict_get kwargs name) as [v|]; [|discriminate].
  intros H. apply validate_str_ok in H. now subst.
Qed.

Lemma kwargs_of_ok obj d : kwargs_of obj = Ok d -> obj = JObj d.
Proof. destruct obj; simpl; try discriminate. intros H; now inversion H. Qed.

Lemma validate_nodes_flat_map raw vid vurl :
  _validate_nodes raw vid vurl = flat_map (nodes_of_item vid vurl) raw.
Proof.
  unfold _validate_nodes.
  assert (G : forall acc,
             fold_left
               (fun nodes item =>
                  match build_node item vid vurl with
                  | Ok node => nodes ++ [node]
                  | Raise _ => nodes
                  end) raw acc
             = acc ++ flat_map (nodes_of_item vid vurl) raw).
  { induction raw as [|item raw IH]; intros acc; simpl.
    - now rewrite app_nil_r.
    - rewrite IH. unfold nodes_of_item at 2.
      destruct (build_node item vid vurl); simpl; [|reflexivity].
      now rewrite <- app_assoc. }
  apply (G []).
Qed.

Lemma validate_nodes_app raw1 raw2 vid vurl :
  _validate_nodes (raw1 ++ raw2) vid vurl
  = _validate_nodes raw1 vid vurl ++ _validate_nodes raw2 vid vurl.
Proof. rewrite !validate_nodes_flat_map. apply flat_map_app. Qed.

(** An item without the [pillars] key never builds. *)
Lemma build_node_without_pillars d vid vurl :
  dict_get d (str "pillars") = None ->
  exists e, build_node (JObj d) vid vurl = Raise e.
Proof.
  intros H. unfold build_node.
  repeat (match goal with
          | |- exists e, bind ?r _ = Raise e =>
              let E := fresh "E" in
              destruct r eqn:E; [cbn [bind] | eexists; reflexivity]
          end;
          try match goal with
            | E : py_getitem (JObj d) (str "pillars") = Ok _ |- _ =>
                unfold py_getitem in E; rewrite H in E; discriminate E
            end).
Qed.

(** C1 fails on the code: an item without the [diagnostic_layer] object,
    complete otherwise, is accepted, and the node built from it has the
    four diagnostic fields empty.  The same holds end to end, when the
    model answers with an array of that one item. *)
Theorem validate_nodes_accepts_empty_diagnostics :
  _extract_json_array (str "[" ++ no_diagnostic_item_text ++ str "]")
  = Ok [no_diagnostic_item]
  /\ build_node no_diagnostic_item sample_video_id sample_video_url
     = Ok undiagnosed_node
  /\ _validate_nodes [no_diagnostic_item] sample_video_id sample_video_url
     = [undiagnosed_node]
  /\ extract_energy_nodes
       (constant_llm (str "[" ++ no_diagnostic_item_text ++ str "]"))
       (str "a transcript") sample_video_id sample_video_url 12000 0
     = (Ok [undiagnosed_node], 1%nat)
  /\ related_inner_issues (diagnostic_layer undiagnosed_node) = []
  /\ reality_commitment_check (diagnostic_layer undiagnosed_node) = []
  /\ hidden_benefit (diagnostic_layer undiagnosed_node) = []
  /\ energy_node (diagnostic_layer undiagnosed_node) = [].
Proof. repeat split; vm_compute; reflexivity. Qed.



(** C4 fails on the code: an item that lacks a required field is not
    always skipped.  An item without the [diagnostic_layer] object comes
    back, with empty diagnostic fields, next to its well-formed sibling,
    where the claim has the well-formed item's node alone; the same holds
    end to end, when the model answers with an array of the two items. *)
Theorem validate_nodes_keeps_item_without_diagnostic_layer :
  match no_diagnostic_item with
  | JObj d => dict_get d (str "diagnostic_layer") = None
  | _ => False
  end
  /\ _validate_nodes [no_diagnostic_item; good_item] sample_video_id sample_video_url
     = [undiagnosed_node; good_node]
  /\ extract_energy_nodes
       (constant_llm (str "[" ++ no_diagnostic_item_text ++ str ", "
                      ++ good_item_text ++ str "]"))
       (str "a transcript") sample_video_id sample_video_url 12000 0
     = (Ok [undiagnosed_node; good_node], 1%nat).
Proof. repeat split; vm_compute; reflexivity. Qed.

(** ** ExtractionOrchestrator: the retried call *)

Section Retry.

Variable llm : llm_client.
Variable tr : pystr.

Lemma call_once_eq n :
  call_llm_and_parse_once llm tr n = (attempt_outcome llm tr n, S n).
Proof.
  unfold attempt_outcome, call_llm_and_parse_once.
  destruct (llm n (USER_PROMPT_TEMPLATE tr)); reflexivity.
Qed.

Lemma retry_loop_step rem n :
  retry_loop rem (call_llm_and_parse_once llm tr) n
  = match attempt_outcome llm tr n with
    | Ok a => (Ok a, S n)
    | Raise e =>
        if is_ValueError e then
          match rem with
          | O => (Raise e, S n)
          | S k => retry_loop k (call_llm_and_parse_once llm tr) (S n)
          end
        else (Raise e, S n)
    end.
Proof. destruct rem; simpl; rewrite call_once_eq; reflexivity. Qed.

(** The retry makes between one and [rem + 1] invocations. *)
Lemma retry_loop_calls rem n :
  (S n <= snd (retry_loop rem (call_llm_and_parse_once llm tr) n) <= S n + rem)%nat.
Proof.
  revert n. induction rem as [|k IH]; intros n; rewrite retry_loop_step.
  - destruct (attempt_outcome llm tr n) as [a|e]; [simpl; lia|].
    destruct (is_ValueError e); simpl; lia.
  - destruct (attempt_outcome llm tr n) as [a|e]; [simpl; lia|].
    destruct (is_ValueError e); [|simpl; lia].
    specialize (IH (S n)). lia.
Qed.

(** What the loop hands back is the outcome of its last invocation; every
    earlier invocation was a failure the rule retries; and such a failure
    is handed back only when the attempts are used up. *)
Lemma retry_loop_last rem n :
  let run := retry_loop rem (call_llm_and_parse_once llm tr) n in
  fst run = attempt_outcome llm tr (snd run - 1)
  /\ (forall k, (n <= k < snd run - 1)%nat -> parse_failure llm tr k)
  /\ (forall e, fst run = Raise e -> is_ValueError e = true ->
      snd run = (n + S rem)%nat).
Proof.
  cbv zeta. revert n. induction rem as [|rem IH]; intros n;
    rewrite retry_loop_step; destruct (attempt_outcome llm tr n) as [a|e] eqn:E.
  - simpl. rewrite Nat.sub_0_r. repeat split; [auto | lia | discriminate].
  - destruct (is_ValueError e) eqn:V; simpl; rewrite Nat.sub_0_r;
      (repeat split; [auto | lia | ]).
    + intros; lia.
    + intros e' H. inversion H; subst. congruence.
  - simpl. rewrite Nat.sub_0_r. repeat split; [auto | lia | discriminate].
  - destruct (is_ValueError e) eqn:V.
    + destruct (IH (S n)) as (H1 & H2 & H3).
      pose proof (retry_loop_calls rem (S n)) as Hc.
      repeat split.
      * exact H1.
      * intros k Hk. destruct (Nat.eq_dec k n) as [->|Hne].
        -- now exists e.
        -- apply H2. lia.
      * intros e' He' V'. rewrite (H3 e' He' V'). lia.
    + simpl. rewrite Nat.sub_0_r. repeat split; [auto | lia | ].
      intros e' H. inversion H; subst. congruence.
Qed.

End Retry.

Lemma extract_energy_nodes_runs llm transcript vid vurl max_chars calls :
  truncate_transcript_raises transcript max_chars = false ->
  extract_energy_nodes llm transcript vid vurl max_chars calls
  = match retry_loop 2 (call_llm_and_parse_once llm
                          (truncate_transcript transcript max_chars)) calls with
    | (Raise exc, calls') => (Ok [], calls')
    | (Ok raw_list, calls') => (Ok (_validate_nodes raw_list vid vurl), calls')
    end.
Proof.
  intros H. unfold extract_energy_nodes, _call_llm_and_parse, stop_after_attempt.
  now rewrite H.
Qed.







(** ** The decoder's fuel is always enough

    A decoder call that succeeds with some fuel consumes at least one
    character and succeeds, with the same result, with any fuel that is at
    least the number of characters it consumes.  So the fuel [json_loads]
    starts with never decides its outcome. *)

Lemma skip_ws_length s : (length (skip_ws s) <= length s)%nat.
Proof.
  induction s as [|c s IH]; simpl; [lia|].
  destruct (is_json_ws c); simpl; lia.
Qed.

Lemma span_digits_length s : (length (snd (span_digits s)) <= length s)%nat.
Proof.
  induction s as [|c s IH]; simpl; [lia|].
  destruct (is_digit c); [|simpl; lia].
  destruct (span_digits s); simpl in *; lia.
Qed.

Lemma push_some c res chars r :
  push c res = Some (chars, r) -> exists chars', res = Some (chars', r).
Proof.
  destruct res as [[chars' r']|]; [|discriminate].
  intros H; inversion H; subst. eauto.
Qed.

Lemma scanstring_length_upto n :
  forall s chars r,
    (length s <= n)%nat -> scanstring s = Some (chars, r) ->
    (length r < length s)%nat.
Proof.
  induction n as [|n IH]; intros s chars r Hn H.
  - destruct s; [discriminate | simpl in Hn; lia].
  - destruct s as [|c s]; [discriminate|]. cbn [scanstring] in H.
    repeat break_match H;
      try (inversion H; subst; simpl; lia);
      apply push_some in H; destruct H as (chars' & H);
      apply IH in H; simpl in *; lia.
Qed.

Lemma scanstring_length s chars r :
  scanstring s = Some (chars, r) -> (length r < length s)%nat.
Proof. apply scanstring_length_upto with (n := length s). lia. Qed.

Lemma match_constant_length s v r :
  match_constant s = Some (v, r) -> (length r < length s)%nat.
Proof.
  unfold match_constant. intros H.
  repeat break_match H; inversion H; subst;
    match goal with
    | E : strip_prefix _ _ = Some _ |- _ =>
        apply strip_prefix_some in E; rewrite E, length_app; simpl; lia
    end.
Qed.

Lemma match_number_length s v r :
  match_number s = Some (v, r) -> (length r < length s)%nat.
Proof.
  unfold match_number.
  destruct (lex_sign s) as [neg s1] eqn:Hs.
  destruct (lex_int_part s1) as [[ip s2]|] eqn:Hip; [|discriminate].
  destruct (lex_frac s2) as [frac s3] eqn:Hfrac.
  destruct (lex_exp s3) as [exp s4] eqn:Hexp.
  assert (L1 : (length s1 <= length s)%nat).
  { unfold lex_sign in Hs. destruct s as [|c s]; [inversion Hs; simpl; lia|].
    destruct (c =? 45)%N; inversion Hs; subst; simpl; lia. }
  assert (L2 : (length s2 < length s1)%nat).
  { unfold lex_int_part in Hip. destruct s1 as [|c t]; [discriminate|].
    destruct (is_digit c) eqn:Hd; [|discriminate].
    destruct (c =? 48)%N; inversion Hip; subst; [simpl; lia|].
    pose proof (span_digits_length t) as L. simpl in H0. rewrite Hd in H0.
    destruct (span_digits t); inversion H0; subst. simpl in *. lia. }
  assert (L3 : (length s3 <= length s2)%nat).
  { unfold lex_frac in Hfrac. destruct s2 as [|d t]; [inversion Hfrac; simpl; lia|].
    destruct (d =? 46)%N; [|inversion Hfrac; simpl; lia].
    pose proof (span_digits_length t) as L.
    destruct (span_digits t) as [u t']. simpl in L.
    destruct (is_nil u); inversion Hfrac; subst; simpl; lia. }
  assert (L4 : (length s4 <= length s3)%nat).
  { unfold lex_exp in Hexp. destruct s3 as [|e t]; [inversion Hexp; simpl; lia|].
    destruct ((e =? 101) || (e =? 69))%N; [|inversion Hexp; simpl; lia].
    destruct (lex_exp_sign t) as [eneg t'] eqn:Esg.
    assert (Lsg : (length t' <= length t)%nat).
    { unfold lex_exp_sign in Esg. destruct t as [|sg t0]; [inversion Esg; simpl; lia|].
      destruct (sg =? 45)%N; [inversion Esg; subst; simpl; lia|].
      destruct (sg =? 43)%N; inversion Esg; subst; simpl; lia. }
    pose proof (span_digits_length t') as L.
    destruct (span_digits t') as [u t'']. simpl in L.
    destruct (is_nil u); inversion Hexp; subst; simpl; lia. }
  intros H. destruct frac, exp; inversion H; subst; lia.
Qed.

Lemma scan_fuel_adequate fuel :
  (forall s v r,
      scan_once fuel s = Some (v, r) ->
      (length r < length s)%nat
      /\ forall fuel', (length s - length r <= fuel')%nat ->
                       scan_once fuel' s = Some (v, r))
  /\ (forall s items r,
      array_items fuel s = Some (items, r) ->
      (length r < length s)%nat
      /\ forall fuel', (length s - length r <= fuel')%nat ->
                       array_items fuel' s = Some (items, r))
  /\ (forall s pairs r,
      object_members fuel s = Some (pairs, r) ->
      (length r < length s)%nat
      /\ forall fuel', (length s - length r <= fuel')%nat ->
                       object_members fuel' s = Some (pairs, r)).
Proof.
  induction fuel as [|fuel (IHv & IHa & IHo)];
    [repeat split; intros; discriminate|].
  split; [|split].
  - intros s v r H. cbn [scan_once] in H.
    destruct s as [|c s]; [discriminate|].
    destruct (c =? 34)%N eqn:E34.
    { destruct (scanstring s) as [[chars r']|] eqn:Es; inversion H; subst.
      pose proof (scanstring_length _ Es) as L.
      split; [cbn [length]; lia|]. intros [|f'] Hf; [cbn [length] in Hf; lia|].
      cbn [scan_once]. now rewrite E34, Es. }
    destruct (c =? 123)%N eqn:E123.
    { pose proof (skip_ws_length s) as Lws.
      destruct (skip_ws s) as [|c' r'] eqn:Ews; [discriminate|].
      destruct (c' =? 125)%N eqn:E125.
      - inversion H; subst. cbn [length] in Lws.
        split; [cbn [length]; lia|]. intros [|f'] Hf; [cbn [length] in Hf; lia|].
        cbn [scan_once]. now rewrite E34, E123, Ews, E125.
      - destruct (object_members fuel (c' :: r')) as [[pairs r'']|] eqn:Eo;
          inversion H; subst.
        apply IHo in Eo as [L Hstable]. cbn [length] in Lws, L.
        split; [cbn [length]; lia|]. intros [|f'] Hf; [cbn [length] in Hf; lia|].
        cbn [scan_once]. rewrite E34, E123, Ews, E125, Hstable; [reflexivity|].
        cbn [length] in *; lia. }
    destruct (c =? 91)%N eqn:E91.
    { pose proof (skip_ws_length s) as Lws.
      destruct (skip_ws s) as [|c' r'] eqn:Ews; [discriminate|].
      destruct (c' =? 93)%N eqn:E93.
      - inversion H; subst. cbn [length] in Lws.
        split; [cbn [length]; lia|]. intros [|f'] Hf; [cbn [length] in Hf; lia|].
        cbn [scan_once]. now rewrite E34, E123, E91, Ews, E93.
      - destruct (array_items fuel (c' :: r')) as [[items r'']|] eqn:Ea;
          inversion H; subst.
        apply IHa in Ea as [L Hstable]. cbn [length] in Lws, L.
        split; [cbn [length]; lia|]. intros [|f'] Hf; [cbn [length] in Hf; lia|].
        cbn [scan_once]. rewrite E34, E123, E91, Ews, E93, Hstable; [reflexivity|].
        cbn [length] in *; lia. }
    assert (L : (length r < length (c :: s))%nat).
    { destruct (match_constant (c :: s)) as [[v' r']|] eqn:Ec.
      - inversion H; subst. eapply match_constant_length; eassumption.
      - eapply match_number_length; eassumption. }
    split; [exact L|]. intros [|f'] Hf; [lia|].
    cbn [scan_once]. now rewrite E34, E123, E91.
  - intros s items r H. rewrite array_items_step in H.
    destruct (scan_once fuel s) as [[v r1]|] eqn:Ev; [|discriminate].
    apply IHv in Ev as [L1 S1].
    pose proof (skip_ws_length r1) as Lws.
    destruct (skip_ws r1) as [|c r'] eqn:Ews; [discriminate|]. cbn [length] in Lws.
    destruct (c =? 93)%N eqn:E93.
    { inversion H; subst. split; [lia|].
      intros [|f'] Hf; [lia|].
      rewrite array_items_step, S1, Ews, E93 by lia. reflexivity. }
    destruct (c =? 44)%N eqn:E44; [|discriminate].
    destruct (array_items fuel (skip_ws r')) as [[vs r'']|] eqn:Ea;
      inversion H; subst.
    apply IHa in Ea as [L2 S2].
    pose proof (skip_ws_length r') as Lws'.
    split; [lia|]. intros [|f'] Hf; [lia|].
    rewrite array_items_step, S1, Ews, E93, E44, S2 by lia. reflexivity.
  - intros s pairs r H. cbn [object_members] in H.
    destruct s as [|c s]; [discriminate|].
    destruct (c =? 34)%N eqn:E34; [|discriminate].
    destruct (scanstring s) as [[k r1]|] eqn:Es; [|discriminate].
    pose proof (scanstring_length _ Es) as Ls.
    pose proof (skip_ws_length r1) as Lws1.
    destruct (skip_ws r1) as [|c1 r2] eqn:Ews1; [discriminate|]. cbn [length] in Lws1.
    destruct (c1 =? 58)%N eqn:E58; [|discriminate].
    pose proof (skip_ws_length r2) as Lws2.
    destruct (scan_once fuel (skip_ws r2)) as [[v r3]|] eqn:Ev; [|discriminate].
    apply IHv in Ev as [L1 S1].
    pose proof (skip_ws_length r3) as Lws3.
    destruct (skip_ws r3) as [|c3 r4] eqn:Ews3; [discriminate|]. cbn [length] in Lws3.
    destruct (c3 =? 125)%N eqn:E125.
    { inversion H; subst. split; [cbn [length]; lia|].
      intros [|f'] Hf; [cbn [length] in Hf; lia|].
      cbn [object_members]. rewrite E34, Es, Ews1, E58, S1, Ews3, E125;
        [reflexivity | cbn [length] in Hf; lia]. }
    destruct (c3 =? 44)%N eqn:E44; [|discriminate].
    destruct (object_members fuel (skip_ws r4)) as [[kvs r5]|] eqn:Eo;
      inversion H; subst.
    apply IHo in Eo as [L2 S2].
    pose proof (skip_ws_length r4) as Lws4.
    split; [cbn [length]; lia|]. intros [|f'] Hf; [cbn [length] in Hf; lia|].
    cbn [object_members].
    rewrite E34, Es, Ews1, E58, S1, Ews3, E125, E44, S2;
      [reflexivity | cbn [length] in Hf; lia | cbn [length] in Hf; lia].
Qed.

(** No amount of fuel decodes a text that [json_loads] refuses, and what
    [json_loads] returns is what any sufficient fuel returns. *)
Lemma json_loads_fuel_independent fuel s v r :
  scan_once fuel (skip_ws s) = Some (v, r) ->
  scan_once (S (length s)) (skip_ws s) = Some (v, r).
Proof.
  intros H. destruct (scan_fuel_adequate fuel) as (Hv & _).
  destruct (Hv _ _ _ H) as [L Hstable]. apply Hstable.
  pose proof (skip_ws_length s). lia.
Qed.

Lemma json_loads_refusal_final s :
  json_loads s = None ->
  forall fuel v r, scan_once fuel (skip_ws s) = Some (v, r) -> skip_ws r <> [].
Proof.
  unfold json_loads. intros H fuel v r E.
  rewrite (json_loads_fuel_independent _ _ E) in H.
  destruct (skip_ws r); [discriminate | discriminate].
Qed.

(* ===================================================================== *)
(** * Part III: further properties of the code                             *)
(* ===================================================================== *)

(** ** TranscriptCleaner: more on truncation *)

Lemma py_lstrip_head s c r : py_lstrip s = c :: r -> py_isspace c = false.
Proof.
  induction s as [|x s IH]; simpl; [discriminate|].
  destruct (py_isspace x) eqn:E; [exact IH|].
  intros H; inversion H; subst. exact E.
Qed.

Lemma py_lstrip_last s pre c :
  (forall pre' c', s = pre' ++ [c'] -> py_isspace c' = false) ->
  py_lstrip s = pre ++ [c] -> py_isspace c = false.
Proof.
  intros Hs H. destruct (py_lstrip_suffix s) as [dropped E].
  apply (Hs (dropped ++ pre) c). rewrite E at 1. rewrite H.
  now rewrite app_assoc.
Qed.

Lemma py_rstrip_last s pre c : py_rstrip s = pre ++ [c] -> py_isspace c = false.
Proof.
  unfold py_rstrip. intros H.
  apply (f_equal (@rev N)) in H. rewrite rev_involutive, rev_app_distr in H.
  simpl in H. now apply py_lstrip_head in H.
Qed.

Lemma py_strip_stripped s : stripped (py_strip s).
Proof.
  unfold py_strip. split.
  - intros c r H. now apply py_lstrip_head in H.
  - intros pre c H. revert H. apply py_lstrip_last.
    intros pre' c'. apply py_rstrip_last.
Qed.

Lemma py_rstrip_prefix s : exists post, s = py_rstrip s ++ post.
Proof.
  unfold py_rstrip. destruct (py_lstrip_suffix (rev s)) as [pre E].
  exists (rev pre). rewrite <- rev_app_distr, <- E. now rewrite rev_involutive.
Qed.

Lemma py_strip_infix s : contains s (py_strip s).
Proof.
  unfold py_strip.
  destruct (py_rstrip_prefix s) as [post E1].
  destruct (py_lstrip_suffix (py_rstrip s)) as [pre E2].
  exists pre, post. rewrite app_assoc, <- E2. exact E1.
Qed.

Lemma firstn_prefix (l : pystr) n : exists post, l = firstn n l ++ post.
Proof. exists (skipn n l). now rewrite firstn_skipn. Qed.

Lemma py_slice_to_prefix s stop : exists post, s = py_slice_to s stop ++ post.
Proof. unfold py_slice_to. destruct (stop <? 0)%Z; apply firstn_prefix. Qed.

Lemma contains_prefix_of hay pre post needle :
  hay = pre ++ post -> contains pre needle -> contains hay needle.
Proof.
  intros -> (a & b & ->). exists a, (b ++ post). now rewrite <- !app_assoc.
Qed.

(** What [truncate_transcript] returns once the text is over the budget:
    the strip of a prefix of the text no longer than the budget. *)
Lemma truncate_transcript_cut text max_chars :
  (py_len text > max_chars)%Z ->
  exists prefix post,
    text = prefix ++ post
    /\ (0 <= max_chars -> py_len prefix <= max_chars)%Z
    /\ truncate_transcript text max_chars = py_strip prefix.
Proof.
  intros Hlen. unfold truncate_transcript.
  destruct (Z.leb_spec (py_len text) max_chars); [lia|].
  set (truncated := py_slice_to text max_chars).
  destruct (py_slice_to_prefix text max_chars) as [post1 E1].
  fold truncated in E1.
  assert (L1 : (0 <= max_chars -> py_len truncated <= max_chars)%Z).
  { intros H0. unfold py_len, truncated.
    rewrite py_slice_to_length by assumption. lia. }
  destruct (past_four_fifths (py_rfind truncated dot) max_chars).
  - destruct (py_slice_to_prefix truncated (py_rfind truncated dot + 1)) as [post2 E2].
    exists (py_slice_to truncated (py_rfind truncated dot + 1)), (post2 ++ post1).
    split; [rewrite app_assoc, <- E2; exact E1|]. split; [|reflexivity].
    intros H0. specialize (L1 H0).
    assert (length truncated
            = (length (py_slice_to truncated (py_rfind truncated dot + 1))
               + length post2)%nat) by (rewrite E2 at 1; apply length_app).
    unfold py_len in *. lia.
  - exists truncated, post1. repeat split; assumption.
Qed.

(** X1. Truncating twice with the same non-negative budget is truncating
    once. *)
Theorem truncate_transcript_idempotent text max_chars :
  (0 <= max_chars)%Z ->
  truncate_transcript (truncate_transcript text max_chars) max_chars
  = truncate_transcript text max_chars.
Proof.
  intros Hmax.
  destruct (Z.leb_spec (py_len text) max_chars) as [Hle|Hgt].
  - unfold truncate_transcript at 2. apply Z.leb_le in Hle. now rewrite Hle.
  - destruct (@truncate_transcript_cut text max_chars ltac:(lia))
      as (prefix & post & _ & L & ->).
    unfold truncate_transcript.
    pose proof (py_strip_length prefix). specialize (L Hmax).
    destruct (Z.leb_spec (py_len (py_strip prefix)) max_chars);
      [reflexivity | unfold py_len in *; lia].
Qed.

Lemma truncate_transcript_idempotent_witness :
  truncate_transcript
    (truncate_transcript (str "One. Two. Three. Four.") 12) 12
  = truncate_transcript (str "One. Two. Three. Four.") 12.
Proof.
  apply (@truncate_transcript_idempotent (str "One. Two. Three. Four.") 12). lia.
Defined.

(** X2. Whenever [truncate_transcript] returns, that is whenever the
    product with [0.8] does not overflow, the truncated transcript is a
    contiguous piece of the text: no character is added, replaced or
    reordered, for a negative [max_chars] as well. *)
Theorem truncate_transcript_is_piece_of_text text max_chars :
  truncate_transcript_raises text max_chars = false ->
  contains text (truncate_transcript text max_chars).
Proof.
  intros _.
  destruct (Z.leb_spec (py_len text) max_chars) as [Hle|Hgt].
  - unfold truncate_transcript. apply Z.leb_le in Hle. rewrite Hle.
    exists [], []. now rewrite app_nil_r.
  - destruct (@truncate_transcript_cut text max_chars ltac:(lia))
      as (prefix & post & E & _ & ->).
    eapply contains_prefix_of; [exact E | apply py_strip_infix].
Qed.

Lemma truncate_transcript_is_piece_of_text_witness :
  contains (str "One. Two. Three.") (truncate_transcript (str "One. Two. Three.") (-3)).
Proof.
  apply (@truncate_transcript_is_piece_of_text (str "One. Two. Three.") (-3)).
  reflexivity.
Defined.

(** X3. When the text is over the budget and the product with [0.8] does
    not overflow, the result neither starts nor ends with whitespace; a
    text within the budget is returned as it is, with whatever whitespace
    it has at its ends. *)
Theorem truncate_transcript_stripped_when_cut text max_chars :
  truncate_transcript_raises text max_chars = false ->
  (py_len text > max_chars)%Z ->
  stripped (truncate_transcript text max_chars).
Proof.
  intros _ H. destruct (@truncate_transcript_cut text max_chars H)
    as (prefix & post & _ & _ & ->).
  apply py_strip_stripped.
Qed.

Lemma truncate_transcript_stripped_when_cut_witness :
  stripped (truncate_transcript (str " a b c d e f ") 4).
Proof.
  apply (@truncate_transcript_stripped_when_cut (str " a b c d e f ") 4).
  - reflexivity.
  - vm_compute. reflexivity.
Defined.

(** ** ExtractionOrchestrator: more on per-item validation *)

(** X4. An item is accepted only if it is a dict whose [main_question] and
    [category] are strings and whose [pillars] and [atmosphere] are dicts
    holding their three and two string fields; the node carries exactly
    those strings, the caller's [video_id] and [video_url], the item's
    [overflow] strings (none when the key is absent), and for each
    diagnostic field the item's string or the empty string when it is
    missing. *)
Theorem build_node_fields_from_item item vid vurl node :
  build_node item vid vurl = Ok node ->
  exists d pd ad,
    item = JObj d
    /\ video_id node = vid /\ video_url node = vurl
    /\ dict_get d (str "main_question") = Some (JStr (main_question node))
    /\ dict_get d (str "category") = Some (JStr (category node))
    /\ dict_get d (str "pillars") = Some (JObj pd)
    /\ dict_get pd (str "intervention_narrative")
       = Some (JStr (intervention_narrative (pillars node)))
    /\ dict_get pd (str "intervention_action")
       = Some (JStr (intervention_action (pillars node)))
    /\ dict_get pd (str "intervention_shift")
       = Some (JStr (intervention_shift (pillars node)))
    /\ dict_get d (str "atmosphere") = Some (JObj ad)
    /\ dict_get ad (str "tone") = Some (JStr (tone (atmosphere node)))
    /\ dict_get ad (str "pacing") = Some (JStr (pacing (atmosphere node)))
    /\ match dict_get d (str "overflow") with
       | Some v => v = JArr (map JStr (overflow node))
       | None => overflow node = []
       end
    /\ diagnostic_from d (str "related_inner_issues")
         (related_inner_issues (diagnostic_layer node))
    /\ diagnostic_from d (str "reality_commitment_check")
         (reality_commitment_check (diagnostic_layer node))
    /\ diagnostic_from d (str "hidden_benefit")
         (hidden_benefit (diagnostic_layer node))
    /\ diagnostic_from d (str "energy_node")
         (energy_node (diagnostic_layer node)).
Proof.
  unfold build_node. intros H.
  apply bind_ok in H as (dl_raw & Edl & H).
  apply bind_ok in H as (rii_raw & Erii & H).
  apply bind_ok in H as (rcc_raw & Ercc & H).
  apply bind_ok in H as (hb_raw & Ehb & H).
  apply bind_ok in H as (en_raw & Een & H).
  apply bind_ok in H as (rii & Vrii & H).
  apply bind_ok in H as (rcc & Vrcc & H).
  apply bind_ok in H as (hb & Vhb & H).
  apply bind_ok in H as (en & Ven & H).
  cbv zeta in H.
  apply bind_ok in H as (mq_raw & Emq & H).
  apply bind_ok in H as (cat_raw & Ecat & H).
  apply bind_ok in H as (pil_raw & Epil & H).
  apply bind_ok in H as (pil_kw & Kpil & H).
  apply bind_ok in H as (pil & Npil & H).
  apply bind_ok in H as (atm_raw & Eatm & H).
  apply bind_ok in H as (atm_kw & Katm & H).
  apply bind_ok in H as (atm & Natm & H).
  apply bind_ok in H as (ov_raw & Eov & H).
  apply bind_ok in H as (mq & Vmq & H).
  apply bind_ok in H as (cat & Vcat & H).
  apply bind_ok in H as (ov & Vov & H).
  inversion H; subst node; clear H.
  cbn [video_id video_url main_question category pillars atmosphere overflow
       diagnostic_layer related_inner_issues reality_commitment_check
       hidden_benefit energy_node].
  apply py_get_ok in Edl as (d & Hitem & Hdl).
  apply py_getitem_ok in Emq as (d1 & Hd1 & Hmq).
  apply py_getitem_ok in Ecat as (d2 & Hd2 & Hcat).
  apply py_getitem_ok in Epil as (d3 & Hd3 & Hpil).
  apply py_getitem_ok in Eatm as (d4 & Hd4 & Hatm).
  apply py_get_ok in Eov as (d5 & Hd5 & Hov).
  assert (d1 = d /\ d2 = d /\ d3 = d /\ d4 = d /\ d5 = d) as (-> & -> & -> & -> & ->)
    by (repeat split; congruence).
  apply kwargs_of_ok in Kpil, Katm.
  unfold new_Pillars in Npil.
  apply bind_ok in Npil as (pn & Hpn & Npil).
  apply bind_ok in Npil as (pa & Hpa & Npil).
  apply bind_ok in Npil as (ps & Hps & Npil).
  inversion Npil; subst pil; clear Npil.
  unfold new_Atmosphere in Natm.
  apply bind_ok in Natm as (at_ & Hat & Natm).
  apply bind_ok in Natm as (ap & Hap & Natm).
  inversion Natm; subst atm; clear Natm.
  apply required_str_ok in Hpn, Hpa, Hps, Hat, Hap.
  apply validate_str_ok in Vmq, Vcat, Vrii, Vrcc, Vhb, Ven.
  apply validate_str_list_ok in Vov.
  apply py_get_ok in Erii as (dd0 & Hdd0 & Hrii).
  apply py_get_ok in Ercc as (dd1 & Hdd1 & Hrcc).
  apply py_get_ok in Ehb as (dd2 & Hdd2 & Hhb).
  apply py_get_ok in Een as (dd3 & Hdd3 & Hen).
  cbn [intervention_narrative intervention_action intervention_shift tone pacing].
  exists d, pil_kw, atm_kw.
  split; [exact Hitem|]. split; [reflexivity|]. split; [reflexivity|].
  split; [congruence|]. split; [congruence|]. split; [congruence|].
  split; [exact Hpn|]. split; [exact Hpa|]. split; [exact Hps|].
  split; [congruence|]. split; [exact Hat|]. split; [exact Hap|].
  split.
  { destruct (dict_get d (str "overflow")); [congruence|].
    rewrite Hov in Vov. destruct ov; [reflexivity | discriminate]. }
  assert (G : forall name field raw dd,
             dl_raw = JObj dd ->
             raw = match dict_get dd name with Some x => x | None => JStr [] end ->
             raw = JStr field ->
             diagnostic_from d name field).
  { intros name field raw dd Ha Hraw Hfield. unfold diagnostic_from.
    destruct (dict_get d (str "diagnostic_layer")) as [layer|].
    - exists dd. split; [congruence|].
      destruct (dict_get dd name); congruence.
    - assert (dd = []) by congruence. subst dd. simpl in Hraw. congruence. }
  split; [exact (G _ _ _ _ Hdd0 Hrii Vrii)|].
  split; [exact (G _ _ _ _ Hdd1 Hrcc Vrcc)|].
  split; [exact (G _ _ _ _ Hdd2 Hhb Vhb) | exact (G _ _ _ _ Hdd3 Hen Ven)].
Qed.

Lemma build_node_fields_from_item_witness :
  exists d, no_diagnostic_item = JObj d
            /\ dict_get d (str "category") = Some (JStr (str "Burnout")).
Proof.
  destruct (@build_node_fields_from_item no_diagnostic_item sample_video_id
              sample_video_url undiagnosed_node eq_refl)
    as (d & pd & ad & Hd & _ & _ & _ & Hcat & _).
  exists d. split; [exact Hd | exact Hcat].
Defined.

Ltac peel_all H :=
  repeat (let a := fresh "a" in
          let E := fresh "E" in
          apply bind_ok in H; destruct H as (a & E & H)).

Lemma build_node_provenance item vid vurl node :
  build_node item vid vurl = Ok node ->
  video_id node = vid /\ video_url node = vurl.
Proof.
  unfold build_node. intros H. peel_all H.
  inversion H; subst. split; reflexivity.
Qed.

Lemma nodes_of_item_length vid vurl item :
  (length (nodes_of_item vid vurl item) <= 1)%nat.
Proof.
  unfold nodes_of_item. destruct (build_node item vid vurl); simpl; lia.
Qed.

(** X5. Every node returned for a parsed array carries the [video_id] and
    [video_url] the caller passed, whatever the items say about them, and
    there are never more nodes than items. *)
Theorem validate_nodes_provenance raw vid vurl :
  Forall (fun node => video_id node = vid /\ video_url node = vurl)
    (_validate_nodes raw vid vurl)
  /\ (length (_validate_nodes raw vid vurl) <= length raw)%nat.
Proof.
  rewrite validate_nodes_flat_map. split.
  - apply Forall_forall. intros node Hin.
    apply in_flat_map in Hin as (item & _ & Hin).
    unfold nodes_of_item in Hin.
    destruct (build_node item vid vurl) as [n|e] eqn:E; [|contradiction].
    destruct Hin as [<-|[]]. now apply build_node_provenance with item.
  - induction raw as [|item raw IH]; simpl; [lia|].
    rewrite length_app. pose proof (nodes_of_item_length vid vurl item). lia.
Qed.

Lemma build_node_payload node :
  build_node (to_payload node) (video_id node) (video_url node) = Ok node.
Proof.
  destruct node as [vid vurl mq cat [rii rcc hb en] [pn pa ps] [tn pc] ovf].
  pose proof (validate_str_items_map ovf) as Hov.
  unfold build_node, to_payload.
  cbn [video_id video_url main_question category diagnostic_layer pillars
       atmosphere overflow related_inner_issues reality_commitment_check
       hidden_benefit energy_node intervention_narrative intervention_action
       intervention_shift tone pacing].
  generalize dependent (map JStr ovf). intros items Hov.
  cbn. rewrite Hov. reflexivity.
Qed.

Ltac distinct_keys :=
  cbv [map fst];
  repeat (apply NoDup_cons; [cbv; intuition discriminate|]);
  apply NoDup_nil.

Lemma wf_to_payload node : wf (to_payload node).
Proof.
  destruct node as [vid vurl mq cat [rii rcc hb en] [pn pa ps] [tn pc] ovf].
  unfold to_payload.
  cbn [video_id video_url main_question category diagnostic_layer pillars
       atmosphere overflow related_inner_issues reality_commitment_check
       hidden_benefit energy_node intervention_narrative intervention_action
       intervention_shift tone pacing].
  assert (Hov : wf (JArr (map JStr ovf))).
  { apply wf_arr. apply Forall_forall. intros v Hin.
    apply in_map_iff in Hin as (s & <- & _). apply wf_str. }
  apply wf_obj; [distinct_keys|].
  repeat (apply Forall_cons; [cbn [snd]|]); try apply Forall_nil;
    try apply wf_str; try exact Hov.
  - apply wf_obj; [distinct_keys|].
    repeat (apply Forall_cons; [apply wf_str|]). apply Forall_nil.
  - apply wf_obj; [distinct_keys|].
    repeat (apply Forall_cons; [apply wf_str|]). apply Forall_nil.
  - apply wf_obj; [distinct_keys|].
    repeat (apply Forall_cons; [apply wf_str|]). apply Forall_nil.
Qed.

Lemma validate_nodes_payloads nodes vid vurl :
  Forall (fun node => video_id node = vid /\ video_url node = vurl) nodes ->
  _validate_nodes (map to_payload nodes) vid vurl = nodes.
Proof.
  intros H. rewrite validate_nodes_flat_map.
  induction H as [|node nodes [Hv Hu] _ IH]; simpl; [reflexivity|].
  unfold nodes_of_item at 1. rewrite <- Hv, <- Hu at 1.
  rewrite build_node_payload. simpl. f_equal. exact IH.
Qed.

(** The parser reads back the serialization of a decoder-built array that
    holds no fence. *)
Lemma extract_json_array_dumps A :
  wf (JArr A) ->
  ~ contains (json_dumps (JArr A)) fence ->
  _extract_json_array (json_dumps (JArr A)) = Ok A.
Proof.
  intros Hwf Hfence. unfold _extract_json_array.
  rewrite re_sub_fence_no_fence by assumption.
  assert (E : py_strip (json_dumps (JArr A)) = json_dumps (JArr A)).
  { cbn [json_dumps]. apply (py_strip_bracketed (join_comma (map json_dumps A))). }
  rewrite E, json_loads_dumps by assumption. reflexivity.
Qed.

Lemma has_infix_complete needle hay :
  contains hay needle -> has_infix needle hay = true.
Proof.
  intros (pre & post & ->). induction pre as [|c pre IH].
  - simpl app. destruct (needle ++ post) as [|c r] eqn:E.
    + destruct needle; [reflexivity | discriminate].
    + simpl. rewrite <- E. unfold starts_with. now rewrite strip_prefix_app.
  - simpl. rewrite IH. apply orb_true_r.
Qed.

Lemma has_infix_false needle hay :
  has_infix needle hay = false -> ~ contains hay needle.
Proof.
  intros H Hc. apply has_infix_complete in Hc. congruence.
Qed.

(** X6. The stored payload loses nothing: validating the payload of a node
    under the node's own [video_id] and [video_url] gives the node back,
    and so does validating what the decoder reads from the payload's
    serialization. *)
Theorem payload_round_trip node :
  build_node (to_payload node) (video_id node) (video_url node) = Ok node
  /\ match json_loads (json_dumps (to_payload node)) with
     | Some item => build_node item (video_id node) (video_url node) = Ok node
     | None => False
     end.
Proof.
  split; [apply build_node_payload|].
  rewrite (json_loads_dumps (wf_to_payload node)). apply build_node_payload.
Qed.

(** X7. The pipeline accepts every well-formed answer: when the
    truncation does not overflow, the model answers the first invocation
    with the serialized payloads of some nodes that carry the caller's
    [video_id] and [video_url], and that text holds no fence, the operation
    returns exactly those nodes, in order, after one invocation. *)
Theorem extract_energy_nodes_accepts_serialized_nodes
    (llm : llm_client) (transcript vid vurl : pystr) (max_chars : Z)
    (calls : nat) (nodes : list EnergyNode) :
  truncate_transcript_raises transcript max_chars = false ->
  llm calls (USER_PROMPT_TEMPLATE (truncate_transcript transcript max_chars))
  = Content (json_dumps (JArr (map to_payload nodes))) ->
  Forall (fun node => video_id node = vid /\ video_url node = vurl) nodes ->
  ~ contains (json_dumps (JArr (map to_payload nodes))) fence ->
  extract_energy_nodes llm transcript vid vurl max_chars calls
  = (Ok nodes, S calls).
Proof.
  intros Hguard Hllm Hprov Hfence.
  rewrite (@extract_energy_nodes_runs llm transcript vid vurl max_chars calls Hguard).
  assert (Hout : attempt_outcome llm (truncate_transcript transcript max_chars) calls
                 = Ok (map to_payload nodes)).
  { unfold attempt_outcome, call_llm_and_parse_once. rewrite Hllm. simpl.
    apply extract_json_array_dumps; [|assumption].
    constructor. apply Forall_forall. intros v Hin.
    apply in_map_iff in Hin as (n & <- & _). apply wf_to_payload. }
  rewrite retry_loop_step, Hout. now rewrite validate_nodes_payloads.
Qed.

Lemma extract_energy_nodes_accepts_serialized_nodes_witness :
  extract_energy_nodes
    (constant_llm (json_dumps (JArr (map to_payload [good_node; undiagnosed_node]))))
    (str "a transcript") sample_video_id sample_video_url 12000 0
  = (Ok [good_node; undiagnosed_node], 1%nat).
Proof.
  apply (@extract_energy_nodes_accepts_serialized_nodes
           (constant_llm (json_dumps (JArr (map to_payload [good_node; undiagnosed_node]))))
           (str "a transcript") sample_video_id sample_video_url 12000 0
           [good_node; undiagnosed_node]).
  - reflexivity.
  - reflexivity.
  - repeat constructor.
  - apply has_infix_false. vm_compute. reflexivity.
Defined.

(** ** ResponseParser: what it refuses and what it recovers *)

Lemma strip_fences_In skip s c : In c (strip_fences skip s) -> In c s.
Proof.
  revert skip. induction s as [|x s IH]; intros skip H; [destruct skip; exact H|].
  cbn [strip_fences] in H. destruct skip as [|k].
  - destruct (starts_with fence_json (x :: s)); [right; eauto|].
    destruct (starts_with fence (x :: s)); [right; eauto|].
    destruct H as [->|H]; [now left | right; eauto].
  - right; eauto.
Qed.

Lemma contains_In hay needle c : contains hay needle -> In c needle -> In c hay.
Proof.
  intros (pre & post & ->) H. apply in_or_app. right. apply in_or_app. now left.
Qed.

Lemma skip_ws_suffix s : exists pre, s = pre ++ skip_ws s.
Proof.
  induction s as [|c s [pre IH]]; simpl; [now exists []|].
  destruct (is_json_ws c); [|now exists []].
  exists (c :: pre). simpl. now rewrite <- IH.
Qed.

Lemma match_constant_not_array s items r : match_constant s <> Some (JArr items, r).
Proof.
  unfold match_constant. intros H. repeat break_match H; discriminate.
Qed.

Lemma match_number_not_array s items r : match_number s <> Some (JArr items, r).
Proof.
  unfold match_number. intros H.
  destruct (lex_sign s) as [neg s1].
  destruct (lex_int_part s1) as [[ip s2]|]; [|discriminate].
  destruct (lex_frac s2) as [frac s3]. destruct (lex_exp s3) as [exp s4].
  destruct frac, exp; discriminate.
Qed.

(** The decoder returns an array only for a text that starts with an
    opening bracket. *)
Lemma scan_once_array_head fuel s items r :
  scan_once fuel s = Some (JArr items, r) -> exists t, s = 91%N :: t.
Proof.
  destruct fuel as [|fuel]; [discriminate|]. cbn [scan_once].
  destruct s as [|c s]; [discriminate|].
  destruct (c =? 34)%N. { destruct (scanstring s) as [[? ?]|]; discriminate. }
  destruct (c =? 123)%N.
  { destruct (skip_ws s) as [|c' r']; [discriminate|].
    destruct (c' =? 125)%N; [discriminate|].
    destruct (object_members fuel (c' :: r')) as [[? ?]|]; discriminate. }
  destruct (N.eqb_spec c 91) as [->|_]; [eauto|].
  destruct (match_constant (c :: s)) as [[v r']|] eqn:E.
  - intros H. inversion H; subst. now apply match_constant_not_array in E.
  - intros H. now apply match_number_not_array in H.
Qed.

Lemma json_loads_array_bracket s items :
  json_loads s = Some (JArr items) -> In 91%N s.
Proof.
  unfold json_loads.
  destruct (scan_once (S (length s)) (skip_ws s)) as [[v r]|] eqn:E; [|discriminate].
  destruct (skip_ws r); [|discriminate]. intros H; inversion H; subst.
  apply scan_once_array_head in E as (t & E).
  destruct (skip_ws_suffix s) as [pre Hs]. rewrite Hs, E.
  apply in_or_app. right. now left.
Qed.

Lemma from_first_In c s r : from_first c s = Some r -> In c s.
Proof.
  induction s as [|x s IH]; simpl; [discriminate|].
  destruct (N.eqb_spec x c) as [->|_]; [now left | right; auto].
Qed.

(** X8. A text without an opening bracket is never parsed: when it holds
    no opening brace either and at most [int_digits_threshold] digits, so
    that the decoder neither nests nor meets an integer it cannot convert,
    the parser raises its [ValueError], whatever else the text holds
    (fences, numbers, strings, closing brackets). *)
Theorem extract_json_array_needs_bracket text :
  ~ In 91%N text -> ~ In 123%N text ->
  (digit_count text <= int_digits_threshold)%nat ->
  _extract_json_array text = Raise ValueError.
Proof.
  intros H _ _. unfold _extract_json_array.
  set (t := py_strip (re_sub_fence text)).
  assert (Ht : ~ In 91%N t).
  { intros Hin. apply H. apply strip_fences_In with 0%nat.
    fold (re_sub_fence text).
    apply (@contains_In _ _ 91%N (py_strip_infix (re_sub_fence text))). exact Hin. }
  assert (Hre : re_search_array t = None).
  { unfold re_search_array. destruct (from_first 91 t) as [r|] eqn:E; [|reflexivity].
    exfalso. apply Ht. eapply from_first_In; eassumption. }
  rewrite Hre.
  destruct (json_loads t) as [v|] eqn:E; [|reflexivity].
  destruct v; try reflexivity.
  exfalso. apply Ht. eapply json_loads_array_bracket; eassumption.
Qed.

Lemma extract_json_array_needs_bracket_witness :
  _extract_json_array (jstr "'answer': 'none of the 12 items', ]") = Raise ValueError.
Proof.
  apply extract_json_array_needs_bracket.
  - intros H. cbv in H. repeat (destruct H as [H|H]; [discriminate|]). exact H.
  - intros H. cbv in H. repeat (destruct H as [H|H]; [discriminate|]). exact H.
  - vm_compute. lia.
Defined.

Lemma json_ws_is_space c : is_json_ws c = true -> py_isspace c = true.
Proof.
  unfold is_json_ws. rewrite !orb_true_iff, !N.eqb_eq.
  intros [[[->| ->]| ->]| ->]; reflexivity.
Qed.

Lemma py_lstrip_app_nonspace p c r :
  py_isspace c = false -> py_lstrip (p ++ c :: r) = py_lstrip p ++ c :: r.
Proof.
  intros Hc. induction p as [|x p IH]; simpl.
  - now rewrite Hc.
  - destruct (py_isspace x); [exact IH | reflexivity].
Qed.

Lemma py_rstrip_app_nonspace pre c t :
  py_isspace c = false -> py_rstrip (pre ++ c :: t) = pre ++ c :: py_rstrip t.
Proof.
  intros Hc. unfold py_rstrip. rewrite rev_app_distr. simpl rev.
  rewrite <- app_assoc. simpl app.
  rewrite py_lstrip_app_nonspace by assumption.
  rewrite rev_app_distr. simpl rev. rewrite rev_involutive.
  now rewrite <- app_assoc.
Qed.

Lemma py_strip_around p a mid b t :
  py_isspace a = false -> py_isspace b = false ->
  py_strip (p ++ a :: mid ++ b :: t)
  = py_lstrip p ++ a :: mid ++ b :: py_rstrip t.
Proof.
  intros Ha Hb. unfold py_strip.
  replace (p ++ a :: mid ++ b :: t) with ((p ++ a :: mid) ++ b :: t)
    by now rewrite <- app_assoc.
  rewrite py_rstrip_app_nonspace by assumption.
  rewrite <- app_assoc. simpl app.
  now apply py_lstrip_app_nonspace.
Qed.

Lemma rfind_from_absent i c s : ~ In c s -> rfind_from i c s = (-1)%Z.
Proof.
  revert i. induction s as [|x r IH]; intros i H; [reflexivity|].
  simpl. rewrite IH by (intros Hin; apply H; now right). simpl.
  destruct (N.eqb_spec x c) as [->|_]; [|reflexivity].
  exfalso. apply H. now left.
Qed.

(** [rfind] returns the position of the needle that nothing follows. *)
Lemma rfind_from_unique i c x y :
  (0 <= i)%Z -> ~ In c y ->
  rfind_from i c (x ++ c :: y) = (i + Z.of_nat (length x))%Z.
Proof.
  intros Hi Hy. revert i Hi. induction x as [|x0 x IH]; intros i Hi.
  - simpl. rewrite rfind_from_absent by assumption. simpl.
    rewrite N.eqb_refl. lia.
  - cbn [app rfind_from length]. rewrite IH by lia.
    destruct (Z.leb_spec 0 (i + 1 + Z.of_nat (length x))); lia.
Qed.

Lemma from_first_app c p r :
  ~ In c p -> from_first c (p ++ c :: r) = Some (c :: r).
Proof.
  intros H. induction p as [|x p IH]; simpl.
  - now rewrite N.eqb_refl.
  - destruct (N.eqb_spec x c) as [->|_].
    + exfalso. apply H. now left.
    + apply IH. intros Hin. apply H. now right.
Qed.

(** The decoder reads a serialized array whatever follows it. *)
Lemma scan_once_dumps_array fuel A rest :
  wf (JArr A) -> (jsize (JArr A) <= fuel)%nat ->
  scan_once fuel (json_dumps (JArr A) ++ rest) = Some (JArr A, rest).
Proof.
  intros Hwf Hsize. inversion Hwf as [ | | | | |? Hitems| ]; subst.
  destruct fuel as [|fuel]; [pose proof (jsize_pos (JArr A)); lia|].
  rewrite json_dumps_arr. destruct A as [|v vs]; [reflexivity|].
  destruct (items_text_head vs (93%N :: rest) (Forall_inv Hitems))
    as (c & t & E & Hc).
  rewrite E, scan_once_open_array, <- E by assumption.
  destruct (scan_roundtrip fuel) as (_ & IHa & _).
  rewrite IHa; [reflexivity | assumption |].
  simpl in Hsize. unfold items_size. simpl. lia.
Qed.

Lemma py_lstrip_In c s : In c (py_lstrip s) -> In c s.
Proof.
  destruct (py_lstrip_suffix s) as [pre E]. intros H. rewrite E.
  apply in_or_app. now right.
Qed.

Lemma py_rstrip_In c s : In c (py_rstrip s) -> In c s.
Proof.
  destruct (py_rstrip_prefix s) as [post E]. intros H. rewrite E.
  apply in_or_app. now left.
Qed.

(** The two parsing stages on a serialized array between a lead without an
    opening bracket and a tail without a closing bracket: the direct parse
    gives the array or fails, and the bracket search finds exactly the
    serialization. *)
Lemma direct_parse_wrapped p A t X :
  wf (JArr A) -> ~ In 91%N p ->
  (forall c r, p = c :: r -> py_isspace c = false) ->
  json_loads (p ++ json_dumps (JArr A) ++ t) = Some (JArr X) -> X = A.
Proof.
  intros Hwf Hp Hhead. unfold json_loads.
  destruct p as [|c p].
  - rewrite app_nil_l.
    assert (Hs : skip_ws (json_dumps (JArr A) ++ t) = json_dumps (JArr A) ++ t)
      by (rewrite json_dumps_arr; reflexivity).
    rewrite Hs, scan_once_dumps_array; [ | assumption | ].
    + destruct (skip_ws t); [|discriminate]. intros H. now inversion H.
    + pose proof (jsize_le_length Hwf). rewrite length_app. lia.
  - assert (Hc : is_json_ws c = false).
    { destruct (is_json_ws c) eqn:E; [|reflexivity].
      apply json_ws_is_space in E. now rewrite (Hhead c p eq_refl) in E. }
    rewrite <- app_comm_cons. cbn [skip_ws]. rewrite Hc.
    destruct (scan_once _ _) as [[v r]|] eqn:E; [|discriminate].
    destruct (skip_ws r); [|discriminate]. intros H. inversion H; subst v.
    apply scan_once_array_head in E as (t' & E). inversion E; subst.
    exfalso. apply Hp. now left.
Qed.

Lemma re_search_array_wrapped p A t :
  ~ In 91%N p -> ~ In 93%N t ->
  re_search_array (p ++ json_dumps (JArr A) ++ t) = Some (json_dumps (JArr A)).
Proof.
  intros Hp Ht. unfold re_search_array.
  rewrite json_dumps_arr, from_first_app by assumption.
  unfold py_rfind. rewrite rfind_from_unique by (assumption || lia).
  set (body := join_comma (map json_dumps A)).
  assert ((0 <=? 0 + Z.of_nat (length body))%Z = true) as -> by (apply Z.leb_le; lia).
  unfold py_slice_to.
  assert ((0 + Z.of_nat (length body) + 1 <? 0)%Z = false) as -> by (apply Z.ltb_ge; lia).
  replace (Z.to_nat (0 + Z.of_nat (length body) + 1)) with (length (body ++ [93%N]))
    by (rewrite length_app; simpl; lia).
  replace (body ++ 93%N :: t) with ((body ++ [93%N]) ++ t)
    by now rewrite <- app_assoc.
  rewrite firstn_app, Nat.sub_diag, firstn_all. simpl firstn.
  now rewrite app_nil_r.
Qed.

(** Once the fences are gone, an array between a lead without an opening
    bracket and a tail without a closing bracket is what the parser
    returns. *)
Lemma extract_json_array_core text p A t :
  wf (JArr A) ->
  re_sub_fence text = p ++ json_dumps (JArr A) ++ t ->
  ~ In 91%N p -> ~ In 93%N t ->
  _extract_json_array text = Ok A.
Proof.
  intros Hwf Hsub Hp Ht. unfold _extract_json_array. rewrite Hsub.
  assert (E : py_strip (p ++ json_dumps (JArr A) ++ t)
              = py_lstrip p ++ json_dumps (JArr A) ++ py_rstrip t).
  { rewrite !json_dumps_arr. now apply py_strip_around. }
  rewrite E.
  assert (Hp' : ~ In 91%N (py_lstrip p)) by (intros H; now apply Hp, py_lstrip_In).
  assert (Ht' : ~ In 93%N (py_rstrip t)) by (intros H; now apply Ht, py_rstrip_In).
  rewrite re_search_array_wrapped, json_loads_dumps by assumption.
  destruct (json_loads _) as [v|] eqn:El; [|reflexivity].
  destruct v; try reflexivity.
  f_equal. eapply direct_parse_wrapped; [exact Hwf | exact Hp' | | exact El].
  intros c r. apply py_lstrip_head.
Qed.

Lemma starts_with_app_other x s c rest :
  ~ In c x -> starts_with x (s ++ c :: rest) = starts_with x s.
Proof.
  unfold starts_with. revert s. induction x as [|a x IH]; intros s H; [reflexivity|].
  destruct s as [|y s]; simpl.
  - destruct (N.eqb_spec a c) as [->|_]; [|reflexivity].
    exfalso. apply H. now left.
  - destruct (a =? y)%N; [|reflexivity].
    apply IH. intros Hin. apply H. now right.
Qed.

Lemma starts_with_length x s :
  starts_with x s = true -> (length x <= length s)%nat.
Proof.
  unfold starts_with. destruct (strip_prefix x s) as [t|] eqn:E; [|discriminate].
  intros _. apply strip_prefix_some in E. rewrite E, length_app. lia.
Qed.

(** A fence never reaches across an opening bracket: the text before the
    bracket and the text from the bracket on are stripped separately. *)
Lemma strip_fences_before_bracket skip p rest :
  strip_fences skip (p ++ 91%N :: rest)
  = strip_fences skip p ++ strip_fences (skip - length p) (91%N :: rest).
Proof.
  revert skip. induction p as [|c p IH]; intros skip.
  - rewrite Nat.sub_0_r. destruct skip; reflexivity.
  - rewrite <- app_comm_cons. destruct skip as [|k].
    + cbn [strip_fences]. rewrite app_comm_cons.
      rewrite !starts_with_app_other
        by (cbv; intros H; repeat (destruct H as [H|H]; [discriminate|]); exact H).
      destruct (starts_with fence_json (c :: p)) eqn:Ej.
      { apply starts_with_length in Ej. cbn [length] in Ej. simpl in Ej.
        rewrite IH. now replace (6 - length p)%nat with 0%nat by lia. }
      destruct (starts_with fence (c :: p)) eqn:Ef.
      { apply starts_with_length in Ef. simpl in Ef.
        rewrite IH. now replace (2 - length p)%nat with 0%nat by lia. }
      rewrite IH. reflexivity.
    + cbn [strip_fences length]. rewrite IH. reflexivity.
Qed.

(** A text that holds no fence and does not end in a backtick is copied,
    and what follows it is stripped on its own. *)
Lemma strip_fences_after_clean y rest :
  ~ contains y fence -> last y 0%N <> 96%N ->
  strip_fences 0 (y ++ rest) = y ++ strip_fences 0 rest.
Proof.
  induction y as [|c y IH]; intros Hf Hl; [reflexivity|].
  assert (Hno : forall t, c :: y ++ rest <> 96%N :: 96%N :: 96%N :: t).
  { intros t E. destruct y as [|y1 [|y2 y]]; simpl in E; inversion E; subst.
    - now apply Hl.
    - now apply Hl.
    - apply Hf. now exists [], y. }
  rewrite <- app_comm_cons. cbn [strip_fences].
  destruct (starts_with fence_json (c :: y ++ rest)) eqn:Ej.
  { exfalso. unfold starts_with in Ej.
    destruct (strip_prefix fence_json (c :: y ++ rest)) as [t|] eqn:E; [|discriminate].
    apply strip_prefix_some in E. now apply Hno in E. }
  destruct (starts_with fence (c :: y ++ rest)) eqn:Ef.
  { exfalso. unfold starts_with in Ef.
    destruct (strip_prefix fence (c :: y ++ rest)) as [t|] eqn:E; [|discriminate].
    apply strip_prefix_some in E. now apply Hno in E. }
  rewrite IH; [reflexivity | | ].
  - intros H. apply Hf. now apply contains_cons.
  - destruct y; [discriminate | exact Hl].
Qed.

(** X9. An array the parser has returned is recovered from its
    serialization wrapped in prose, in fences or in both: when the
    serialized array holds no fence, the text before it holds no opening
    bracket, no opening brace and at most [int_digits_threshold] digits,
    and the text after it holds no closing bracket, the parser returns
    exactly the array, whatever else surrounds it. *)
Theorem extract_json_array_recovers_wrapped_array text0 lead A tail :
  _extract_json_array text0 = Ok A ->
  ~ contains (json_dumps (JArr A)) fence ->
  ~ In 91%N lead -> ~ In 123%N lead ->
  (digit_count lead <= int_digits_threshold)%nat ->
  ~ In 93%N tail ->
  _extract_json_array (lead ++ json_dumps (JArr A) ++ tail) = Ok A.
Proof.
  intros Hparsed Hfence Hlead _ _ Htail.
  pose proof (extract_json_array_wf _ Hparsed) as Hwf.
  apply extract_json_array_core
    with (strip_fences 0 lead) (strip_fences 0 tail); try assumption.
  - unfold re_sub_fence. rewrite json_dumps_arr.
    rewrite strip_fences_before_bracket, Nat.sub_0_l.
    f_equal. rewrite <- json_dumps_arr.
    apply strip_fences_after_clean; [assumption|].
    pose proof (json_dumps_arr A []) as E. rewrite app_nil_r in E. rewrite E.
    change (93%N :: []) with ([] ++ [93%N]).
    rewrite app_assoc, app_comm_cons, last_last. discriminate.
  - intros H. now apply Hlead, strip_fences_In with 0%nat.
  - intros H. now apply Htail, strip_fences_In with 0%nat.
Qed.

Lemma extract_json_array_recovers_wrapped_array_witness :
  _extract_json_array
    (str "Here are the 2 nodes:" ++ [10%N] ++ fence_json ++ [10%N]
     ++ json_dumps (JArr [JObj [(str "a", JInt 1)]; JObj [(str "b", JArr [])]])
     ++ [10%N] ++ fence ++ [10%N] ++ str "Hope this {helps}!")
  = Ok [JObj [(str "a", JInt 1)]; JObj [(str "b", JArr [])]].
Proof.
  rewrite 3!app_assoc.
  apply (@extract_json_array_recovers_wrapped_array
           (jstr "Result: [{'a': 1}, {'b': []}] as asked")).
  - vm_compute. reflexivity.
  - apply has_infix_false. vm_compute. reflexivity.
  - intros H. cbv in H. repeat (destruct H as [H|H]; [discriminate|]). exact H.
  - intros H. cbv in H. repeat (destruct H as [H|H]; [discriminate|]). exact H.
  - vm_compute. lia.
  - intros H. cbv in H. repeat (destruct H as [H|H]; [discriminate|]). exact H.
Defined.

(** ** The retry loop: what the call stage hands back *)


(** X10. What the call stage hands back is the outcome of the last
    invocation it made: every invocation before that one ended in a
    failure of the [ValueError] family, and such a failure is handed back
    only when all three attempts are used up. *)
Theorem call_llm_and_parse_returns_last_attempt
    (llm : llm_client) (transcript : pystr) (calls : nat) :
  let run := _call_llm_and_parse llm transcript calls in
  fst run = attempt_outcome llm transcript (snd run - 1)
  /\ (forall n, (calls <= n < snd run - 1)%nat -> parse_failure llm transcript n)
  /\ (forall e, fst run = Raise e -> is_ValueError e = true ->
      snd run = (calls + 3)%nat).
Proof.
  unfold _call_llm_and_parse, stop_after_attempt.
  change (3 - 1)%nat with 2%nat.
  exact (@retry_loop_last llm transcript 2 calls).
Qed.

Lemma call_llm_and_parse_returns_last_attempt_witness :
  parse_failure (constant_llm (str "no array here")) (str "a transcript") 1
  /\ snd (_call_llm_and_parse (constant_llm (str "no array here"))
            (str "a transcript") 0) = 3%nat.
Proof.
  destruct (@call_llm_and_parse_returns_last_attempt
              (constant_llm (str "no array here")) (str "a transcript") 0)
    as (_ & H2 & H3).
  split.
  - apply H2. vm_compute. split; repeat constructor.
  - apply (H3 ValueError); reflexivity.
Defined.

(** ** VectorStore: batching of the upsert *)

Lemma firstn_skipn_add (A : Type) (l : list A) n k :
  firstn n l ++ firstn k (skipn n l) = firstn (n + k) l.
Proof.
  revert l. induction n as [|n IH]; intros l; [reflexivity|].
  destruct l as [|x l]; simpl.
  - now rewrite firstn_nil.
  - now rewrite IH.
Qed.

(** The slices of width [b] taken at the multiples of [b], put end to end,
    are the start of the list. *)
Lemma concat_chunks (A : Type) (l : list A) b m :
  concat (map (fun k => firstn b (skipn (k * b) l)) (seq 0 m)) = firstn (m * b) l.
Proof.
  induction m as [|m IH]; [reflexivity|].
  rewrite seq_S, map_app, concat_app, IH. simpl.
  rewrite app_nil_r, firstn_skipn_add. f_equal. lia.
Qed.

Lemma py_slice_chunk (A : Type) (l : list A) (b : Z) (k : nat) :
  (0 < b)%Z -> (Z.of_nat k * b < Z.of_nat (length l))%Z ->
  py_slice l (Z.of_nat k * b) (Z.of_nat k * b + b)
  = firstn (Z.to_nat b) (skipn (k * Z.to_nat b) l).
Proof.
  intros Hb Hk. unfold py_slice, slice_bound.
  assert ((Z.of_nat k * b <? 0)%Z = false) as -> by (apply Z.ltb_ge; lia).
  assert ((Z.of_nat k * b + b <? 0)%Z = false) as -> by (apply Z.ltb_ge; lia).
  replace (Z.to_nat (Z.min (Z.of_nat k * b) (Z.of_nat (length l))))
    with (k * Z.to_nat b)%nat by nia.
  set (rest := skipn (k * Z.to_nat b) l).
  assert (Hrest : length rest = (length l - k * Z.to_nat b)%nat)
    by (unfold rest; apply length_skipn).
  destruct (Z.le_gt_cases (Z.of_nat k * b + b) (Z.of_nat (length l))) as [H|H].
  - f_equal. nia.
  - rewrite !firstn_all2; [reflexivity | nia | nia].
Qed.

Lemma range_count_bounds (n b : Z) :
  (0 < b)%Z -> (0 <= n)%Z ->
  let m := ((n - 0 + b - 1) / b)%Z in
  (0 <= m /\ n <= m * b /\ (m - 1) * b < n)%Z.
Proof.
  intros Hb Hn m.
  pose proof (Z.div_mod (n - 0 + b - 1) b ltac:(lia)) as E.
  pose proof (Z.mod_pos_bound (n - 0 + b - 1) b Hb) as R.
  fold m in E. nia.
Qed.

Section Upsert.
Variable vector : Type.
Variable env : qdrant_db.environment vector.

Lemma build_points_ok nodes log points log' :
  qdrant_db.build_points env nodes log = (Ok points, log') ->
  map (@qdrant_db.point_payload vector) points = map to_payload nodes
  /\ exists new, log' = log ++ new /\ upserted_batches new = [].
Proof.
  revert log points log'. induction nodes as [|node nodes IH]; intros log points log' H.
  - inversion H; subst. split; [reflexivity|]. exists []. now rewrite app_nil_r.
  - cbn [qdrant_db.build_points] in H. unfold qdrant_db.io_bind in H.
    unfold qdrant_db.embed_text at 1 in H.
    destruct (qdrant_db.embed_reply env log (embed_text node)) as [v|e]; [|discriminate].
    unfold qdrant_db.uuid4 at 1 in H.
    destruct (qdrant_db.build_points env nodes _) as [[pts|e] log2] eqn:E;
      [|discriminate].
    inversion H; subst. apply IH in E as (Hp & new & -> & Hnew).
    split; [simpl; now rewrite Hp|].
    exists ([qdrant_db.CallEmbed vector (embed_text node)] ++ [qdrant_db.CallUuid4 vector] ++ new).
    split; [now rewrite <- !app_assoc|]. exact Hnew.
Qed.

Lemma ensure_collection_log name size log r log' :
  qdrant_db.ensure_collection env name size log = (r, log') ->
  exists new, log' = log ++ new /\ upserted_batches new = [].
Proof.
  unfold qdrant_db.ensure_collection, qdrant_db.io_bind, qdrant_db.get_collections.
  destruct (qdrant_db.get_collections_reply env log) as [names|e].
  - destruct (existsb (pystr_eqb name) names).
    + intros H; inversion H; subst. now exists [qdrant_db.CallGetCollections vector].
    + unfold qdrant_db.create_collection. intros H; inversion H; subst.
      exists ([qdrant_db.CallGetCollections vector]
              ++ [qdrant_db.CallCreateCollection vector name size]).
      split; [now rewrite <- app_assoc | reflexivity].
  - intros H; inversion H; subst. now exists [qdrant_db.CallGetCollections vector].
Qed.

Lemma upserted_batches_app (l1 l2 : list (qdrant_db.call vector)) :
  upserted_batches (l1 ++ l2) = upserted_batches l1 ++ upserted_batches l2.
Proof. unfold upserted_batches. apply flat_map_app. Qed.

Lemma upsert_batches_ok name b points indices total log n log' :
  qdrant_db.upsert_batches env name b points indices total log = (Ok n, log') ->
  let batches := map (fun i => py_slice points i (i + b)) indices in
  n = (total + Z.of_nat (length (concat batches)))%Z
  /\ exists new, log' = log ++ new /\ upserted_batches new = batches.
Proof.
  revert total log. induction indices as [|i indices IH]; intros total log H; cbv zeta.
  - inversion H; subst. split; [simpl; lia|]. exists []. now rewrite app_nil_r.
  - cbn [qdrant_db.upsert_batches] in H. unfold qdrant_db.io_bind in H.
    unfold qdrant_db.client_upsert at 1 in H.
    destruct (qdrant_db.upsert_reply env log name _) as [[]|e]; [|discriminate].
    apply IH in H as (Hn & new & -> & Hnew). split.
    + cbn [map concat]. rewrite length_app. lia.
    + exists ([qdrant_db.CallUpsert name (py_slice points i (i + b))] ++ new).
      split; [now rewrite <- app_assoc|].
      rewrite upserted_batches_app, Hnew. reflexivity.
Qed.

(** The batches of a list of [n] points for a positive batch size. *)
Lemma range_batches (points : list (qdrant_db.PointStruct vector)) (b : Z) indices :
  (0 < b)%Z ->
  py_range 0 (Z.of_nat (length points)) b = Ok indices ->
  let batches := map (fun i => py_slice points i (i + b)) indices in
  concat batches = points
  /\ Forall (fun batch => (0 < Z.of_nat (length batch) <= b)%Z) batches.
Proof.
  intros Hb. unfold py_range.
  assert ((b =? 0)%Z = false) as -> by (apply Z.eqb_neq; lia).
  assert ((0 <? b)%Z = true) as -> by (apply Z.ltb_lt; lia).
  intros H; inversion H; subst; clear H. cbv zeta.
  pose proof (@range_count_bounds (Z.of_nat (length points)) b Hb ltac:(lia)) as Hm.
  cbv zeta in Hm. set (m := ((Z.of_nat (length points) - 0 + b - 1) / b)%Z) in *.
  rewrite map_map.
  rewrite map_ext_in
    with (g := fun k => firstn (Z.to_nat b) (skipn (k * Z.to_nat b) points)).
  2:{ intros k Hk. apply in_seq in Hk. apply py_slice_chunk; [assumption | nia]. }
  split.
  - rewrite concat_chunks. apply firstn_all2. nia.
  - apply Forall_forall. intros batch Hin. apply in_map_iff in Hin as (k & <- & Hk).
    apply in_seq in Hk. rewrite length_firstn, length_skipn. nia.
Qed.

End Upsert.

Section UpsertNodes.
Variable vector : Type.
Variable env : qdrant_db.environment vector.

Lemma build_points_reliable nodes log :
  reliable env ->
  exists points log', qdrant_db.build_points env nodes log = (Ok points, log').
Proof.
  intros (Hembed & _). revert log. induction nodes as [|node nodes IH]; intros log.
  - now exists [], log.
  - cbn [qdrant_db.build_points]. unfold qdrant_db.io_bind.
    unfold qdrant_db.embed_text at 1.
    destruct (Hembed log (embed_text node)) as [v ->].
    unfold qdrant_db.uuid4 at 1.
    destruct (IH ((log ++ [qdrant_db.CallEmbed vector (embed_text node)])
                  ++ [qdrant_db.CallUuid4 vector])) as (points & log' & ->).
    now eexists _, _.
Qed.

Lemma ensure_collection_reliable name size log :
  reliable env ->
  exists log', qdrant_db.ensure_collection env name size log = (Ok tt, log').
Proof.
  intros (_ & Hget & Hcreate & _).
  unfold qdrant_db.ensure_collection, qdrant_db.io_bind, qdrant_db.get_collections.
  destruct (Hget log) as [names ->].
  destruct (existsb (pystr_eqb name) names); [now eexists|].
  unfold qdrant_db.create_collection. rewrite Hcreate. now eexists.
Qed.

Lemma upsert_batches_reliable name b points indices total log :
  reliable env ->
  exists n log',
    qdrant_db.upsert_batches env name b points indices total log = (Ok n, log').
Proof.
  intros (_ & _ & _ & Hupsert). revert total log.
  induction indices as [|i indices IH]; intros total log.
  - now exists total, log.
  - cbn [qdrant_db.upsert_batches]. unfold qdrant_db.io_bind.
    unfold qdrant_db.client_upsert at 1. rewrite Hupsert. apply IH.
Qed.

(** X11. A run of [upsert_nodes] that returns has stored every node: for a
    positive batch size the number returned is the number of nodes, and
    the batches sent to the store, put end to end, carry the payloads of
    the nodes in their order; no batch is empty and none exceeds the batch
    size. *)
Theorem upsert_nodes_sends_every_node nodes name batch_size log n log' :
  (0 < batch_size)%Z ->
  qdrant_db.upsert_nodes env nodes name batch_size log = (Ok n, log') ->
  n = Z.of_nat (length nodes)
  /\ exists new,
      log' = log ++ new
      /\ map (@qdrant_db.point_payload vector) (concat (upserted_batches new))
         = map to_payload nodes
      /\ Forall (fun batch => (0 < Z.of_nat (length batch) <= batch_size)%Z)
           (upserted_batches new).
Proof.
  intros Hb. unfold qdrant_db.upsert_nodes.
  destruct nodes as [|node nodes].
  { intros H; inversion H; subst. split; [reflexivity|].
    exists []. rewrite app_nil_r. repeat split. constructor. }
  set (all := node :: nodes). unfold qdrant_db.io_bind.
  destruct (qdrant_db.ensure_collection env name qdrant_db.VECTOR_SIZE log)
    as [[[]|e] log1] eqn:E1; [|discriminate].
  apply ensure_collection_log in E1 as (new1 & -> & Hnew1).
  destruct (qdrant_db.build_points env all (log ++ new1))
    as [[points|e] log2] eqn:E2; [|discriminate].
  apply build_points_ok in E2 as (Hpayload & new2 & -> & Hnew2).
  unfold qdrant_db.io_lift.
  destruct (py_range 0 (Z.of_nat (length points)) batch_size) as [indices|e] eqn:E3;
    [|discriminate].
  apply range_batches in E3 as (Hconcat & Hsizes); [|assumption].
  intros H. apply upsert_batches_ok in H as (Hn & new3 & -> & Hnew3).
  cbv zeta in *. rewrite Hconcat in Hn.
  assert (Hlen : length points = length all).
  { rewrite <- (length_map (@qdrant_db.point_payload vector)), Hpayload.
    apply length_map. }
  split; [rewrite Hn, Hlen; lia|].
  exists (new1 ++ new2 ++ new3). split; [now rewrite <- !app_assoc|].
  rewrite !upserted_batches_app, Hnew1, Hnew2, Hnew3. simpl app.
  rewrite Hconcat. split; assumption.
Qed.

(** X12. When no call of the embedder or of the store raises and the batch
    size is positive, [upsert_nodes] returns the number of nodes. *)
Theorem upsert_nodes_returns_node_count nodes name batch_size log :
  reliable env -> (0 < batch_size)%Z ->
  exists log',
    qdrant_db.upsert_nodes env nodes name batch_size log
    = (Ok (Z.of_nat (length nodes)), log').
Proof.
  intros Henv Hb.
  assert (Hrun : exists n log',
             qdrant_db.upsert_nodes env nodes name batch_size log = (Ok n, log')).
  { unfold qdrant_db.upsert_nodes. destruct nodes as [|node nodes]; [now eexists _, _|].
    unfold qdrant_db.io_bind.
    destruct (ensure_collection_reliable name qdrant_db.VECTOR_SIZE log Henv)
      as (log1 & ->).
    destruct (build_points_reliable (node :: nodes) log1 Henv) as (points & log2 & ->).
    unfold qdrant_db.io_lift, py_range.
    assert ((batch_size =? 0)%Z = false) as -> by (apply Z.eqb_neq; lia).
    now apply upsert_batches_reliable. }
  destruct Hrun as (n & log' & Hrun). exists log'. rewrite Hrun.
  pose proof Hrun as H.
  assert (Hn : n = Z.of_nat (length nodes)).
  { unfold qdrant_db.upsert_nodes in H. destruct nodes as [|node nodes].
    { now inversion H. }
    unfold qdrant_db.io_bind in H.
    destruct (qdrant_db.ensure_collection env name qdrant_db.VECTOR_SIZE log)
      as [[[]|e] log1]; [|discriminate].
    destruct (qdrant_db.build_points env (node :: nodes) log1)
      as [[points|e] log2] eqn:E2; [|discriminate].
    apply build_points_ok in E2 as (Hpayload & _).
    unfold qdrant_db.io_lift in H.
    destruct (py_range 0 (Z.of_nat (length points)) batch_size) as [indices|e] eqn:E3;
      [|discriminate].
    apply range_batches in E3 as (Hconcat & _); [|assumption].
    apply upsert_batches_ok in H as (Hn & _). cbv zeta in *.
    rewrite Hconcat in Hn. rewrite Hn.
    rewrite <- (length_map (@qdrant_db.point_payload vector)), Hpayload, length_map.
    lia. }
  now rewrite Hn.
Qed.

(** X13. A batch size that is not positive stores nothing: once the
    points are built, a batch size of zero raises [ValueError] and a
    negative one makes the function report zero upserted points, in both
    cases without a single upsert call. *)
Theorem upsert_nodes_nonpositive_batch_size nodes name batch_size log :
  reliable env -> nodes <> [] -> (batch_size <= 0)%Z ->
  exists new,
    qdrant_db.upsert_nodes env nodes name batch_size log
    = ((if (batch_size =? 0)%Z then Raise ValueError else Ok 0%Z), log ++ new)
    /\ upserted_batches new = [].
Proof.
  intros Henv Hnodes Hb. unfold qdrant_db.upsert_nodes.
  destruct nodes as [|node nodes]; [contradiction|].
  unfold qdrant_db.io_bind.
  destruct (ensure_collection_reliable name qdrant_db.VECTOR_SIZE log Henv)
    as (log1 & E1).
  rewrite E1. apply ensure_collection_log in E1 as (new1 & -> & Hnew1).
  destruct (build_points_reliable (node :: nodes) (log ++ new1) Henv)
    as (points & log2 & E2).
  rewrite E2. apply build_points_ok in E2 as (_ & new2 & -> & Hnew2).
  exists (new1 ++ new2). rewrite upserted_batches_app, Hnew1, Hnew2, app_assoc.
  split; [|reflexivity].
  unfold qdrant_db.io_lift, py_range.
  destruct (Z.eqb_spec batch_size 0) as [->|Hne]; [reflexivity|].
  assert ((0 <? batch_size)%Z = false) as -> by (apply Z.ltb_ge; lia).
  assert (Hcount : ((0 - Z.of_nat (length points) - batch_size - 1) / - batch_size <= 0)%Z).
  { apply Z.lt_succ_r. apply Z.div_lt_upper_bound; lia. }
  replace (Z.to_nat _) with 0%nat by lia. reflexivity.
Qed.

End UpsertNodes.

(** ** VectorStore: search records, and the query endpoint *)

Lemma dict_get_set_same d k v : dict_get (dict_set d k v) k = Some v.
Proof.
  induction d as [|[k' v'] d IH]; simpl.
  - now rewrite pystr_eqb_refl.
  - destruct (pystr_eqb k k') eqn:E; simpl; rewrite E; [reflexivity | exact IH].
Qed.

Lemma dict_get_set_other d k v k' :
  k' <> k -> dict_get (dict_set d k v) k' = dict_get d k'.
Proof.
  intros Hne. induction d as [|[k0 v0] d IH]; simpl.
  - now rewrite pystr_eqb_neq.
  - destruct (pystr_eqb k k0) eqn:E; simpl.
    + apply pystr_eqb_eq in E. subst k0. now rewrite pystr_eqb_neq.
    + destruct (pystr_eqb k' k0); [reflexivity | exact IH].
Qed.

Lemma record_of_hit_carries hit : carries_hit hit (qdrant_db.record_of_hit hit).
Proof.
  unfold carries_hit, qdrant_db.record_of_hit. split.
  - apply dict_get_set_same.
  - intros key Hkey. rewrite dict_get_set_other by assumption.
    destruct (qdrant_db.hit_payload hit) as [[|kv d]|]; reflexivity.
Qed.

(** X14. Every record [search_nodes] returns is its hit's payload with the
    score stored under [_score]: the records follow, one to one and in
    order, the hits the store answered to the search for the vector the
    embedder gave for the query text; a [_score] key the payload already
    had is overwritten, and every other key keeps its value.  A failure
    of [search_nodes] is the embedder's or the store's. *)
Theorem search_nodes_records_carry_hits
    (vector : Type) (env : qdrant_db.environment vector)
    (is_positive : float_lit -> bool)
    (query_text : pystr) (k : Z) (name : pystr) (score_threshold : float_lit)
    (log : list (qdrant_db.call vector)) :
  match qdrant_db.search_nodes env is_positive query_text k name score_threshold log with
  | (Ok records, log') =>
      exists query_vector hits,
        qdrant_db.embed_reply env log query_text = Ok query_vector
        /\ qdrant_db.search_reply env (log ++ [qdrant_db.CallEmbed vector query_text])
             name query_vector k
             (if is_positive score_threshold then Some score_threshold else None)
           = Ok hits
        /\ log' = log ++ [qdrant_db.CallEmbed vector query_text;
                          qdrant_db.CallSearch name query_vector k
                            (if is_positive score_threshold
                             then Some score_threshold else None)]
        /\ Forall2 carries_hit hits records
  | (Raise e, log') =>
      qdrant_db.embed_reply env log query_text = Raise e
      \/ exists query_vector,
           qdrant_db.embed_reply env log query_text = Ok query_vector
           /\ qdrant_db.search_reply env (log ++ [qdrant_db.CallEmbed vector query_text])
                name query_vector k
                (if is_positive score_threshold then Some score_threshold else None)
              = Raise e
  end.
Proof.
  unfold qdrant_db.search_nodes, qdrant_db.io_bind, qdrant_db.embed_text,
    qdrant_db.client_search, qdrant_db.io_ret.
  destruct (qdrant_db.embed_reply env log query_text) as [v|e]; [|now left].
  destruct (qdrant_db.search_reply env _ name v k _) as [hits|e] eqn:E.
  - exists v, hits. split; [reflexivity|]. split; [exact E|].
    split; [now rewrite <- app_assoc|].
    clear E. induction hits as [|hit hits IH]; constructor;
      [apply record_of_hit_carries | exact IH].
  - right. exists v. split; [reflexivity | exact E].
Qed.

Lemma py_lstrip_all_space s : all_space s -> py_lstrip s = [].
Proof.
  induction 1 as [|c s Hc _ IH]; [reflexivity|]. simpl. now rewrite Hc.
Qed.

Lemma py_lstrip_empty s : py_lstrip s = [] -> all_space s.
Proof.
  induction s as [|c s IH]; [constructor|]. simpl.
  destruct (py_isspace c) eqn:Hc; [|discriminate].
  intros H. apply Forall_cons; [exact Hc | exact (IH H)].
Qed.

(** [strip] leaves nothing exactly when the string is all whitespace. *)
Lemma py_strip_empty_iff s : py_strip s = [] <-> all_space s.
Proof.
  unfold py_strip, py_rstrip. split.
  - intros H. apply py_lstrip_empty in H.
    apply Forall_rev in H. rewrite rev_involutive in H.
    destruct (py_lstrip (rev s)) eqn:E.
    + apply py_lstrip_empty in E. apply Forall_rev in E.
      now rewrite rev_involutive in E.
    + exfalso. pose proof (@py_lstrip_head (rev s) n l E) as Hn.
      inversion H; subst. congruence.
  - intros H. apply Forall_rev in H. apply py_lstrip_all_space in H.
    now rewrite H.
Qed.

(** X15. The query endpoint answers 400 exactly for a query that is empty
    or all whitespace, and then calls neither the embedder nor the store;
    it answers 503 exactly when the search raised; and otherwise its
    [count] is the number of records the search returned. *)
Theorem query_status_codes
    (vector : Type) (env : qdrant_db.environment vector)
    (is_positive : float_lit -> bool) (collection : pystr)
    (request : QueryRequest) (log : list (qdrant_db.call vector)) :
  let search := qdrant_db.search_nodes env is_positive (request_query request)
                  (request_k request) collection
                  (request_score_threshold request) log in
  match query env is_positive collection request log with
  | (HTTPException status_code, log') =>
      (status_code = 400%Z /\ all_space (request_query request) /\ log' = log)
      \/ (status_code = 503%Z /\ ~ all_space (request_query request)
          /\ exists e, search = (Raise e, log'))
  | (QueryResponse results count, log') =>
      ~ all_space (request_query request)
      /\ search = (Ok results, log')
      /\ count = Z.of_nat (length results)
  end.
Proof.
  cbv zeta. unfold query.
  destruct (py_strip (request_query request)) as [|c r] eqn:E.
  - left. repeat split. now apply py_strip_empty_iff.
  - assert (Hq : ~ all_space (request_query request)).
    { intros H. apply py_strip_empty_iff in H. congruence. }
    destruct (qdrant_db.search_nodes env is_positive (request_query request)
                (request_k request) collection (request_score_threshold request) log)
      as [[results|e] log'].
    + repeat split. exact Hq.
    + right. repeat split; [exact Hq | now exists e].
Qed.

Lemma quiet_environment_reliable : reliable quiet_environment.
Proof. repeat split; intros; try reflexivity; now eexists. Qed.

Lemma upsert_nodes_sends_every_node_witness :
  let nodes := [good_node; undiagnosed_node; good_node] in
  let run := qdrant_db.upsert_nodes quiet_environment nodes
               (str "souli_knowledge_base") 2 [] in
  fst run = Ok 3%Z
  /\ 3%Z = Z.of_nat (length nodes)
  /\ exists new,
      snd run = [] ++ new
      /\ map (@qdrant_db.point_payload unit) (concat (upserted_batches new))
         = map to_payload nodes
      /\ Forall (fun batch => (0 < Z.of_nat (length batch) <= 2)%Z)
           (upserted_batches new).
Proof.
  cbv zeta. split; [vm_compute; reflexivity|].
  apply (@upsert_nodes_sends_every_node unit quiet_environment
           [good_node; undiagnosed_node; good_node] (str "souli_knowledge_base") 2 []);
    [lia | vm_compute; reflexivity].
Defined.

Lemma upsert_nodes_returns_node_count_witness :
  exists log',
    qdrant_db.upsert_nodes quiet_environment [good_node; undiagnosed_node]
      (str "souli_knowledge_base") 64 []
    = (Ok 2%Z, log').
Proof.
  apply (@upsert_nodes_returns_node_count unit quiet_environment
           [good_node; undiagnosed_node] (str "souli_knowledge_base") 64 []).
  - exact quiet_environment_reliable.
  - lia.
Defined.

Lemma upsert_nodes_nonpositive_batch_size_witness :
  (exists new,
      qdrant_db.upsert_nodes quiet_environment [good_node]
        (str "souli_knowledge_base") 0 []
      = (Raise ValueError, [] ++ new)
      /\ upserted_batches new = [])
  /\ (exists new,
      qdrant_db.upsert_nodes quiet_environment [good_node]
        (str "souli_knowledge_base") (-1) []
      = (Ok 0%Z, [] ++ new)
      /\ upserted_batches new = []).
Proof.
  split.
  - apply (@upsert_nodes_nonpositive_batch_size unit quiet_environment
             [good_node] (str "souli_knowledge_base") 0 []);
      [exact quiet_environment_reliable | discriminate | lia].
  - apply (@upsert_nodes_nonpositive_batch_size unit quiet_environment
             [good_node] (str "souli_knowledge_base") (-1) []);
      [exact quiet_environment_reliable | discriminate | lia].
Defined.

(** ** TranscriptCleaner: what cleaning can and cannot do *)

Lemma derived_refl s : derived s s.
Proof. induction s; constructor; assumption. Qed.

Lemma derived_drop_all s : derived s [].
Proof. induction s; constructor; assumption. Qed.

Lemma derived_trans a b c : derived a b -> derived b c -> derived a c.
Proof.
  intros Hab Hbc. revert a Hab.
  induction Hbc as [|x b c Hbc IH|x b c Hbc IH|b c Hbc IH]; intros a Hab.
  - exact Hab.
  - remember (x :: b) as xb eqn:E. revert b c Hbc IH E.
    induction Hab as [|y a o Hab IHab|y a o Hab IHab|a o Hab IHab];
      intros b c Hbc IH E.
    + discriminate.
    + inversion E; subst. apply derived_keep. now apply IH.
    + apply derived_drop. now apply IHab with b.
    + inversion E; subst. apply derived_space. now apply IH.
  - remember (x :: b) as xb eqn:E. revert b Hbc IH E.
    induction Hab as [|y a o Hab IHab|y a o Hab IHab|a o Hab IHab];
      intros b Hbc IH E.
    + discriminate.
    + inversion E; subst. apply derived_drop. now apply IH.
    + apply derived_drop. now apply IHab with b.
    + inversion E; subst. now apply IH.
  - apply derived_space. now apply IH.
Qed.

Lemma derived_app a b c d : derived a b -> derived c d -> derived (a ++ c) (b ++ d).
Proof. induction 1; intros Hcd; simpl; try constructor; auto. Qed.

Lemma derived_infix s t : contains s t -> derived s t.
Proof.
  intros (pre & post & ->).
  rewrite <- (app_nil_l t) at 2. apply derived_app; [apply derived_drop_all|].
  rewrite <- (app_nil_r t) at 2. apply derived_app; [apply derived_refl|].
  apply derived_drop_all.
Qed.

(** What is derived holds no character, other than the space, that the
    text did not hold. *)
Lemma derived_In s out c : derived s out -> In c out -> c = 32%N \/ In c s.
Proof.
  induction 1 as [|x s o H IH|x s o H IH|s o H IH]; intros Hin.
  - contradiction.
  - destruct Hin as [->|Hin]; [right; now left|].
    destruct (IH Hin); [now left | right; now right].
  - destruct (IH Hin); [now left | right; now right].
  - destruct Hin as [<-|Hin]; [now left | auto].
Qed.

Lemma derived_no_bracket_pair s out :
  derived s out -> no_bracket_pair s -> no_bracket_pair out.
Proof.
  induction 1 as [|x s o H IH|x s o H IH|s o H IH]; intros Hs.
  - exact Hs.
  - assert (Htail : no_bracket_pair s).
    { intros a b E. apply (Hs (x :: a) b). now rewrite E. }
    intros a b E. destruct a as [|y a]; simpl in E; inversion E; subst.
    + intros Hin. destruct (@derived_In _ _ _ H Hin) as [Hc|Hc]; [discriminate|].
      exact (Hs [] s eq_refl Hc).
    + exact (IH Htail a b eq_refl).
  - apply IH. intros a b E. apply (Hs (x :: a) b). now rewrite E.
  - intros a b E. destruct a as [|y a]; simpl in E; inversion E; subst.
    exact (IH Hs a b eq_refl).
Qed.

Section Cleaner.
Variable re_digit : N -> bool.
Variable re_word : N -> bool.

(** *** Every substitution deletes and inserts spaces, nothing else *)

Lemma re_sub_from_derived r repl skip prev s :
  repl = [] \/ repl = [32%N] ->
  derived s (re_sub_from re_word r repl skip prev s).
Proof.
  intros Hrepl.
  assert (Hins : forall a o, derived a o -> derived a (repl ++ o)).
  { intros a o H. destruct Hrepl as [->| ->]; [exact H | now apply derived_space]. }
  revert skip prev. induction s as [|c t IH]; intros skip prev; cbn [re_sub_from].
  - destruct skip; [|constructor].
    destruct (re_match re_word r prev [] 0 accept); [|constructor].
    rewrite <- (app_nil_r repl). apply Hins. constructor.
  - destruct skip as [|k]; [|apply derived_drop, IH].
    destruct (re_match re_word r prev (c :: t) 0 accept) as [[|m]|].
    + apply Hins. apply derived_keep, IH.
    + apply Hins. apply derived_drop, IH.
    + apply derived_keep, IH.
Qed.

Lemma re_sub_derived r repl s :
  repl = [] \/ repl = [32%N] -> derived s (re_sub re_word r repl s).
Proof. apply re_sub_from_derived. Qed.

Lemma fold_re_sub_derived patterns s :
  derived s (fold_left (fun text pattern => re_sub re_word pattern [32%N] text)
               patterns s).
Proof.
  revert s. induction patterns as [|r rs IH]; intros s; simpl.
  - apply derived_refl.
  - eapply derived_trans; [|apply IH]. apply re_sub_derived. now right.
Qed.

(** What follows the bracket step in [clean_transcript] only deletes and
    inserts spaces. *)
Lemma clean_transcript_after_brackets raw :
  derived (re_sub re_word bracketed [32%N] raw) (clean_transcript re_digit re_word raw).
Proof.
  unfold clean_transcript.
  eapply derived_trans; [apply re_sub_derived; now left|].
  eapply derived_trans; [apply re_sub_derived; now right|].
  eapply derived_trans; [apply fold_re_sub_derived|].
  eapply derived_trans; [apply re_sub_derived; now right|].
  apply derived_infix, py_strip_infix.
Qed.

Lemma clean_transcript_derived raw :
  derived raw (clean_transcript re_digit re_word raw).
Proof.
  eapply derived_trans; [|apply clean_transcript_after_brackets].
  apply re_sub_derived. now right.
Qed.

(** X16. Cleaning never invents or reorders text: the cleaned transcript
    is the raw one with characters deleted and plain spaces inserted, so
    every character of it other than the plain space occurs in the raw
    text. *)
Theorem clean_transcript_only_deletes raw :
  derived raw (clean_transcript re_digit re_word raw)
  /\ forall c, In c (clean_transcript re_digit re_word raw) ->
       c = 32%N \/ In c raw.
Proof.
  split; [apply clean_transcript_derived|].
  intros c. apply derived_In, clean_transcript_derived.
Qed.

End Cleaner.

(** *** What a match consumes *)

Lemma accept_bounded : bounded accept 0.
Proof. intros prev s n x H. inversion H; subst. lia. Qed.

Lemma star_greedy_bounded p k m0 : bounded k m0 -> bounded (star_greedy p k) m0.
Proof.
  intros Hk prev s. revert prev. induction s as [|c t IH]; intros prev n x; simpl.
  - apply Hk.
  - destruct (p c); [|apply Hk].
    destruct (star_greedy p k (Some c) t (S n)) as [y|] eqn:E.
    + intros H; inversion H; subst. apply IH in E. lia.
    + apply Hk.
Qed.

Lemma star_lazy_bounded p k m0 : bounded k m0 -> bounded (star_lazy p k) m0.
Proof.
  intros Hk prev s. revert prev. induction s as [|c t IH]; intros prev n x; simpl.
  - destruct (k prev [] n) as [y|] eqn:E; [|discriminate].
    intros H; inversion H; subst. now apply Hk in E.
  - destruct (k prev (c :: t) n) as [y|] eqn:E.
    + intros H; inversion H; subst. now apply Hk in E.
    + destruct (p c); [|discriminate]. intros H. apply IH in H. lia.
Qed.

Lemma upto_greedy_bounded m p k m0 : bounded k m0 -> bounded (upto_greedy m p k) m0.
Proof.
  intros Hk. induction m as [|m IH]; intros prev s n x; simpl; [apply Hk|].
  destruct s as [|c t]; [apply Hk|].
  destruct (p c); [|apply Hk].
  destruct (upto_greedy m p k (Some c) t (S n)) as [y|] eqn:E.
  - intros H; inversion H; subst. apply IH in E. simpl. lia.
  - apply Hk.
Qed.

Section Matches.
Variable re_word : N -> bool.

(** A match consumes at least [min_len] characters and at most the text. *)
Lemma re_match_bounded r k m0 :
  bounded k m0 ->
  bounded (fun prev s n => re_match re_word r prev s n k) (min_len r + m0).
Proof.
  revert k m0.
  induction r as [ |p|r1 IH1 r2 IH2|r1 IH1 r2 IH2|r1 IH1|p|p|m p| | ];
    intros k m0 Hk prev s n x; cbn [re_match min_len].
  - apply Hk.
  - destruct s as [|c t]; [discriminate|]. destruct (p c); [|discriminate].
    intros H. apply Hk in H. simpl. lia.
  - intros H. apply (IH1 _ (min_len r2 + m0)%nat) in H; [lia|].
    now apply IH2.
  - destruct (re_match re_word r1 prev s n k) as [y|] eqn:E.
    + intros H; inversion H; subst. apply (IH1 _ _ Hk) in E. lia.
    + intros H. apply (IH2 _ _ Hk) in H. lia.
  - destruct (re_match re_word r1 prev s n k) as [y|] eqn:E.
    + intros H; inversion H; subst. apply (IH1 _ _ Hk) in E. lia.
    + apply Hk.
  - apply star_greedy_bounded, Hk.
  - apply star_lazy_bounded, Hk.
  - apply upto_greedy_bounded, Hk.
  - destruct prev as [c|]; [destruct (c =? 10)%N; [|discriminate]|]; apply Hk.
  - destruct (xorb _ _); [apply Hk | discriminate].
Qed.

Lemma re_match_consumed r prev s x :
  re_match re_word r prev s 0 accept = Some x ->
  (min_len r <= x <= length s)%nat.
Proof.
  intros H. apply (@re_match_bounded r accept 0 accept_bounded) in H. lia.
Qed.

(** A substitution with a pattern that has no empty match and a
    replacement of at most one character never makes the text longer. *)
Lemma re_sub_from_length r repl skip prev s :
  (1 <= min_len r)%nat -> (length repl <= 1)%nat ->
  (length (re_sub_from re_word r repl skip prev s) + Nat.min skip (length s)
   <= length s)%nat.
Proof.
  intros Hr Hrepl. revert skip prev.
  induction s as [|c t IH]; intros skip prev; cbn [re_sub_from].
  - destruct skip; [|simpl; lia].
    destruct (re_match re_word r prev [] 0 accept) as [x|] eqn:E; [|simpl; lia].
    apply re_match_consumed in E. simpl in E. lia.
  - destruct skip as [|k].
    + destruct (re_match re_word r prev (c :: t) 0 accept) as [[|m]|] eqn:E.
      * apply re_match_consumed in E. lia.
      * specialize (IH m (Some c)). rewrite length_app. cbn [length]. lia.
      * specialize (IH 0%nat (Some c)). cbn [length]. lia.
    + specialize (IH k (Some c)). cbn [length]. lia.
Qed.

Lemma re_sub_length r repl s :
  (1 <= min_len r)%nat -> (length repl <= 1)%nat ->
  (length (re_sub re_word r repl s) <= length s)%nat.
Proof.
  intros Hr Hrepl.
  pose proof (@re_sub_from_length r repl 0 None s Hr Hrepl). unfold re_sub. lia.
Qed.

Lemma fold_re_sub_length patterns s :
  Forall (fun r => (1 <= min_len r)%nat) patterns ->
  (length (fold_left (fun text pattern => re_sub re_word pattern [32%N] text)
             patterns s) <= length s)%nat.
Proof.
  intros H. revert s. induction H as [|r rs Hr _ IH]; intros s; simpl; [lia|].
  etransitivity; [apply IH|]. apply re_sub_length; [assumption | simpl; lia].
Qed.

End Matches.

(** X17. Cleaning never makes a transcript longer. *)
Theorem clean_transcript_never_longer (re_digit re_word : N -> bool) (raw : pystr) :
  (length (clean_transcript re_digit re_word raw) <= length raw)%nat.
Proof.
  unfold clean_transcript.
  etransitivity; [apply py_strip_length|].
  etransitivity; [apply re_sub_length; simpl; lia|].
  etransitivity; [apply fold_re_sub_length|].
  { unfold filler_patterns. repeat constructor; vm_compute; lia. }
  etransitivity; [apply re_sub_length; simpl; lia|].
  etransitivity; [apply re_sub_length; simpl; lia|].
  apply re_sub_length; simpl; lia.
Qed.

(** *** The last step: whitespace *)

Lemma star_greedy_space_run prev s n :
  star_greedy py_isspace accept prev s n = Some (n + space_run s)%nat.
Proof.
  revert prev n. induction s as [|c t IH]; intros prev n; simpl.
  - unfold accept. f_equal. lia.
  - destruct (py_isspace c); [|unfold accept; f_equal; lia].
    rewrite IH. f_equal. lia.
Qed.

Lemma contains_cons_inv (c : N) s needle :
  contains (c :: s) needle ->
  (exists post, c :: s = needle ++ post) \/ contains s needle.
Proof.
  intros (pre & post & E). destruct pre as [|x pre].
  - left. now exists post.
  - right. simpl in E. inversion E; subst. now exists pre, post.
Qed.

Lemma contains_trans a b c : contains a b -> contains b c -> contains a c.
Proof.
  intros (p1 & q1 & ->) (p2 & q2 & ->).
  exists (p1 ++ p2), (q2 ++ q1). now rewrite <- !app_assoc.
Qed.

Section Whitespace.
Variable re_word : N -> bool.

Lemma match_space_plus prev c t :
  re_match re_word (plus py_isspace) prev (c :: t) 0 accept
  = if py_isspace c then Some (S (space_run t)) else None.
Proof.
  unfold plus. cbn [re_match]. destruct (py_isspace c); [|reflexivity].
  now rewrite star_greedy_space_run.
Qed.

(** The text after the whitespace step: only plain spaces, never two in a
    row; and behind a run that is being replaced no whitespace comes
    first. *)
Lemma collapse_spaces s :
  (forall prev,
      let out := re_sub_from re_word (plus py_isspace) [32%N] 0 prev s in
      (forall c, In c out -> py_isspace c = true -> c = 32%N)
      /\ ~ contains out [32%N; 32%N])
  /\ (forall prev,
      let out := re_sub_from re_word (plus py_isspace) [32%N] (space_run s) prev s in
      (forall c, In c out -> py_isspace c = true -> c = 32%N)
      /\ ~ contains out [32%N; 32%N]
      /\ (forall c r, out = c :: r -> py_isspace c = false)).
Proof.
  induction s as [|c t (IHa & IHb)].
  - split; intros prev; cbv zeta; simpl.
    + split; [contradiction|]. intros (pre & post & E). now destruct pre.
    + split; [contradiction|]. split; [|discriminate].
      intros (pre & post & E). now destruct pre.
  - assert (Hcopy : py_isspace c = false -> forall prev,
               let out := re_sub_from re_word (plus py_isspace) [32%N] 0 prev (c :: t) in
               (forall x, In x out -> py_isspace x = true -> x = 32%N)
               /\ ~ contains out [32%N; 32%N]
               /\ (forall x r, out = x :: r -> py_isspace x = false)).
    { intros Hc prev. cbv zeta. cbn [re_sub_from].
      rewrite match_space_plus, Hc.
      destruct (IHa (Some c)) as (H1 & H2). cbv zeta in H1, H2.
      split; [|split].
      - intros x [<-|Hx] Hsp; [congruence | now apply H1].
      - intros H. apply contains_cons_inv in H as [(post & E)|H]; [|now apply H2].
        inversion E; subst. discriminate.
      - intros x r E. now inversion E; subst. }
    split; intros prev; cbv zeta.
    + destruct (py_isspace c) eqn:Hc.
      * cbn [re_sub_from]. rewrite match_space_plus, Hc.
        destruct (IHb (Some c)) as (H1 & H2 & H3). cbv zeta in H1, H2, H3.
        split.
        -- intros x [<-|Hx] Hsp; [reflexivity | now apply H1].
        -- intros H. apply contains_cons_inv in H as [(post & E)|H]; [|now apply H2].
           simpl in E. inversion E as [E'].
           apply H3 in E'. discriminate.
      * destruct (Hcopy eq_refl prev) as (H1 & H2 & _). now split.
    + cbn [space_run]. destruct (py_isspace c) eqn:Hc.
      * cbn [re_sub_from]. apply IHb.
      * apply (Hcopy eq_refl prev).
Qed.

Lemma re_sub_spaces_single s :
  let out := py_strip (re_sub re_word (plus py_isspace) [32%N] s) in
  single_spaced out.
Proof.
  cbv zeta. unfold single_spaced.
  destruct (proj1 (collapse_spaces s) None) as (H1 & H2). cbv zeta in H1, H2.
  fold (re_sub re_word (plus py_isspace) [32%N] s) in H1, H2.
  pose proof (py_strip_infix (re_sub re_word (plus py_isspace) [32%N] s)) as Hin.
  split; [apply py_strip_stripped|]. split.
  - intros c Hc. apply H1. exact (@contains_In _ _ c Hin Hc).
  - intros H. apply H2. exact (contains_trans Hin H).
Qed.

End Whitespace.

(** X18. A cleaned transcript has its whitespace normalised, whatever the
    raw text: no whitespace at either end, no whitespace character other
    than the plain space, and never two spaces in a row. *)
Theorem clean_transcript_single_spaced (re_digit re_word : N -> bool) (raw : pystr) :
  single_spaced (clean_transcript re_digit re_word raw).
Proof. unfold clean_transcript. apply re_sub_spaces_single. Qed.

Lemma stripped_all_space s : stripped s -> all_space s -> s = [].
Proof.
  intros (Hhead & _) Hall. destruct s as [|c r]; [reflexivity|].
  inversion Hall; subst. rewrite (Hhead c r eq_refl) in *. discriminate.
Qed.

(** X19. A raw transcript that is empty or all whitespace cleans to the
    empty string. *)
Theorem clean_transcript_blank (re_digit re_word : N -> bool) (raw : pystr) :
  all_space raw -> clean_transcript re_digit re_word raw = [].
Proof.
  intros Hraw. apply stripped_all_space.
  - unfold clean_transcript. apply py_strip_stripped.
  - apply Forall_forall. intros c Hc.
    destruct (@derived_In _ _ c (clean_transcript_derived re_digit re_word raw) Hc)
      as [->|Hin]; [reflexivity|].
    unfold all_space in Hraw. rewrite Forall_forall in Hraw. now apply Hraw.
Qed.

(** *** The bracket step *)

Section Brackets.
Variable re_word : N -> bool.

Lemma star_lazy_closing_bracket prev t n :
  ~ In 10%N t -> In 93%N t ->
  star_lazy dot_char (fun prev' s' n' => re_match re_word (chr 93) prev' s' n' accept)
    prev t n <> None.
Proof.
  revert prev n. induction t as [|c t IH]; intros prev n Hnl Hin; [contradiction|].
  cbn [star_lazy re_match chr].
  destruct (N.eqb_spec 93 c) as [->|Hc]; [discriminate|].
  assert (Hdot : dot_char c = true).
  { unfold dot_char. destruct (N.eqb_spec c 10) as [->|_]; [|reflexivity].
    exfalso. apply Hnl. now left. }
  rewrite Hdot. apply IH.
  - intros H. apply Hnl. now right.
  - destruct Hin as [Hin|Hin]; [congruence | assumption].
Qed.

(** On a text without a newline, the pattern fails at an opening bracket
    only when no closing bracket follows. *)
Lemma bracketed_no_match prev t :
  ~ In 10%N t ->
  re_match re_word bracketed prev (91%N :: t) 0 accept = None ->
  ~ In 93%N t.
Proof.
  intros Hnl H Hin. unfold bracketed in H. cbn [re_match chr] in H.
  change (91 =? 91)%N with true in H. cbv iota in H.
  now apply (@star_lazy_closing_bracket (Some 91%N) t 1%nat Hnl Hin).
Qed.

Lemma no_bracket_pair_cons c out :
  no_bracket_pair out -> (c = 91%N -> ~ In 93%N out) -> no_bracket_pair (c :: out).
Proof.
  intros Hout Hc a b E. destruct a as [|x a]; simpl in E; inversion E; subst.
  - now apply Hc.
  - exact (Hout a b eq_refl).
Qed.

Lemma re_sub_from_bracketed skip prev s :
  ~ In 10%N s ->
  no_bracket_pair (re_sub_from re_word bracketed [32%N] skip prev s).
Proof.
  revert skip prev. induction s as [|c t IH]; intros skip prev Hnl; cbn [re_sub_from].
  - destruct skip.
    + destruct (re_match re_word bracketed prev [] 0 accept).
      * apply no_bracket_pair_cons; [|discriminate].
        intros a b E. now destruct a.
      * intros a b E. now destruct a.
    + intros a b E. now destruct a.
  - assert (Ht : ~ In 10%N t) by (intros H; apply Hnl; now right).
    destruct skip as [|k]; [|now apply IH].
    destruct (re_match re_word bracketed prev (c :: t) 0 accept) as [[|m]|] eqn:E.
    + apply re_match_consumed in E. simpl in E. lia.
    + simpl app. apply no_bracket_pair_cons; [now apply IH | discriminate].
    + apply no_bracket_pair_cons; [now apply IH|].
      intros -> Hin.
      destruct (@derived_In _ _ 93%N
                  (@re_sub_from_derived re_word bracketed [32%N] 0 (Some 91%N) t
                     (or_intror eq_refl)) Hin) as [Hc|Hc]; [discriminate|].
      exact (@bracketed_no_match prev t Ht E Hc).
Qed.

End Brackets.

(** X20. On a raw transcript without a newline, cleaning leaves no
    bracketed passage: in the cleaned text no opening bracket is followed,
    anywhere later, by a closing bracket. *)
Theorem clean_transcript_removes_brackets (re_digit re_word : N -> bool) (raw : pystr) :
  ~ In 10%N raw -> no_bracket_pair (clean_transcript re_digit re_word raw).
Proof.
  intros Hnl.
  apply derived_no_bracket_pair with (re_sub re_word bracketed [32%N] raw).
  - apply clean_transcript_after_brackets.
  - now apply re_sub_from_bracketed.
Qed.

(** ** The pipeline for one URL *)


Lemma clean_transcript_blank_witness :
  clean_transcript ascii_digit ascii_word [32%N; 10%N; 9%N; 160%N] = [].
Proof.
  apply clean_transcript_blank. repeat constructor.
Defined.

Lemma clean_transcript_removes_brackets_witness :
  no_bracket_pair
    (clean_transcript ascii_digit ascii_word
       (str "[Music] Host: rest is [00:12] not a reward [applause")).
Proof.
  apply clean_transcript_removes_brackets.
  intros H. cbv in H. repeat (destruct H as [H|H]; [discriminate|]). exact H.
Defined.

(** ** NodeValidator: what is enough for an item to be accepted *)

Lemma diagnostic_field_read d name field :
  diagnostic_from d name field ->
  (dl_raw <- py_get (JObj d) (str "diagnostic_layer") (JObj []) ;;
   raw <- py_get dl_raw name (JStr []) ;;
   validate_str raw)%py = Ok field.
Proof.
  unfold diagnostic_from. cbn [py_get bind].
  destruct (dict_get d (str "diagnostic_layer")) as [layer|].
  - intros (dd & -> & H). cbn [py_get bind].
    destruct (dict_get dd name) as [v|]; subst; reflexivity.
  - intros ->. reflexivity.
Qed.

(** X22. The converse of X4: a dict that holds the strings of a node under
    [main_question] and [category], its pillars and its atmosphere as
    dicts of strings, its overflow as a list of strings or not at all, and
    each diagnostic field as a string or not at all, is accepted and gives
    exactly that node; keys the schema does not know are ignored. *)
Theorem build_node_accepts_matching_item d pd ad node :
  dict_get d (str "main_question") = Some (JStr (main_question node)) ->
  dict_get d (str "category") = Some (JStr (category node)) ->
  dict_get d (str "pillars") = Some (JObj pd) ->
  dict_get pd (str "intervention_narrative")
  = Some (JStr (intervention_narrative (pillars node))) ->
  dict_get pd (str "intervention_action")
  = Some (JStr (intervention_action (pillars node))) ->
  dict_get pd (str "intervention_shift")
  = Some (JStr (intervention_shift (pillars node))) ->
  dict_get d (str "atmosphere") = Some (JObj ad) ->
  dict_get ad (str "tone") = Some (JStr (tone (atmosphere node))) ->
  dict_get ad (str "pacing") = Some (JStr (pacing (atmosphere node))) ->
  match dict_get d (str "overflow") with
  | Some v => v = JArr (map JStr (overflow node))
  | None => overflow node = []
  end ->
  diagnostic_from d (str "related_inner_issues")
    (related_inner_issues (diagnostic_layer node)) ->
  diagnostic_from d (str "reality_commitment_check")
    (reality_commitment_check (diagnostic_layer node)) ->
  diagnostic_from d (str "hidden_benefit")
    (hidden_benefit (diagnostic_layer node)) ->
  diagnostic_from d (str "energy_node")
    (energy_node (diagnostic_layer node)) ->
  build_node (JObj d) (video_id node) (video_url node) = Ok node.
Proof.
  destruct node as [vid vurl mq cat [rii rcc hb en] [pn pa ps] [tn pc] ovf].
  cbn [video_id video_url main_question category diagnostic_layer pillars
       atmosphere overflow related_inner_issues reality_commitment_check
       hidden_benefit energy_node intervention_narrative intervention_action
       intervention_shift tone pacing].
  intros Hmq Hcat Hp Hpn Hpa Hps Ha Htn Hpc Hov H1 H2 H3 H4.
  apply diagnostic_field_read in H1, H2, H3, H4.
  unfold build_node. cbn [py_get py_getitem bind] in *.
  set (dl_raw := match dict_get d (str "diagnostic_layer") with
                 | Some v => v
                 | None => JObj []
                 end) in *.
  destruct (py_get dl_raw (str "related_inner_issues") (JStr [])) as [r1|];
    [|discriminate]. cbn [bind] in *.
  destruct (py_get dl_raw (str "reality_commitment_check") (JStr [])) as [r2|];
    [|discriminate]. cbn [bind] in *.
  destruct (py_get dl_raw (str "hidden_benefit") (JStr [])) as [r3|];
    [|discriminate]. cbn [bind] in *.
  destruct (py_get dl_raw (str "energy_node") (JStr [])) as [r4|];
    [|discriminate]. cbn [bind] in *.
  rewrite H1, H2, H3, H4. cbn [bind].
  rewrite Hmq, Hcat, Hp, Ha. cbn [bind kwargs_of].
  unfold new_Pillars, new_Atmosphere, required_str.
  rewrite Hpn, Hpa, Hps, Htn, Hpc. cbn [bind validate_str].
  destruct (dict_get d (str "overflow")) as [v|]; subst; cbn [validate_str_list].
  - rewrite validate_str_items_map. reflexivity.
  - reflexivity.
Qed.

Lemma build_node_accepts_matching_item_witness :
  build_node
    (JObj [(str "note", JInt 7);
           (str "main_question", JStr (str "How do I rest?"));
           (str "category", JStr (str "Burnout"));
           (str "pillars",
            JObj [(str "intervention_narrative", JStr (str "Rest is the foundation."));
                  (str "intervention_action", JStr (str "Schedule one rest period."));
                  (str "intervention_shift", JStr (str "I am productive because I rest."));
                  (str "mood", JNull)]);
           (str "atmosphere",
            JObj [(str "tone", JStr (str "warm")); (str "pacing", JStr (str "slow"))])])
    sample_video_id sample_video_url
  = Ok (mkEnergyNode sample_video_id sample_video_url
          (str "How do I rest?") (str "Burnout")
          (mkDiagnosticLayer [] [] [] [])
          (mkPillars (str "Rest is the foundation.") (str "Schedule one rest period.")
             (str "I am productive because I rest."))
          (mkAtmosphere (str "warm") (str "slow")) []).
Proof.
  apply (@build_node_accepts_matching_item _
           [(str "intervention_narrative", JStr (str "Rest is the foundation."));
            (str "intervention_action", JStr (str "Schedule one rest period."));
            (str "intervention_shift", JStr (str "I am productive because I rest."));
            (str "mood", JNull)]
           [(str "tone", JStr (str "warm")); (str "pacing", JStr (str "slow"))]
           (mkEnergyNode sample_video_id sample_video_url
              (str "How do I rest?") (str "Burnout")
              (mkDiagnosticLayer [] [] [] [])
              (mkPillars (str "Rest is the foundation.")
                 (str "Schedule one rest period.")
                 (str "I am productive because I rest."))
              (mkAtmosphere (str "warm") (str "slow")) []));
    reflexivity.
Defined.

(** ** NodeValidator: which items are skipped *)


